(** * ppt2video: a shallow embedding of [ppt2video.py]

    The script is a linear pipeline: it loads an optional pronunciation
    mapping, computes the list of slides to process, runs a per-slide loop
    (notes text, pronunciation substitution, image export, speech synthesis,
    audio padding, clip encoding) and concatenates the clips.

    Conventions of the embedding.
    - A Python [str] is a [list ascii]; a character is one of the 256 code
      points of Latin-1, and the whitespace, case and word-character tables
      below are Python's tables restricted to that range.
    - A Python [int] is a [Z].
    - An exception is a value of [exn]; code that can raise returns a
      [result].
    - The external collaborators (PowerPoint, the speech services, ffmpeg,
      the file system) are the fields of a [world] record and an explicit
      file-system state. *)

From Stdlib Require Import List Ascii String ZArith Lia Bool Arith.
From Stdlib Require Import Sorting.Sorted Sorting.Permutation.
From Stdlib Require Import Numbers.DecimalString Numbers.DecimalZ.
Import ListNotations.

Local Open Scope Z_scope.
Local Open Scope list_scope.

(** ** Exceptions and results *)

Inductive exn : Type :=
| ValueError        (* int(), tuple unpacking *)
| AttributeError    (* a missing attribute of the argparse namespace *)
| ReError           (* re.error: a bad replacement template *)
| ComError          (* a failing call into PowerPoint or SAPI *)
| OSError.          (* open(), os.mkdir() *)

Inductive result (A : Type) : Type :=
| Ok (a : A)
| Raise (e : exn).
Arguments Ok {A} a.
Arguments Raise {A} e.

Definition bind {A B : Type} (r : result A) (k : A -> result B) : result B :=
  match r with
  | Ok a => k a
  | Raise e => Raise e
  end.

Notation "x <- r ;; k" := (bind r (fun x => k))
  (at level 61, r at next level, right associativity).

(** ** Strings *)

Definition str : Type := list ascii.

Definition lit (s : string) : str := list_ascii_of_string s.

Definition chr (n : nat) : ascii := ascii_of_nat n.
Definition ord (c : ascii) : nat := nat_of_ascii c.

Definition in_range (lo hi : nat) (c : ascii) : bool :=
  (lo <=? ord c)%nat && (ord c <=? hi)%nat.

(** [str.isspace] on one character: TAB..CR, FS..US, space, NEL, NBSP. *)
Definition isspace (c : ascii) : bool :=
  in_range 9 13 c || in_range 28 32 c
  || (ord c =? 133)%nat || (ord c =? 160)%nat.

(** [str.lower] on one character: A-Z and the Latin-1 capitals, the
    multiplication sign (215) apart. *)
Definition lower_char (c : ascii) : bool * ascii :=
  if in_range 65 90 c
     || (in_range 192 222 c && negb (ord c =? 215)%nat)
  then (true, chr (ord c + 32))
  else (false, c).

Definition lower (s : str) : str := map (fun c => snd (lower_char c)) s.

(** The characters [\w] matches in a [str] pattern: [str.isalnum] or an
    underscore. *)
Definition isalnum (c : ascii) : bool :=
  in_range 48 57 c || in_range 65 90 c || in_range 97 122 c
  || (ord c =? 170)%nat || in_range 178 179 c || (ord c =? 181)%nat
  || in_range 185 186 c || in_range 188 190 c
  || in_range 192 214 c || in_range 216 246 c || in_range 248 255 c.

Definition is_word (c : ascii) : bool := isalnum c || Ascii.eqb c "_".

Fixpoint dropwhile (p : ascii -> bool) (s : str) : str :=
  match s with
  | [] => []
  | c :: r => if p c then dropwhile p r else s
  end.

Definition lstrip (s : str) : str := dropwhile isspace s.
Definition rstrip (s : str) : str := rev (dropwhile isspace (rev s)).

(** [s.strip()] *)
Definition strip (s : str) : str := rstrip (lstrip s).

(** [c in s] for a one-character [c] *)
Definition contains (c : ascii) (s : str) : bool :=
  existsb (Ascii.eqb c) s.

(** [s.split(sep)] for a one-character separator: always at least one
    piece, empty pieces kept. *)
Fixpoint split (sep : ascii) (s : str) : list str :=
  match s with
  | [] => [[]]
  | c :: r =>
      if Ascii.eqb c sep then [] :: split sep r
      else match split sep r with
           | p :: ps => (c :: p) :: ps
           | [] => [[c]]
           end
  end.

Fixpoint starts_with (p s : str) : bool :=
  match p, s with
  | [], _ => true
  | _ :: _, [] => false
  | a :: p', b :: s' => Ascii.eqb a b && starts_with p' s'
  end.

(** [s.replace(old, new)] for a non-empty [old]: non-overlapping
    occurrences, leftmost first.  [skip] counts the characters of the
    occurrence being replaced that are still to be passed over. *)
Fixpoint replace_from (old new : str) (skip : nat) (s : str) : str :=
  match s with
  | [] => []
  | c :: r =>
      match skip with
      | S k => replace_from old new k r
      | O =>
          if starts_with old s
          then new ++ replace_from old new (Nat.pred (List.length old)) r
          else c :: replace_from old new O r
      end
  end.

(** With an empty [old], Python puts [new] before every character and at
    the end. *)
Definition replace (old new s : str) : str :=
  match old with
  | [] => new ++ flat_map (fun c => c :: new) s
  | _ :: _ => replace_from old new O s
  end.

(** *** [int(s)] and [str(n)] *)

Definition digit_value (c : ascii) : option Z :=
  if in_range 48 57 c then Some (Z.of_nat (ord c - 48)) else None.

(** Digits with single underscores between them. [prev] tells whether the
    previous character was a digit. *)
Fixpoint int_digits (acc : Z) (prev : bool) (s : str) : option Z :=
  match s with
  | [] => if prev then Some acc else None
  | c :: r =>
      match digit_value c with
      | Some d => int_digits (10 * acc + d) true r
      | None =>
          if Ascii.eqb c "_" && prev then int_digits acc false r else None
      end
  end.

(** The whitespace [int] passes over at both ends; unlike [str.strip] it
    does not take the separators FS..US for whitespace. *)
Definition int_space (c : ascii) : bool :=
  in_range 9 13 c || (ord c =? 32)%nat
  || (ord c =? 133)%nat || (ord c =? 160)%nat.

(** [sys.get_int_max_str_digits()]: the most digits an integer may have
    when it is read from or written to a decimal string (CPython 3.11 and
    the security releases of 3.7 to 3.10); the script leaves it at its
    default. *)
Definition int_max_str_digits : Z := 4300.

(** The number of digits in [s], leading zeros included, underscores
    not. *)
Definition count_digits (s : str) : Z :=
  Z.of_nat (List.length (filter (in_range 48 57) s)).

(** [int(s)], base 10: surrounding whitespace, an optional sign, digits,
    no more of them than the limit allows. Every failure is a
    [ValueError]. *)
Definition int (s : str) : result Z :=
  let t := rev (dropwhile int_space (rev (dropwhile int_space s))) in
  let '(sign, body) :=
    match t with
    | c :: r =>
        if Ascii.eqb c "-" then (-1, r)
        else if Ascii.eqb c "+" then (1, r)
        else (1, t)
    | [] => (1, t)
    end in
  match int_digits 0 false body with
  | Some n =>
      if int_max_str_digits <? count_digits body then Raise ValueError
      else Ok (sign * n)
  | None => Raise ValueError
  end.

(** [str(n)], also what an f-string writes for an [int], for an integer
    of no more digits than the limit allows. Beyond it [str] raises
    [ValueError]; it is applied to slide indices only, which stay
    within the limit. *)
Definition str_of_int (n : Z) : str :=
  lit (NilZero.string_of_int (Z.to_int n)).

(** [range(a, b)] as the list it iterates over. *)
Definition range (a b : Z) : list Z :=
  map (fun i => a + Z.of_nat i) (seq 0 (Z.to_nat (b - a))).

(** [sorted] on integers. Any sorting algorithm returns the same list on
    integers; insertion is the one written here. *)
Fixpoint insert_sorted (x : Z) (l : list Z) : list Z :=
  match l with
  | [] => [x]
  | y :: r => if x <=? y then x :: l else y :: insert_sorted x r
  end.

Fixpoint sorted (l : list Z) : list Z :=
  match l with
  | [] => []
  | x :: r => insert_sorted x (sorted r)
  end.

(** ** Slide selector (lines 65-76) *)

(** The body of [for i in slides], with [slide_list] as the accumulator. *)
Definition select_token (acc : list Z) (i : str) : result (list Z) :=
  if contains "-" i then
    match split "-" i with
    | [a; b] =>
        start <- int a ;;
        stop <- int b ;;
        Ok (acc ++ range start (stop + 1))
    | _ => Raise ValueError
    end
  else
    n <- int i ;;
    Ok (acc ++ [n]).

Fixpoint select_tokens (acc : list Z) (slides : list str) : result (list Z) :=
  match slides with
  | [] => Ok acc
  | i :: rest =>
      acc' <- select_token acc i ;;
      select_tokens acc' rest
  end.

(** [slides] is [args.slides], [count] is [presentation.Slides.Count]. *)
Definition slide_list (slides : option str) (count : Z) : result (list Z) :=
  match slides with
  | None => Ok (range 1 (count + 1))
  | Some s =>
      let tokens := map strip (split "," s) in
      l <- select_tokens [] tokens ;;
      Ok (sorted l)
  end.

(** What the selector is to return, in the words of its description:
    [part] holds the integers from [start] to [stop], both included, in
    ascending order. *)
Definition inclusive (start stop : Z) (part : list Z) : Prop :=
  StronglySorted Z.lt part /\ forall k, In k part <-> start <= k <= stop.

(** The indices one token of the selection string stands for. *)
Inductive token_selects (i : str) (part : list Z) : Prop :=
| select_range a b start stop :
    contains "-" i = true ->
    split "-" i = [a; b] ->
    int a = Ok start -> int b = Ok stop ->
    inclusive start stop part ->
    token_selects i part
| select_single n :
    contains "-" i = false ->
    int i = Ok n ->
    part = [n] ->
    token_selects i part.

(** A token "start-end" with start > end. *)
Definition inverted (i : str) : Prop :=
  exists a b start stop,
    contains "-" i = true /\ split "-" i = [a; b] /\
    int a = Ok start /\ int b = Ok stop /\ stop < start.

(** ** Pronunciation mapping (lines 34-39) *)

Fixpoint str_eqb (a b : str) : bool :=
  match a, b with
  | [], [] => true
  | x :: a', y :: b' => Ascii.eqb x y && str_eqb a' b'
  | _, _ => false
  end.

(** A Python [dict] with [str] keys: the entries in insertion order.
    Assigning to a key that is present keeps its place. *)
Definition dict : Type := list (str * str).

Fixpoint dict_set (k v : str) (d : dict) : dict :=
  match d with
  | [] => [(k, v)]
  | (k', v') :: r =>
      if str_eqb k k' then (k, v) :: r else (k', v') :: dict_set k v r
  end.

Definition LF : ascii := chr 10.
Definition CR : ascii := chr 13.

(** Text mode with universal newlines: CR LF and a lone CR are read as
    LF. *)
Fixpoint universal_newlines (s : str) : str :=
  match s with
  | [] => []
  | c :: r =>
      if Ascii.eqb c CR then
        LF :: match r with
              | d :: r' =>
                  if Ascii.eqb d LF then universal_newlines r'
                  else universal_newlines r
              | [] => []
              end
      else c :: universal_newlines r
  end.

(** The lines [for line in f] yields: each keeps its final LF. *)
Fixpoint lines_of (s : str) : list str :=
  match s with
  | [] => []
  | c :: r =>
      if Ascii.eqb c LF then [LF] :: lines_of r
      else match lines_of r with
           | l :: ls => (c :: l) :: ls
           | [] => [[c]]
           end
  end.

Definition file_lines (text : str) : list str :=
  lines_of (universal_newlines text).

(** The body of [for line in f], with the dictionary as accumulator. *)
Definition load_line (d : dict) (line : str) : result dict :=
  match split "=" (strip line) with
  | [word; pronunciation] =>
      Ok (dict_set (strip (lower word)) (strip (lower pronunciation)) d)
  | _ => Raise ValueError
  end.

Fixpoint load_lines (d : dict) (ls : list str) : result dict :=
  match ls with
  | [] => Ok d
  | line :: rest =>
      d' <- load_line d line ;;
      load_lines d' rest
  end.

(** [text] is the decoded content of the mapping file. *)
Definition load_mapping (text : str) : result dict :=
  load_lines [] (file_lines text).

(** ** Notes text (lines 93-99) *)

(** [not slide_text or len(slide_text.strip()) == 0] *)
Definition no_note_text (slide_text : str) : bool :=
  match slide_text with
  | [] => true
  | _ :: _ => (List.length (strip slide_text) =? 0)%nat
  end.

(** [slide_text.replace('\n', ' ').replace('\r', ' ').strip()] *)
Definition normalize_notes (slide_text : str) : str :=
  strip (replace [CR] [" "%char] (replace [LF] [" "%char] slide_text)).

(** ** Pronunciation substitution (lines 102-103) *)

(** What [rf'\b{re.escape(word)}\b'] compiles to: [re.escape] makes every
    character of [word] a literal. *)
Inductive re_item : Type :=
| WordBoundary
| Literal (c : ascii).

Definition word_pattern (word : str) : list re_item :=
  WordBoundary :: map Literal word ++ [WordBoundary].

Definition word_char (c : option ascii) : bool :=
  match c with
  | Some x => is_word x
  | None => false
  end.

(** [\b]: exactly one of the two neighbours is a word character; the ends
    of the text count as non-word. *)
Definition at_boundary (prev next : option ascii) : bool :=
  xorb (word_char prev) (word_char next).

(** A literal under [re.IGNORECASE]. *)
Definition same_letter (a b : ascii) : bool :=
  Ascii.eqb (snd (lower_char a)) (snd (lower_char b)).

(** Match the items at the start of [s]; [prev] is the character before
    [s] in the text. Returns the matched text. *)
Fixpoint match_here (p : list re_item) (prev : option ascii) (s : str)
  : option str :=
  match p with
  | [] => Some []
  | WordBoundary :: p' =>
      if at_boundary prev (hd_error s) then match_here p' prev s else None
  | Literal c :: p' =>
      match s with
      | [] => None
      | x :: r =>
          if same_letter c x
          then option_map (cons x) (match_here p' (Some x) r)
          else None
      end
  end.

(** A replacement template: literal characters and references to the
    whole match. *)
Inductive template_item : Type :=
| TChar (c : ascii)
| TMatch.

Definition octal (c : ascii) : bool := in_range 48 55 c.
Definition decimal (c : ascii) : bool := in_range 48 57 c.
Definition ascii_letter (c : ascii) : bool :=
  in_range 65 90 c || in_range 97 122 c.
Definition octal_value (c : ascii) : nat := (ord c - 48)%nat.

Fixpoint takewhile (p : ascii -> bool) (s : str) : str :=
  match s with
  | [] => []
  | c :: r => if p c then c :: takewhile p r else []
  end.

(** The characters [\a \b \f \n \r \t \v \\] stand for. *)
Definition simple_escape (c : ascii) : option ascii :=
  if Ascii.eqb c "a" then Some (chr 7)
  else if Ascii.eqb c "b" then Some (chr 8)
  else if Ascii.eqb c "f" then Some (chr 12)
  else if Ascii.eqb c "n" then Some (chr 10)
  else if Ascii.eqb c "r" then Some (chr 13)
  else if Ascii.eqb c "t" then Some (chr 9)
  else if Ascii.eqb c "v" then Some (chr 11)
  else if Ascii.eqb c "\" then Some "\"%char
  else None.

(** The replacement template of [re.sub] for a pattern without groups
    (CPython 3.12, [re._parser.parse_template]; earlier versions accept
    a few more spellings of group 0); [ReError] stands for [re.error] and
    for the [IndexError] of an unknown group name. *)
Fixpoint parse_template_fuel (fuel : nat) (s : str)
  : result (list template_item) :=
  match fuel with
  | O => Ok []
  | S fuel' =>
      match s with
      | [] => Ok []
      | c :: r =>
          if negb (Ascii.eqb c "\") then
            t <- parse_template_fuel fuel' r ;; Ok (TChar c :: t)
          else
            match r with
            | [] => Raise ReError
            | e :: r1 =>
                if Ascii.eqb e "g" then
                  match r1 with
                  | lt :: r2 =>
                      let name := takewhile (fun x => negb (Ascii.eqb x ">")) r2 in
                      if negb (Ascii.eqb lt "<") then Raise ReError
                      else
                        match skipn (List.length name) r2, name with
                        | _ :: rest, _ :: _ =>
                            if forallb decimal name
                               && forallb (Ascii.eqb "0") name
                            then t <- parse_template_fuel fuel' rest ;;
                                 Ok (TMatch :: t)
                            else Raise ReError
                        | _, _ => Raise ReError
                        end
                  | [] => Raise ReError
                  end
                else if Ascii.eqb e "0" then
                  match r1 with
                  | d1 :: r2 =>
                      if octal d1 then
                        match r2 with
                        | d2 :: r3 =>
                            if octal d2 then
                              t <- parse_template_fuel fuel' r3 ;;
                              Ok (TChar (chr (8 * octal_value d1
                                              + octal_value d2)) :: t)
                            else
                              t <- parse_template_fuel fuel' r2 ;;
                              Ok (TChar (chr (octal_value d1)) :: t)
                        | [] => Ok [TChar (chr (octal_value d1))]
                        end
                      else
                        t <- parse_template_fuel fuel' r1 ;;
                        Ok (TChar (chr 0) :: t)
                  | [] => Ok [TChar (chr 0)]
                  end
                else if decimal e then
                  match r1 with
                  | d1 :: d2 :: r3 =>
                      if octal e && octal d1 && octal d2 then
                        let v := (64 * octal_value e + 8 * octal_value d1
                                  + octal_value d2)%nat in
                        if (255 <? v)%nat then Raise ReError
                        else t <- parse_template_fuel fuel' r3 ;;
                             Ok (TChar (chr v) :: t)
                      else Raise ReError
                  | _ => Raise ReError
                  end
                else
                  match simple_escape e with
                  | Some x =>
                      t <- parse_template_fuel fuel' r1 ;; Ok (TChar x :: t)
                  | None =>
                      if ascii_letter e then Raise ReError
                      else t <- parse_template_fuel fuel' r1 ;;
                           Ok (TChar c :: TChar e :: t)
                  end
            end
      end
  end.

Definition parse_template (s : str) : result (list template_item) :=
  parse_template_fuel (S (List.length s)) s.

Definition expand (t : list template_item) (m : str) : str :=
  flat_map (fun i => match i with TChar c => [c] | TMatch => m end) t.

(** The scan of [re.sub]: leftmost matches, not overlapping; an empty
    match is replaced once and the scan moves one character on.  [skip]
    counts the characters of the current match still to be passed over. *)
Fixpoint sub_from (p : list re_item) (t : list template_item)
  (prev : option ascii) (skip : nat) (s : str) : str :=
  match s with
  | [] =>
      match skip, match_here p prev [] with
      | O, Some m => expand t m
      | _, _ => []
      end
  | c :: r =>
      match skip with
      | S k => sub_from p t (Some c) k r
      | O =>
          match match_here p prev s with
          | Some [] => expand t [] ++ c :: sub_from p t (Some c) O r
          | Some ((_ :: m') as m) =>
              expand t m ++ sub_from p t (Some c) (List.length m') r
          | None => c :: sub_from p t (Some c) O r
          end
      end
  end.

(** [re.sub(pattern, repl, text, flags=re.IGNORECASE)] *)
Definition re_sub (p : list re_item) (repl text : str) : result str :=
  t <- parse_template repl ;;
  Ok (sub_from p t None O text).

(** [for word, pronunciation in pronunciation_mapping.items(): ...] *)
Fixpoint apply_mapping (d : dict) (slide_text : str) : result str :=
  match d with
  | [] => Ok slide_text
  | (word, pronunciation) :: rest =>
      slide_text' <- re_sub (word_pattern word) pronunciation slide_text ;;
      apply_mapping rest slide_text'
  end.


(** ** Paths (lines 49-55, 109, 115, 140, 144) *)

Definition is_sep (c : ascii) : bool := Ascii.eqb c "\" || Ascii.eqb c "/".

(** A drive letter with its colon and nothing else. *)
Definition bare_drive (d : str) : bool :=
  match d with
  | [_; c] => Ascii.eqb c ":"
  | _ => false
  end.

(** [os.path.join(d, p)] of Windows for a relative [p] without a drive:
    a backslash is put in between unless [d] is empty, a bare drive, or
    ends in a separator. (Device paths are left aside.) *)
Definition join (d p : str) : str :=
  match d with
  | [] => p
  | c :: r =>
      if bare_drive d || is_sep (last r c) then d ++ p
      else d ++ "\"%char :: p
  end.

(** [os.path.splitext(p)]: the extension starts at the last dot of the
    last path component, leading dots of the component apart. *)
Definition splitext (p : str) : str * str :=
  let r := rev p in
  let ext_r := takewhile (fun c => negb (Ascii.eqb c "." || is_sep c)) r in
  match skipn (List.length ext_r) r with
  | c :: before_r =>
      if Ascii.eqb c "." then
        let stem_r := takewhile (fun x => negb (is_sep x)) before_r in
        if existsb (fun x => negb (Ascii.eqb x ".")) stem_r
        then (rev before_r, c :: rev ext_r)
        else (p, [])
      else (p, [])
  | [] => (p, [])
  end.

(** [os.path.splitext(args.output)[1][1:]] *)
Definition container_format (output : str) : str := tl (snd (splitext output)).

Definition slide_folder (temp_dir : str) : str := join temp_dir (lit "slides").
Definition audio_folder (temp_dir : str) : str := join temp_dir (lit "audio").
Definition video_folder (temp_dir : str) : str := join temp_dir (lit "video").
Definition silence_file (temp_dir : str) : str := join temp_dir (lit "silence.wav").
Definition concat_file (temp_dir : str) : str := join temp_dir (lit "concat.txt").

Definition slide_image_file (temp_dir : str) (n : Z) : str :=
  join (slide_folder temp_dir) (lit "slide_" ++ str_of_int n ++ lit ".png").

Definition audio_file (temp_dir : str) (n : Z) : str :=
  join (audio_folder temp_dir) (lit "audio_" ++ str_of_int n ++ lit ".wav").

(** [audio_file.replace('.wav', '.m4a')]: every occurrence in the path. *)
Definition audio_file_padded (temp_dir : str) (n : Z) : str :=
  replace (lit ".wav") (lit ".m4a") (audio_file temp_dir n).

Definition video_file (temp_dir fmt : str) (n : Z) : str :=
  join (video_folder temp_dir)
       (lit "video_" ++ str_of_int n ++ lit "." ++ fmt).

(** The files of slide [n] in the working directory. *)
Definition artifact_paths (temp_dir fmt : str) (n : Z) : list str :=
  [slide_image_file temp_dir n; audio_file temp_dir n;
   audio_file_padded temp_dir n; video_file temp_dir fmt n].

(** ** The file system *)

Definition data : Type := str.

Inductive node : Type :=
| Directory
| File (content : data).

(** File names are compared as strings. *)
Definition filesystem : Type := str -> option node.

Definition fs_put (p : str) (x : node) (fs : filesystem) : filesystem :=
  fun q => if str_eqb q p then Some x else fs q.

Definition fs_remove (p : str) (fs : filesystem) : filesystem :=
  fun q => if str_eqb q p then None else fs q.

(** What an external program left at its output path: [None] when it
    wrote nothing. *)
Definition fs_output (p : str) (out : option data) (fs : filesystem)
  : filesystem :=
  match out with
  | Some d => fs_put p (File d) fs
  | None => fs
  end.

(** ** Command line and external collaborators *)

Inductive api_kind : Type := SAPI | Azure.

(** The namespace [parser.parse_args()] returns, after the [type=]
    conversions. The silence duration is a float that only reaches the
    encoder's command line; it is left out. *)
Record arguments : Type := {
  pptfile : str;
  output : str;
  slides : option str;
  voice : str;
  pronunciation_mapping : option str;
  video_width : Z;
  video_height : Z;
  api : api_kind;
  update : option str;
  quit_ppt : bool
}.

(** The attributes of the namespace: one per [add_argument], named after
    the option. *)
Definition namespace_attributes : list str :=
  [lit "pptfile"; lit "output"; lit "slides"; lit "silence"; lit "voice";
   lit "pronunciation_mapping"; lit "video_width"; lit "video_height";
   lit "api"; lit "update"; lit "quit_ppt"].

Definition has_attribute (name : str) : bool :=
  existsb (str_eqb name) namespace_attributes.

(** [args.quitppt] (line 154) *)
Definition args_quitppt (a : arguments) : result bool :=
  if has_attribute (lit "quitppt") then Ok (quit_ppt a)
  else Raise AttributeError.

Inductive cancellation_reason : Type :=
| CancelError
| CancelEndOfStream
| CancelledByUser.

(** [speech_synthesis_result.reason], with the cancellation details. *)
Inductive synthesis_result : Type :=
| SynthesizingAudioCompleted
| Canceled (reason : cancellation_reason) (error_details : str)
| OtherReason.

Inductive ffmpeg_job : Type :=
| GenerateSilence
| PadAudio
| SlideClip
| Concatenate.

(** The collaborators. A call that targets a file also tells what it left
    there ([None]: nothing written); [k] is the position of the slide in
    the loop. *)
Record world : Type := {
  read_text : str -> option str;
  speech_config : result unit;
  mkdtemp : str;
  open_presentation : result unit;
  slides_count : Z;
  notes_text : Z -> option str;
  export_slide : Z -> Z -> Z -> result unit * option data;
  speak_azure : nat -> Z -> str -> synthesis_result * option data;
  speak_sapi : nat -> Z -> Z -> str -> result unit * option data;
  ffmpeg : ffmpeg_job -> str -> filesystem -> option data
}.

Inductive message : Type :=
| MsgGeneratingSilence
| MsgProcessing (n : Z)
| MsgSkipping (n : Z)
| MsgExporting (n : Z)
| MsgSynthesizing (n : Z)
| MsgCanceled (reason : cancellation_reason)
| MsgErrorDetails (details : str)   (* ends with the key and region hint *)
| MsgCreatingVideo (n : Z)
| MsgNoVideos (updated : bool)
| MsgConcatenating
| MsgTotalChars (n : Z)
| MsgTempKept (temp_dir : str)
| MsgDone.

(** ** The per-slide loop (lines 84-148) *)

Record state : Type := {
  files : filesystem;
  printed : list message;
  slide_videos : list str;
  total_chars : Z
}.

Definition say (m : message) (st : state) : state :=
  {| files := files st; printed := printed st ++ [m];
     slide_videos := slide_videos st; total_chars := total_chars st |}.

Definition with_files (fs : filesystem) (st : state) : state :=
  {| files := fs; printed := printed st;
     slide_videos := slide_videos st; total_chars := total_chars st |}.

Definition add_chars (n : Z) (st : state) : state :=
  {| files := files st; printed := printed st;
     slide_videos := slide_videos st; total_chars := total_chars st + n |}.

Definition append_video (v : str) (st : state) : state :=
  {| files := files st; printed := printed st;
     slide_videos := slide_videos st ++ [v]; total_chars := total_chars st |}.

Definition leave (p : str) (out : option data) (st : state) : state :=
  with_files (fs_output p out (files st)) st.

(** How one pass through the loop body ends. *)
Inductive flow : Type :=
| Continue (st : state)
| Break (st : state)
| Raised (e : exn) (st : state).

Section Pipeline.

Variable a : arguments.
Variable w : world.
Variable mapping : dict.
Variable temp_dir : str.
Variable fmt : str.

(** Lines 139-148. *)
Definition encode_clip (n : Z) (st : state) : flow :=
  let padded := audio_file_padded temp_dir n in
  let st := leave padded (ffmpeg w PadAudio padded (files st)) st in
  let video := video_file temp_dir fmt n in
  let st := append_video video st in
  let st := say (MsgCreatingVideo n) st in
  Continue (leave video (ffmpeg w SlideClip video (files st)) st).

(** Lines 115-137. *)
Definition synthesize (k : nat) (n : Z) (slide_text : str) (st : state)
  : flow :=
  let audio := audio_file temp_dir n in
  let st := say (MsgSynthesizing n) st in
  match api a with
  | Azure =>
      let '(reason, out) := speak_azure w k n slide_text in
      let st := leave audio out st in
      match reason with
      | SynthesizingAudioCompleted => encode_clip n st
      | Canceled why details =>
          let st := say (MsgCanceled why) st in
          let st :=
            match why, details with
            | CancelError, _ :: _ => say (MsgErrorDetails details) st
            | _, _ => st
            end in
          Break st
      | OtherReason => encode_clip n st
      end
  | SAPI =>
      match int (voice a) with
      | Raise e => Raised e st
      | Ok v =>
          let '(r, out) := speak_sapi w k n v slide_text in
          let st := leave audio out st in
          match r with
          | Raise e => Raised e st
          | Ok _ => encode_clip n st
          end
      end
  end.

(** Lines 107-112. *)
Definition export_image (n : Z) (st : state) : flow :=
  let st := say (MsgExporting n) st in
  let image := slide_image_file temp_dir n in
  match files st image with
  | Some Directory => Raised OSError st
  | found =>
      let st :=
        match found with
        | Some _ => with_files (fs_remove image (files st)) st
        | None => st
        end in
      let '(r, out) := export_slide w n (video_width a) (video_height a) in
      let st := leave image out st in
      match r with
      | Ok _ => Continue st
      | Raise e => Raised e st
      end
  end.

(** The body of [for slide_number in slide_list]. *)
Definition process_slide (k : nat) (n : Z) (st : state) : flow :=
  let st := say (MsgProcessing n) st in
  match notes_text w n with
  | None => Raised ComError st
  | Some slide_text =>
      if no_note_text slide_text then Continue (say (MsgSkipping n) st)
      else
        match apply_mapping mapping (normalize_notes slide_text) with
        | Raise e => Raised e st
        | Ok slide_text =>
            let st := add_chars (Z.of_nat (List.length slide_text)) st in
            match export_image n st with
            | Continue st => synthesize k n slide_text st
            | stopped => stopped
            end
        end
  end.

(** [Continue]: the loop ran to its end; [Break]: it was left early. *)
Fixpoint for_slides (k : nat) (l : list Z) (st : state) : flow :=
  match l with
  | [] => Continue st
  | n :: rest =>
      match process_slide k n st with
      | Continue st' => for_slides (S k) rest st'
      | stopped => stopped
      end
  end.

End Pipeline.

(** ** The script *)

Inductive outcome : Type :=
| Exit (status : Z)
| Uncaught (e : exn).

Definition initial (fs : filesystem) : state :=
  {| files := fs; printed := []; slide_videos := []; total_chars := 0 |}.

(** Lines 34-39. *)
Definition load_pronunciation_mapping (a : arguments) (w : world)
  : result dict :=
  match pronunciation_mapping a with
  | None => Ok []
  | Some path =>
      match read_text w path with
      | None => Raise OSError
      | Some text => load_mapping text
      end
  end.

(** [os.mkdir] *)
Definition mkdir (p : str) (st : state) : result unit * state :=
  match files st p with
  | Some _ => (Raise OSError, st)
  | None => (Ok tt, with_files (fs_put p Directory (files st)) st)
  end.

(** [for dir in ...: os.mkdir(dir)] *)
Fixpoint mkdirs (dirs : list str) (st : state) : result unit * state :=
  match dirs with
  | [] => (Ok tt, st)
  | p :: rest =>
      match mkdir p st with
      | (Ok _, st') => mkdirs rest st'
      | failed => failed
      end
  end.

(** Lines 52-58; [mkdtemp] creates the directory it names. *)
Definition create_temp_directories (a : arguments) (w : world) (st : state)
  : result str * state :=
  match update a with
  | Some d => (Ok d, st)
  | None =>
      let d := mkdtemp w in
      let st := with_files (fs_put d Directory (files st)) st in
      match mkdirs [slide_folder d; audio_folder d; video_folder d] st with
      | (Ok _, st') => (Ok d, st')
      | (Raise e, st') => (Raise e, st')
      end
  end.

(** [f"file '{slide_video}'\n"] for every clip, as the text layer of
    Windows writes it. *)
Definition manifest (videos : list str) : data :=
  flat_map (fun v => lit "file '" ++ v ++ lit "'" ++ [CR; LF]) videos.

(** Lines 150-174. *)
Definition finish (a : arguments) (w : world) (temp_dir : str) (st : state)
  : outcome * state :=
  match args_quitppt a with
  | Raise e => (Uncaught e, st)
  | Ok _ =>
      match slide_videos st with
      | [] =>
          (Exit 0,
           say (MsgNoVideos (match update a with Some _ => true | None => false end)) st)
      | _ :: _ =>
          let st :=
            match update a with
            | Some _ => st
            | None => leave (concat_file temp_dir)
                            (Some (manifest (slide_videos st))) st
            end in
          let st := say MsgConcatenating st in
          let st := leave (output a)
                          (ffmpeg w Concatenate (output a) (files st)) st in
          let st := say (MsgTotalChars (total_chars st)) st in
          let st := say (MsgTempKept temp_dir) st in
          (Exit 0, say MsgDone st)
      end
  end.

(** Lines 157-174 by themselves: what [finish] goes on with once
    [args.quitppt] has been read. *)
Definition final_assembly (a : arguments) (w : world) (temp_dir : str)
  (st : state) : outcome * state :=
  match slide_videos st with
  | [] =>
      (Exit 0,
       say (MsgNoVideos (match update a with Some _ => true | None => false end)) st)
  | _ :: _ =>
      let st :=
        match update a with
        | Some _ => st
        | None => leave (concat_file temp_dir)
                        (Some (manifest (slide_videos st))) st
        end in
      let st := say MsgConcatenating st in
      let st := leave (output a)
                      (ffmpeg w Concatenate (output a) (files st)) st in
      let st := say (MsgTotalChars (total_chars st)) st in
      let st := say (MsgTempKept temp_dir) st in
      (Exit 0, say MsgDone st)
  end.

(** The state the per-slide loop starts from, with the mapping, the
    working directory and the slide list. *)
Definition prepare (a : arguments) (w : world) (fs : filesystem)
  : result (dict * str * list Z * state) * state :=
  let st := initial fs in
  match load_pronunciation_mapping a w with
  | Raise e => (Raise e, st)
  | Ok mapping =>
      match (match api a with Azure => speech_config w | SAPI => Ok tt end) with
      | Raise e => (Raise e, st)
      | Ok _ =>
          match create_temp_directories a w st with
          | (Raise e, st) => (Raise e, st)
          | (Ok temp_dir, st) =>
              match open_presentation w with
              | Raise e => (Raise e, st)
              | Ok _ =>
                  match slide_list (slides a) (slides_count w) with
                  | Raise e => (Raise e, st)
                  | Ok l =>
                      let st := say MsgGeneratingSilence st in
                      let silence := silence_file temp_dir in
                      let st := leave silence
                                  (ffmpeg w GenerateSilence silence (files st))
                                  st in
                      (Ok (mapping, temp_dir, l, st), st)
                  end
              end
          end
      end
  end.

Definition main (a : arguments) (w : world) (fs : filesystem)
  : outcome * state :=
  match prepare a w fs with
  | (Raise e, st) => (Uncaught e, st)
  | (Ok (mapping, temp_dir, l, st), _) =>
      match for_slides a w mapping temp_dir (container_format (output a))
                       O l st with
      | Raised e st => (Uncaught e, st)
      | Continue st | Break st => finish a w temp_dir st
      end
  end.

(** ** Sample inputs *)

Definition no_files : filesystem := fun _ => None.

(** A command line with the defaults of the parser. *)
Definition sample_arguments (selection : option str) (engine : api_kind)
  (previous : option str) : arguments :=
  {| pptfile := lit "C:\talks\talk.pptx";
     output := lit "talk.mp4";
     slides := selection;
     voice := lit "en-GB-SoniaNeural";
     pronunciation_mapping := None;
     video_width := 1920;
     video_height := 1080;
     api := engine;
     update := previous;
     quit_ppt := false |}.

(** A presentation whose slides carry the given notes; every external
    call succeeds, except that the synthesis at loop position
    [cancelled] (if any) is cancelled with the given details. *)
Definition sample_world (notes : list str) (cancelled : option nat)
  (details : str) : world :=
  {| read_text := fun _ => None;
     speech_config := Ok tt;
     mkdtemp := lit "C:\tmp\tmp1";
     open_presentation := Ok tt;
     slides_count := Z.of_nat (List.length notes);
     notes_text := fun n =>
       if 1 <=? n then nth_error notes (Z.to_nat (n - 1)) else None;
     export_slide := fun _ _ _ => (Ok tt, Some (lit "PNG"));
     speak_azure := fun k _ _ =>
       match cancelled with
       | Some c =>
           if (k =? c)%nat then (Canceled CancelError details, None)
           else (SynthesizingAudioCompleted, Some (lit "RIFF"))
       | None => (SynthesizingAudioCompleted, Some (lit "RIFF"))
       end;
     speak_sapi := fun _ _ _ _ => (Ok tt, Some (lit "RIFF"));
     ffmpeg := fun _ _ _ => Some (lit "ftyp") |}.

(** ** Descriptions the properties are stated with *)

(** A newline or a carriage return becomes a space. *)
Definition newline_to_space (c : ascii) : ascii :=
  if Ascii.eqb c LF || Ascii.eqb c CR then " "%char else c.

(** The notes of slide [n] are empty or whitespace only. *)
Definition blank_notes (w : world) (n : Z) : bool :=
  match notes_text w n with
  | Some t => forallb isspace t
  | None => false
  end.

(** The length of the text of slide [n] after normalisation and
    substitution. *)
Definition spoken_length (w : world) (mapping : dict) (n : Z) : Z :=
  match notes_text w n with
  | Some t =>
      match apply_mapping mapping (normalize_notes t) with
      | Ok text => Z.of_nat (List.length text)
      | Raise _ => 0
      end
  | None => 0
  end.

Definition sum (l : list Z) : Z := fold_right Z.add 0 l.

(** What the loop left behind, however it ended. *)
Definition state_of (f : flow) : state :=
  match f with
  | Continue st | Break st | Raised _ st => st
  end.

(** The sum of the text lengths of the slides of [l] that are not
    skipped. *)
Definition counted (w : world) (mapping : dict) (l : list Z) : Z :=
  sum (map (spoken_length w mapping)
           (filter (fun n => negb (blank_notes w n)) l)).


(** How many times [c] occurs in [s]. *)
Definition count_char (c : ascii) (s : str) : nat :=
  List.length (filter (Ascii.eqb c) s).

(** A key or value is lowercased and has no surrounding whitespace. *)
Definition tidy (s : str) : Prop := lower s = s /\ strip s = s.

(** Where an entry of the table comes from. *)
Definition entry_of (line : str) (e : str * str) : Prop :=
  exists word pronunciation,
    split "=" (strip line) = [word; pronunciation]
    /\ e = (strip (lower word), strip (lower pronunciation)).

(** *** Whole-word replacement as the description words it

    The following definitions do not come from the source: they say what
    "replace whole-word case-insensitive occurrences of the source word
    with its mapped pronunciation" means, and the source's [re.sub] is
    compared with them. *)

(** [s] starts with [word], letter case apart. *)
Fixpoint starts_with_ci (word s : str) : bool :=
  match word, s with
  | [], _ => true
  | _ :: _, [] => false
  | x :: word', y :: s' => same_letter x y && starts_with_ci word' s'
  end.

(** [word] occurs at the start of [s], no word character before it
    ([prev] is the character before [s]) and none after it. *)
Definition whole_word_at (word : str) (prev : option ascii) (s : str) : bool :=
  starts_with_ci word s
  && negb (word_char prev)
  && negb (word_char (nth_error s (List.length word))).

(** Left to right, every whole-word occurrence gives way to [pron]. *)
Fixpoint spec_replace_from (word pron : str) (prev : option ascii)
  (skip : nat) (s : str) : str :=
  match s with
  | [] => []
  | c :: r =>
      match skip with
      | S k => spec_replace_from word pron (Some c) k r
      | O =>
          if whole_word_at word prev s
          then pron ++ spec_replace_from word pron (Some c)
                         (Nat.pred (List.length word)) r
          else c :: spec_replace_from word pron (Some c) O r
      end
  end.

Definition spec_replace_whole_words (word pron text : str) : str :=
  spec_replace_from word pron None O text.

(** The entries in mapping order, each on the text the earlier ones
    left. *)
Definition spec_substitute (d : dict) (text : str) : str :=
  fold_left (fun t e => spec_replace_whole_words (fst e) (snd e) t) d text.

(** A mapping entry whose word begins and ends with a word character
    and whose pronunciation has no backslash. *)
Definition plain_entry (e : str * str) : bool :=
  match fst e with
  | [] => false
  | x :: r => is_word x && is_word (last r x)
  end
  && forallb (fun c => negb (Ascii.eqb c "\")) (snd e).

(** The character before the position [n] characters into [s]. *)
Definition before (n : nat) (prev : option ascii) (s : str) : option ascii :=
  match n with
  | O => prev
  | S k => nth_error s k
  end.

(** What [os.path.join] puts in front of a relative name. *)
Definition dir_prefix (d : str) : str :=
  match d with
  | [] => []
  | c :: r =>
      if bare_drive d || is_sep (last r c) then d else d ++ ["\"%char]
  end.

(** The paths a run in directory [temp_dir] may write when it processes
    the slides of [l]: the silence file and the files of those slides. *)
Definition touched (temp_dir fmt : str) (l : list Z) (p : str) : Prop :=
  p = silence_file temp_dir
  \/ exists n, In n l /\ In p (artifact_paths temp_dir fmt n).

(** [fs'] differs from [fs] at paths of [S] only. *)
Definition changes_only (S : str -> Prop) (fs fs' : filesystem) : Prop :=
  forall p, ~ S p -> fs' p = fs p.

(** The slides a run selects; none when the selection does not parse. *)
Definition selected (a : arguments) (w : world) : list Z :=
  match slide_list (slides a) (slides_count w) with
  | Ok l => l
  | Raise _ => []
  end.

(** A working directory left by an earlier run over five slides: every
    clip of it holds the text "old". *)
Definition earlier_run (p : str) : option node :=
  if existsb (fun n => str_eqb p (video_file (lit "C:\tmp\old") (lit "mp4") n))
             [1; 2; 3; 4; 5]
  then Some (File (lit "old"))
  else None.

(** A character of a number: a digit or the sign. *)
Definition numeric (c : ascii) : bool := decimal c || Ascii.eqb c "-".

Definition wav : str := lit ".wav".
Definition m4a : str := lit ".m4a".

(** A character that is none of 'w', 'a', 'v'. *)
Definition off_wav (c : ascii) : bool :=
  negb (Ascii.eqb c "w" || Ascii.eqb c "a" || Ascii.eqb c "v").

(** The directory part of the padded audio files, after the
    replacement. *)
Definition padded_folder (d : str) : str :=
  replace_from wav m4a O (dir_prefix d ++ lit "audio").

(** The files of slide [n]. *)
Definition of_slide (temp_dir fmt : str) (n : Z) (p : str) : Prop :=
  In p (artifact_paths temp_dir fmt n).

(** A token the selector cannot read as a range: it begins with a dash
    or holds two dashes or more. *)
Definition unreadable_range (i : str) : Prop :=
  hd_error i = Some "-"%char \/ (2 <= count_char "-" i)%nat.

(** [word] stands somewhere in [s] as a whole word, letter case apart;
    [prev] is the character before [s]. *)
Fixpoint whole_word_in (word : str) (prev : option ascii) (s : str) : bool :=
  whole_word_at word prev s
  || match s with
     | [] => false
     | c :: r => whole_word_in word (Some c) r
     end.

(** The slides of [l] that have notes. *)
Definition with_notes (w : world) (l : list Z) : list Z :=
  filter (fun n => negb (blank_notes w n)) l.

(** The working directory with its three folders. *)
Definition directories (temp_dir : str) : list str :=
  [temp_dir; slide_folder temp_dir; audio_folder temp_dir;
   video_folder temp_dir].

(** [p] occurs somewhere in [s]. *)
Fixpoint occurs (p s : str) : bool :=
  starts_with p s
  || match s with
     | [] => false
     | _ :: r => occurs p r
     end.

(** The name in front of the extension is not made of dots only. *)
Definition names_a_file (stem : str) : bool :=
  existsb (fun x => negb (Ascii.eqb x "."))
          (takewhile (fun x => negb (is_sep x)) (rev stem)).

(** A character that is neither a dot nor a path separator. *)
Definition in_extension (c : ascii) : bool :=
  negb (Ascii.eqb c "." || is_sep c).

(** The word a well-formed line of the mapping file gives. *)
Definition line_word (line : str) : str :=
  strip (lower (hd [] (split "=" (strip line)))).

(** The elements of a list in the order in which they first appear. *)
Definition first_seen (keys : list str) : list str :=
  fold_left (fun seen k => if existsb (str_eqb k) seen then seen
                           else seen ++ [k]) keys [].


(** The most an integer may be, in absolute value, for [str] to print
    it. *)
Definition printable (n : Z) : Prop := Z.abs n < 10 ^ int_max_str_digits.

(** A working directory as a complete earlier run over five slides left
    it: the directory and its three folders, the silence file, the
    manifest of the five clips, and for every slide its image, its two
    audio files and its clip, each holding the text "old". *)
Definition old_directory : str := lit "C:\tmp\old".

Definition old_manifest : data :=
  manifest (map (video_file old_directory (lit "mp4")) [1; 2; 3; 4; 5]).

Definition previous_run : filesystem :=
  fun p =>
    if existsb (str_eqb p) (directories old_directory) then Some Directory
    else if str_eqb p (silence_file old_directory)
    then Some (File (lit "RIFF"))
    else if str_eqb p (concat_file old_directory)
    then Some (File old_manifest)
    else if existsb
              (fun n =>
                 existsb (str_eqb p)
                         (artifact_paths old_directory (lit "mp4") n))
              [1; 2; 3; 4; 5]
    then Some (File (lit "old"))
    else None.

(** What a line of the mapping file has in front of its '='. *)
Definition written_word (line : str) : str :=
  hd [] (split "=" (strip line)).

(** [x] and [x'] are the same word, letter case and surrounding
    whitespace apart: taking the whitespace [l], [r], [l'], [r'] off
    them leaves [core] and [core'], which agree letter by letter when
    case is ignored. *)
Definition same_word (x x' : str) : Prop :=
  exists l core r l' core' r',
    x = l ++ core ++ r /\ x' = l' ++ core' ++ r'
    /\ forallb isspace (l ++ r ++ l' ++ r') = true
    /\ Forall2 (fun c c' => same_letter c c' = true) core core'.

(** The entries of [d] under one of the keys [keys]. *)
Definition entries_for (keys : list str) (d : dict) : dict :=
  filter (fun e => existsb (str_eqb (fst e)) keys) d.

(** The files the padding call of slide [n] reads (line 141): the
    silence file, before and after the raw audio. *)
Definition pad_inputs (temp_dir : str) (n : Z) : list str :=
  [silence_file temp_dir; audio_file temp_dir n; silence_file temp_dir].
(** * Properties *)

(** ** The models of the library calls on sample inputs *)

Example int_samples :
  map int [lit " 12 "; lit "-7"; lit "+1_000"; lit "1__0"; lit "_1"; lit "";
           lit "- 3"; lit "007"; chr 28 :: lit "5"; lit "5" ++ [chr 160]]
  = [Ok 12; Ok (-7); Ok 1000; Raise ValueError; Raise ValueError;
     Raise ValueError; Raise ValueError; Ok 7; Raise ValueError; Ok 5].
Proof. vm_compute. reflexivity. Qed.

(** The digit limit: 4300 digits are read, 4301 are not; leading zeros
    count, the sign and underscores do not. *)
Example int_limit_samples :
  let ones n := repeat "1"%char n in
  let read s := match int s with Ok _ => true | Raise _ => false end in
  map read [ones 4300%nat; ones 4301%nat;
            repeat "0"%char 4300%nat ++ lit "1";
            "-"%char :: ones 4300%nat; "-"%char :: ones 4301%nat;
            flat_map (fun _ => lit "1_") (seq 0 4299%nat) ++ lit "1"]
  = [true; false; false; true; false; true].
Proof. vm_compute. reflexivity. Qed.

Example str_of_int_samples :
  map str_of_int [0; 7; 42; -3] = [lit "0"; lit "7"; lit "42"; lit "-3"].
Proof. vm_compute. reflexivity. Qed.

Example split_samples :
  map (split "=") [lit "a=b"; lit "="; []; lit "a=b=c"]
  = [[lit "a"; lit "b"]; [[]; []]; [[]]; [lit "a"; lit "b"; lit "c"]].
Proof. reflexivity. Qed.

Example replace_samples :
  replace (lit ".wav") (lit ".m4a") (lit "C:\a.wav\audio\audio_3.wav")
  = lit "C:\a.m4a\audio\audio_3.m4a"
  /\ replace [] (lit "-") (lit "ab") = lit "-a-b-".
Proof. split; reflexivity. Qed.

Example file_lines_samples :
  file_lines (lit "a=b" ++ [CR; LF] ++ lit "c=d" ++ [CR] ++ lit "e")
  = [lit "a=b" ++ [LF]; lit "c=d" ++ [LF]; lit "e"].
Proof. reflexivity. Qed.

Example re_sub_samples :
  re_sub (word_pattern (lit "fdat")) (lit "effdutt")
         (lit "The FDAT value fDaT. FDATA x_fdat fdat")
  = Ok (lit "The effdutt value effdutt. FDATA x_fdat effdutt")
  /\ re_sub (word_pattern []) (lit "-") (lit "ab cd") = Ok (lit "-ab- -cd-")
  /\ re_sub (word_pattern (lit "m")) (lit "<\g<0>\\>") (lit "m")
     = Ok (lit "<m\>")
  /\ re_sub (word_pattern (lit "zzz")) (lit "\q") (lit "no match")
     = Raise ReError.
Proof. repeat split; reflexivity. Qed.

Example path_samples :
  container_format (lit "talk.mp4") = lit "mp4"
  /\ container_format (lit "dir.d\talk") = []
  /\ slide_image_file (lit "C:\tmp\old\") 3
     = lit "C:\tmp\old\slides\slide_3.png"
  /\ audio_file_padded (lit "C:\tmp\old") 12
     = lit "C:\tmp\old\audio\audio_12.m4a"
  /\ video_file (lit "C:") (lit "mp4") 1 = lit "C:video\video_1.mp4".
Proof. repeat split; reflexivity. Qed.

(** ** Results *)

Lemma bind_ok {A B : Type} (r : result A) (k : A -> result B) (b : B) :
  bind r k = Ok b -> exists x, r = Ok x /\ k x = Ok b.
Proof.
  destruct r as [x | e]; simpl; intros H; [ eauto | discriminate ].
Qed.

(** ** Ranges and sorting *)

Lemma range_in (x y k : Z) : In k (range x y) <-> x <= k < y.
Proof.
  unfold range. rewrite in_map_iff. split.
  - intros [i [<- Hi]]. apply in_seq in Hi. lia.
  - intros Hk. exists (Z.to_nat (k - x)). split; [ lia | ].
    apply in_seq. lia.
Qed.

Lemma range_empty (x y : Z) : y <= x -> range x y = [].
Proof.
  intros H. unfold range. replace (Z.to_nat (y - x)) with O by lia.
  reflexivity.
Qed.

Lemma ascending_from (x : Z) (n s : nat) :
  StronglySorted Z.lt (map (fun i => x + Z.of_nat i) (seq s n)).
Proof.
  revert s. induction n as [| n IH]; intros s; simpl; constructor.
  - apply IH.
  - apply Forall_forall. intros k Hk. apply in_map_iff in Hk.
    destruct Hk as [i [<- Hi]]. apply in_seq in Hi. lia.
Qed.

Lemma range_inclusive (start stop : Z) :
  inclusive start stop (range start (stop + 1)).
Proof.
  split.
  - apply ascending_from.
  - intros k. rewrite range_in. lia.
Qed.

Lemma range_from_one (count : nat) :
  range 1 (Z.of_nat count + 1) = map Z.of_nat (seq 1 count).
Proof.
  unfold range. replace (Z.to_nat (Z.of_nat count + 1 - 1)) with count by lia.
  rewrite <- seq_shift, map_map. apply map_ext. intros i. lia.
Qed.

Lemma insert_sorted_perm (x : Z) (l : list Z) :
  Permutation (insert_sorted x l) (x :: l).
Proof.
  induction l as [| y r IH]; simpl; [ reflexivity | ].
  destruct (x <=? y); [ reflexivity | ].
  rewrite IH. apply perm_swap.
Qed.

Lemma sorted_perm (l : list Z) : Permutation (sorted l) l.
Proof.
  induction l as [| x r IH]; simpl; [ constructor | ].
  rewrite insert_sorted_perm. now constructor.
Qed.

Lemma insert_sorted_ascending (x : Z) (l : list Z) :
  StronglySorted Z.le l -> StronglySorted Z.le (insert_sorted x l).
Proof.
  induction 1 as [| y r Hr IH Hy]; simpl.
  - repeat constructor.
  - destruct (Z.leb_spec x y) as [Hxy | Hxy].
    + constructor; [ now constructor | ].
      constructor; [ exact Hxy | ].
      eapply Forall_impl; [ | exact Hy ]. intros z Hz. lia.
    + constructor; [ exact IH | ].
      eapply Permutation_Forall.
      * symmetry. apply insert_sorted_perm.
      * constructor; [ lia | exact Hy ].
Qed.

Lemma sorted_ascending (l : list Z) : StronglySorted Z.le (sorted l).
Proof.
  induction l as [| x r IH]; simpl.
  - constructor.
  - now apply insert_sorted_ascending.
Qed.

(** An ascending list is determined by its elements with their
    multiplicities. *)
Lemma ascending_unique (l l' : list Z) :
  StronglySorted Z.le l -> StronglySorted Z.le l' -> Permutation l l' ->
  l = l'.
Proof.
  intros Hl. revert l'.
  induction Hl as [| x r Hr IH Hx]; intros l' Hl' Hp.
  - now apply Permutation_nil in Hp.
  - destruct Hl' as [| y r' Hr' Hy].
    + symmetry in Hp. now apply Permutation_nil in Hp.
    + assert (x = y) as ->.
      { assert (In x (y :: r')) as Hin
          by (eapply Permutation_in; [ exact Hp | now left ]).
        assert (In y (x :: r)) as Hin'
          by (eapply Permutation_in; [ symmetry; exact Hp | now left ]).
        rewrite Forall_forall in Hx, Hy.
        destruct Hin as [-> | Hin]; [ reflexivity | ].
        destruct Hin' as [-> | Hin']; [ reflexivity | ].
        specialize (Hx _ Hin'). specialize (Hy _ Hin). lia. }
      f_equal. apply IH; [ exact Hr' | ].
      eapply Permutation_cons_inv. exact Hp.
Qed.

Lemma strictly_ascending_nodup (l : list Z) :
  StronglySorted Z.lt l -> NoDup l.
Proof.
  induction 1 as [| x r Hr IH Hx]; constructor; [ | exact IH ].
  intros Hin. rewrite Forall_forall in Hx. specialize (Hx _ Hin). lia.
Qed.

Lemma strictly_ascending_le (l : list Z) :
  StronglySorted Z.lt l -> StronglySorted Z.le l.
Proof.
  induction 1 as [| x r Hr IH Hx]; constructor; [ exact IH | ].
  eapply Forall_impl; [ | exact Hx ]. intros z Hz. lia.
Qed.

Lemma inclusive_unique (start stop : Z) (p q : list Z) :
  inclusive start stop p -> inclusive start stop q -> p = q.
Proof.
  intros [Hp Hpin] [Hq Hqin].
  apply ascending_unique; try now apply strictly_ascending_le.
  apply NoDup_Permutation; try now apply strictly_ascending_nodup.
  intros k. rewrite Hpin, Hqin. reflexivity.
Qed.

(** ** The slide selector *)

Lemma select_token_selects (acc : list Z) (i : str) (l : list Z) :
  select_token acc i = Ok l ->
  exists part, token_selects i part /\ l = acc ++ part.
Proof.
  unfold select_token. destruct (contains "-" i) eqn:Hc.
  - destruct (split "-" i) as [| a [| b [| c r]]] eqn:Hs; try discriminate.
    intros H. apply bind_ok in H. destruct H as [start [Ha H]].
    apply bind_ok in H. destruct H as [stop [Hb H]].
    injection H as <-. exists (range start (stop + 1)). split; [ | reflexivity ].
    eapply select_range; eauto using range_inclusive.
  - intros H. apply bind_ok in H. destruct H as [n [Hn H]].
    injection H as <-. exists [n]. split; [ | reflexivity ].
    now eapply select_single; eauto.
Qed.

Lemma token_selects_select (acc : list Z) (i : str) (part : list Z) :
  token_selects i part -> select_token acc i = Ok (acc ++ part).
Proof.
  intros [a b start stop Hc Hs Ha Hb Hp | n Hc Hn ->]; unfold select_token;
    rewrite Hc.
  - rewrite Hs, Ha, Hb. simpl. do 2 f_equal.
    eapply inclusive_unique; [ apply range_inclusive | exact Hp ].
  - rewrite Hn. reflexivity.
Qed.

Lemma select_tokens_selects (tokens : list str) :
  forall acc l,
    select_tokens acc tokens = Ok l ->
    exists parts, Forall2 token_selects tokens parts /\ l = acc ++ List.concat parts.
Proof.
  induction tokens as [| i rest IH]; simpl; intros acc l H.
  - injection H as <-. exists []. split; [ constructor | ].
    simpl. now rewrite app_nil_r.
  - apply bind_ok in H. destruct H as [acc' [Hi H]].
    apply select_token_selects in Hi. destruct Hi as [part [Hpart ->]].
    apply IH in H. destruct H as [parts [Hparts ->]].
    exists (part :: parts). split; [ now constructor | ].
    simpl. now rewrite app_assoc.
Qed.

Lemma selects_select_tokens (tokens : list str) (parts : list (list Z)) :
  Forall2 token_selects tokens parts ->
  forall acc, select_tokens acc tokens = Ok (acc ++ List.concat parts).
Proof.
  induction 1 as [| i part rest parts Hi Hrest IH]; intros acc; simpl.
  - now rewrite app_nil_r.
  - rewrite (token_selects_select acc i part Hi). simpl.
    rewrite IH. now rewrite app_assoc.
Qed.

(** C3. Without a selection string the selector returns 1..N in
    ascending order. With one, it succeeds exactly when every
    comma-separated, trimmed token stands for indices (a token with a
    dash for the integers of an inclusive start-end range, any other
    token for one integer), and it then returns those indices sorted
    ascending; "2,4-6,9" gives 2,4,5,6,9. *)
Theorem slide_selector_correct :
  (forall count : nat,
      slide_list None (Z.of_nat count) = Ok (map Z.of_nat (seq 1 count)))
  /\ (forall (s : str) (count : Z) (l : list Z),
         slide_list (Some s) count = Ok l <->
         exists parts,
           Forall2 token_selects (map strip (split "," s)) parts
           /\ Permutation l (List.concat parts)
           /\ StronglySorted Z.le l)
  /\ (forall count : Z,
         slide_list (Some (lit "2,4-6,9")) count = Ok [2; 4; 5; 6; 9]).
Proof.
  split; [ | split ].
  - intros count. simpl. now rewrite range_from_one.
  - intros s count l. simpl. split.
    + intros H. apply bind_ok in H. destruct H as [l0 [H0 H]].
      injection H as <-.
      apply select_tokens_selects in H0. destruct H0 as [parts [Hparts ->]].
      exists parts. simpl.
      split; [ exact Hparts | split ];
        [ apply sorted_perm | apply sorted_ascending ].
    + intros [parts [Hparts [Hperm Hasc]]].
      rewrite (selects_select_tokens _ _ Hparts []). simpl. f_equal.
      apply ascending_unique; [ apply sorted_ascending | exact Hasc | ].
      rewrite sorted_perm. now symmetry.
  - intros count. vm_compute. reflexivity.
Qed.

Lemma select_token_inverted (acc : list Z) (i a b : str) (start stop : Z) :
  contains "-" i = true -> split "-" i = [a; b] ->
  int a = Ok start -> int b = Ok stop -> stop < start ->
  select_token acc i = Ok acc.
Proof.
  intros Hc Hs Ha Hb Hlt. unfold select_token.
  rewrite Hc, Hs, Ha, Hb. simpl.
  rewrite range_empty by lia. now rewrite app_nil_r.
Qed.

Lemma select_tokens_inverted (tokens : list str) :
  Forall inverted tokens -> forall acc, select_tokens acc tokens = Ok acc.
Proof.
  induction 1 as [| i rest Hi Hrest IH]; intros acc; simpl; [ reflexivity | ].
  destruct Hi as (a & b & start & stop & Hc & Hs & Ha & Hb & Hlt).
  rewrite (select_token_inverted acc i a b start stop Hc Hs Ha Hb Hlt). simpl. apply IH.
Qed.

(** ** The end of the script *)

Lemma args_quitppt_raises (a : arguments) :
  args_quitppt a = Raise AttributeError.
Proof. reflexivity. Qed.

Lemma finish_raises (a : arguments) (w : world) (temp_dir : str) (st : state) :
  finish a w temp_dir st = (Uncaught AttributeError, st).
Proof. reflexivity. Qed.

Lemma for_slides_nil (a : arguments) (w : world) (mapping : dict)
  (temp_dir fmt : str) (k : nat) (st : state) :
  for_slides a w mapping temp_dir fmt k [] st = Continue st.
Proof. reflexivity. Qed.

(** C1 (the code departs from the claim). The flag is declared as
    [quit_ppt] and read as [quitppt]: the lookup raises, so every run
    whose loop ends without an exception stops there with an uncaught
    [AttributeError], and no run at all ends with exit status 0. The
    sample run selects two slides without notes: no clip is produced and
    the script raises instead of reporting it. *)
Theorem normal_completion_raises :
  (forall a, args_quitppt a = Raise AttributeError)
  /\ (forall a w fs, exists e st, main a w fs = (Uncaught e, st))
  /\ (forall a w fs mapping temp_dir l st0 st,
         prepare a w fs = (Ok (mapping, temp_dir, l, st0), st0) ->
         for_slides a w mapping temp_dir (container_format (output a)) O l st0
           = Continue st
         \/ for_slides a w mapping temp_dir (container_format (output a)) O l st0
           = Break st ->
         main a w fs = (Uncaught AttributeError, st))
  /\ (let r := main (sample_arguments None Azure None)
                    (sample_world [[]; lit " "] None []) no_files in
      fst r = Uncaught AttributeError
      /\ slide_videos (snd r) = []
      /\ printed (snd r) = [MsgGeneratingSilence; MsgProcessing 1; MsgSkipping 1;
                            MsgProcessing 2; MsgSkipping 2]).
Proof.
  split; [ | split; [ | split ] ].
  - intros a. reflexivity.
  - intros a w fs. unfold main.
    destruct (prepare a w fs) as [[[[[mapping temp_dir] l] st0] | e] st].
    + destruct (for_slides _ _ _ _ _ _ _ _) as [st1 | st1 | e st1];
        rewrite ?finish_raises; eauto.
    + eauto.
  - intros a w fs mapping temp_dir l st0 st Hp Hl. unfold main. rewrite Hp.
    destruct Hl as [-> | ->]; apply finish_raises.
  - vm_compute. repeat split; reflexivity.
Qed.

(** C10 (the code departs from the claim in its last part). A range
    token whose start is above its end adds no index and parsing goes
    on; a selection string made of such tokens gives the empty slide
    list. The loop then has nothing to do and produces no clip, but the
    script does not reach the report of that: it raises the
    [AttributeError] of [args.quitppt]. *)
Theorem inverted_range_selects_nothing :
  (forall acc i, inverted i -> select_token acc i = Ok acc)
  /\ (forall s count,
         Forall inverted (map strip (split "," s)) ->
         slide_list (Some s) count = Ok [])
  /\ (forall a w fs s mapping temp_dir l st0,
         slides a = Some s ->
         Forall inverted (map strip (split "," s)) ->
         prepare a w fs = (Ok (mapping, temp_dir, l, st0), st0) ->
         l = [] /\ main a w fs = (Uncaught AttributeError, st0))
  /\ (slide_list (Some (lit "3-1, 9-4")) 5 = Ok []
      /\ fst (main (sample_arguments (Some (lit "3-1, 9-4")) Azure None)
                   (sample_world [lit "one"; lit "two"] None []) no_files)
         = Uncaught AttributeError).
Proof.
  split; [ | split; [ | split ] ].
  - intros acc i (a & b & start & stop & Hc & Hs & Ha & Hb & Hlt).
    eapply select_token_inverted; eauto.
  - intros s count H. simpl. now rewrite (select_tokens_inverted _ H).
  - intros a w fs s mapping temp_dir l st0 Hs Hinv Hp.
    assert (l = []) as ->.
    { unfold prepare in Hp.
      destruct (load_pronunciation_mapping a w); [ | discriminate ].
      destruct (match api a with Azure => speech_config w | SAPI => Ok tt end);
        [ | discriminate ].
      destruct (create_temp_directories a w (initial fs)) as [[d | e] st];
        [ | discriminate ].
      destruct (open_presentation w); [ | discriminate ].
      rewrite Hs in Hp. simpl in Hp.
      rewrite (select_tokens_inverted _ Hinv) in Hp. simpl in Hp.
      now injection Hp as _ _ <- _. }
    split; [ reflexivity | ].
    unfold main. rewrite Hp. reflexivity.
  - split; vm_compute; reflexivity.
Qed.

(** ** Whitespace *)

Lemma dropwhile_nil (p : ascii -> bool) (s : str) :
  dropwhile p s = [] <-> forallb p s = true.
Proof.
  induction s as [| c r IH]; simpl; [ tauto | ].
  destruct (p c); simpl; [ exact IH | ].
  split; discriminate.
Qed.

Lemma forallb_rev (p : ascii -> bool) (s : str) :
  forallb p (rev s) = forallb p s.
Proof.
  induction s as [| c r IH]; simpl; [ reflexivity | ].
  rewrite forallb_app, IH. simpl. rewrite andb_true_r. apply andb_comm.
Qed.

Lemma dropwhile_all (p : ascii -> bool) (s : str) :
  forallb p (dropwhile p s) = true -> dropwhile p s = [].
Proof.
  induction s as [| c r IH]; simpl; [ reflexivity | ].
  destruct (p c) eqn:Hc; [ exact IH | ].
  simpl. rewrite Hc. discriminate.
Qed.

Lemma strip_nil (s : str) : strip s = [] <-> forallb isspace s = true.
Proof.
  unfold strip, rstrip, lstrip. split.
  - intros H. apply dropwhile_nil.
    apply (f_equal (@rev ascii)) in H. rewrite rev_involutive in H. simpl in H.
    apply dropwhile_nil in H. rewrite forallb_rev in H.
    now apply dropwhile_all.
  - intros H. apply dropwhile_nil in H. rewrite H. reflexivity.
Qed.

Lemma no_note_text_blank (t : str) :
  no_note_text t = forallb isspace t.
Proof.
  destruct t as [| c r]; [ reflexivity | ].
  unfold no_note_text.
  destruct (forallb isspace (c :: r)) eqn:H.
  - apply strip_nil in H. now rewrite H.
  - destruct (strip (c :: r)) eqn:Hs; [ | reflexivity ].
    apply strip_nil in Hs. congruence.
Qed.

(** ** The loop body *)

Section Loop.

Variable a : arguments.
Variable w : world.
Variable mapping : dict.
Variable temp_dir : str.
Variable fmt : str.

Local Abbreviation body := (process_slide a w mapping temp_dir fmt).
Local Abbreviation loop := (for_slides a w mapping temp_dir fmt).

Lemma loop_cons (k : nat) (n : Z) (rest : list Z) (st : state) :
  loop k (n :: rest) st =
  match body k n st with
  | Continue st' => loop (S k) rest st'
  | stopped => stopped
  end.
Proof. reflexivity. Qed.

Lemma body_blank (k : nat) (n : Z) (st : state) :
  blank_notes w n = true ->
  body k n st = Continue (say (MsgSkipping n) (say (MsgProcessing n) st)).
Proof.
  unfold blank_notes, process_slide. destruct (notes_text w n) as [t |];
    [ | discriminate ].
  intros H. now rewrite no_note_text_blank, H.
Qed.

End Loop.

(** C5. A selected slide whose notes are empty or whitespace only is
    skipped: the loop body only prints two lines, writes no file, records
    no clip and leaves the character counter alone, and the loop goes on
    with the next selected slide. *)
Theorem blank_notes_are_skipped (a : arguments) (w : world) (mapping : dict)
  (temp_dir fmt : str) (k : nat) (n : Z) (rest : list Z) (st : state)
  (t : str) :
  notes_text w n = Some t ->
  forallb isspace t = true ->
  exists st',
    process_slide a w mapping temp_dir fmt k n st = Continue st'
    /\ files st' = files st
    /\ slide_videos st' = slide_videos st
    /\ total_chars st' = total_chars st
    /\ printed st' = printed st ++ [MsgProcessing n; MsgSkipping n]
    /\ for_slides a w mapping temp_dir fmt k (n :: rest) st
       = for_slides a w mapping temp_dir fmt (S k) rest st'.
Proof.
  intros Hn Ht.
  assert (blank_notes w n = true) as Hb by (unfold blank_notes; now rewrite Hn).
  exists (say (MsgSkipping n) (say (MsgProcessing n) st)).
  rewrite loop_cons, body_blank by exact Hb.
  repeat split. simpl. now rewrite <- app_assoc.
Qed.

Lemma blank_notes_are_skipped_witness :
  exists st',
    process_slide (sample_arguments None Azure None)
      (sample_world [lit "   " ++ [LF] ++ lit "  "; lit "two"] None [])
      [] (lit "C:\tmp\tmp1") (lit "mp4") 0 1 (initial no_files)
    = Continue st'
    /\ files st' = files (initial no_files)
    /\ slide_videos st' = []
    /\ total_chars st' = 0
    /\ printed st' = [] ++ [MsgProcessing 1; MsgSkipping 1]
    /\ for_slides (sample_arguments None Azure None)
         (sample_world [lit "   " ++ [LF] ++ lit "  "; lit "two"] None [])
         [] (lit "C:\tmp\tmp1") (lit "mp4") 0 [1; 2] (initial no_files)
       = for_slides (sample_arguments None Azure None)
           (sample_world [lit "   " ++ [LF] ++ lit "  "; lit "two"] None [])
           [] (lit "C:\tmp\tmp1") (lit "mp4") 1 [2] st'.
Proof.
  apply (blank_notes_are_skipped (sample_arguments None Azure None)
           (sample_world [lit "   " ++ [LF] ++ lit "  "; lit "two"] None [])
           [] (lit "C:\tmp\tmp1") (lit "mp4") 0%nat 1 [2] (initial no_files)
           (lit "   " ++ [LF] ++ lit "  ")).
  - reflexivity.
  - reflexivity.
Defined.

(** ** Normalisation of the notes *)

Lemma replace_char (x y : ascii) (s : str) :
  replace [x] [y] s = map (fun c => if Ascii.eqb c x then y else c) s.
Proof.
  unfold replace. induction s as [| c r IH]; simpl; [ reflexivity | ].
  rewrite andb_true_r, (Ascii.eqb_sym x c).
  destruct (Ascii.eqb c x); simpl; now rewrite IH.
Qed.

Lemma normalize_notes_map (t : str) :
  normalize_notes t = strip (map newline_to_space t).
Proof.
  unfold normalize_notes. rewrite !replace_char, map_map. f_equal.
  apply map_ext. intros c. unfold newline_to_space.
  destruct (Ascii.eqb c LF) eqn:Hc; simpl; reflexivity.
Qed.

(** C9 (as the code has it). For a slide that is not skipped, the text
    handed to pronunciation substitution, and from there to synthesis, is
    the raw notes with every newline and every carriage return replaced
    by one space each, then trimmed; a run of such characters gives as
    many spaces as it has characters. *)
Theorem notes_are_normalized (a : arguments) (w : world) (mapping : dict)
  (temp_dir fmt : str) (k : nat) (n : Z) (st : state) (t : str) :
  notes_text w n = Some t ->
  forallb isspace t = false ->
  normalize_notes t = strip (map newline_to_space t)
  /\ process_slide a w mapping temp_dir fmt k n st =
     let st0 := say (MsgProcessing n) st in
     match apply_mapping mapping (strip (map newline_to_space t)) with
     | Raise e => Raised e st0
     | Ok text =>
         let st1 := add_chars (Z.of_nat (List.length text)) st0 in
         match export_image a w temp_dir n st1 with
         | Continue st2 => synthesize a w temp_dir fmt k n text st2
         | stopped => stopped
         end
     end.
Proof.
  intros Hn Ht. split; [ apply normalize_notes_map | ].
  unfold process_slide. rewrite Hn, no_note_text_blank, Ht.
  now rewrite normalize_notes_map.
Qed.

Lemma notes_are_normalized_witness :
  normalize_notes (lit "one" ++ [CR; LF] ++ lit "two" ++ [LF])
  = lit "one  two".
Proof.
  destruct (notes_are_normalized (sample_arguments None Azure None)
              (sample_world [lit "one" ++ [CR; LF] ++ lit "two" ++ [LF]] None [])
              [] (lit "C:\tmp\tmp1") (lit "mp4") 0%nat 1 (initial no_files)
              (lit "one" ++ [CR; LF] ++ lit "two" ++ [LF])
              eq_refl eq_refl) as [E _].
  rewrite E. reflexivity.
Defined.

(** C9 as stated fails: the two characters CR LF become two spaces, not
    one. *)
Lemma crlf_gives_two_spaces :
  normalize_notes (lit "one" ++ [CR; LF] ++ lit "two") = lit "one  two"
  /\ normalize_notes (lit "one" ++ [CR; LF] ++ lit "two") <> lit "one two".
Proof. split; [ reflexivity | discriminate ]. Qed.

(** ** Cancelled synthesis *)

Section Cancellation.

Variable a : arguments.
Variable w : world.
Variable temp_dir : str.
Variable fmt : str.

Lemma synthesize_cancelled (k : nat) (n : Z) (text : str) (st : state)
  (why : cancellation_reason) (details : str) (out : option data) :
  api a = Azure ->
  speak_azure w k n text = (Canceled why details, out) ->
  exists st',
    synthesize a w temp_dir fmt k n text st = Break st'
    /\ printed st' =
       printed st ++ [MsgSynthesizing n; MsgCanceled why]
       ++ match why, details with
          | CancelError, _ :: _ => [MsgErrorDetails details]
          | _, _ => []
          end
    /\ slide_videos st' = slide_videos st
    /\ total_chars st' = total_chars st.
Proof.
  intros Ha Hs. unfold synthesize. rewrite Ha, Hs.
  eexists. split; [ reflexivity | ].
  destruct why, details; simpl; rewrite <- ?app_assoc; repeat split.
Qed.

End Cancellation.

(** C2 (as the code has it). In Azure mode, when the synthesis of a slide
    is reported cancelled, the reason is printed; the error details with
    the key-and-region hint are printed when the reason is an error and
    the details are not empty; the loop is left at once, whatever slides
    remain, and the clips recorded so far are the ones the loop ends
    with. *)
Theorem cancellation_leaves_loop (a : arguments) (w : world) (mapping : dict)
  (temp_dir fmt : str) (k : nat) (n : Z) (rest : list Z) (st st1 : state)
  (t text : str) (why : cancellation_reason) (details : str)
  (out : option data) :
  api a = Azure ->
  notes_text w n = Some t ->
  forallb isspace t = false ->
  apply_mapping mapping (normalize_notes t) = Ok text ->
  export_image a w temp_dir n
    (add_chars (Z.of_nat (List.length text)) (say (MsgProcessing n) st))
  = Continue st1 ->
  speak_azure w k n text = (Canceled why details, out) ->
  exists st2,
    for_slides a w mapping temp_dir fmt k (n :: rest) st = Break st2
    /\ printed st2 =
       printed st1 ++ [MsgSynthesizing n; MsgCanceled why]
       ++ match why, details with
          | CancelError, _ :: _ => [MsgErrorDetails details]
          | _, _ => []
          end
    /\ slide_videos st2 = slide_videos st1.
Proof.
  intros Ha Hn Ht Hm He Hs.
  destruct (synthesize_cancelled a w temp_dir fmt k n text st1 why details out Ha Hs)
    as (st2 & Hb & Hp & Hv & _).
  exists st2. split; [ | now split ].
  rewrite loop_cons. unfold process_slide.
  rewrite Hn, no_note_text_blank, Ht, Hm, He, Hb. reflexivity.
Qed.

Lemma cancellation_leaves_loop_witness :
  let a := sample_arguments None Azure None in
  let w := sample_world [lit "one"; lit "two"] (Some O) (lit "401") in
  exists st2,
    for_slides a w [] (lit "C:\tmp\tmp1") (lit "mp4") 0 [1; 2] (initial no_files)
    = Break st2
    /\ printed st2 = [MsgProcessing 1; MsgExporting 1; MsgSynthesizing 1;
                      MsgCanceled CancelError; MsgErrorDetails (lit "401")]
    /\ slide_videos st2 = [].
Proof.
  intros a w.
  pose (st1 := state_of
          (export_image a w (lit "C:\tmp\tmp1") 1
             (add_chars 3 (say (MsgProcessing 1) (initial no_files))))).
  destruct (cancellation_leaves_loop a w [] (lit "C:\tmp\tmp1") (lit "mp4")
              O 1 [2] (initial no_files) st1 (lit "one") (lit "one")
              CancelError (lit "401") None
              eq_refl eq_refl eq_refl eq_refl eq_refl eq_refl)
    as (st2 & Hl & Hp & Hv).
  exists st2. split; [ exact Hl | split ].
  - rewrite Hp. reflexivity.
  - rewrite Hv. reflexivity.
Defined.

(** C2 as stated fails: a cancellation due to an error whose details are
    empty prints the reason only, without details or hint. *)
Lemma error_without_details_prints_no_hint :
  let a := sample_arguments None Azure None in
  let w := sample_world [lit "one"; lit "two"] (Some O) [] in
  speak_azure w 0 1 (lit "one") = (Canceled CancelError [], None)
  /\ printed (state_of (for_slides a w [] (lit "C:\tmp\tmp1") (lit "mp4") 0
                          [1; 2] (initial no_files)))
     = [MsgProcessing 1; MsgExporting 1; MsgSynthesizing 1;
        MsgCanceled CancelError].
Proof. split; reflexivity. Qed.

(** ** The character counter *)

Lemma sum_app (l l' : list Z) : sum (l ++ l') = sum l + sum l'.
Proof.
  induction l as [| x r IH]; simpl; [ reflexivity | ].
  rewrite IH. lia.
Qed.


Lemma counted_app (w : world) (mapping : dict) (l l' : list Z) :
  counted w mapping (l ++ l') = counted w mapping l + counted w mapping l'.
Proof.
  unfold counted. now rewrite filter_app, map_app, sum_app.
Qed.

Section Counter.

Variable a : arguments.
Variable w : world.
Variable mapping : dict.
Variable temp_dir : str.
Variable fmt : str.

Lemma encode_clip_total (n : Z) (st : state) :
  exists st', encode_clip w temp_dir fmt n st = Continue st'
              /\ total_chars st' = total_chars st.
Proof. eexists. split; reflexivity. Qed.


Lemma export_image_total (n : Z) (st : state) :
  total_chars (state_of (export_image a w temp_dir n st)) = total_chars st
  /\ forall st', export_image a w temp_dir n st <> Break st'.
Proof.
  unfold export_image.
  destruct (files (say (MsgExporting n) st) (slide_image_file temp_dir n))
    as [[| content] |];
    try (split; [ reflexivity | discriminate ]);
    destruct (export_slide w n (video_width a) (video_height a))
      as [[[] | e] out]; split; (reflexivity || discriminate).
Qed.



End Counter.



(** ** Characters *)

Lemma every_ascii (P : ascii -> bool) :
  forallb P (map ascii_of_nat (seq 0 256)) = true -> forall c, P c = true.
Proof.
  intros H c. rewrite forallb_forall in H. apply H.
  rewrite <- (ascii_nat_embedding c). apply in_map. apply in_seq.
  pose proof (nat_ascii_bounded c). lia.
Qed.

Lemma lower_char_idempotent (c : ascii) :
  snd (lower_char (snd (lower_char c))) = snd (lower_char c).
Proof.
  apply Ascii.eqb_eq. revert c. apply every_ascii. vm_compute. reflexivity.
Qed.

Lemma isspace_lower_char (c : ascii) :
  isspace (snd (lower_char c)) = isspace c.
Proof.
  apply eqb_prop. revert c. apply every_ascii. vm_compute. reflexivity.
Qed.

Lemma is_word_lower_char (c : ascii) :
  is_word (snd (lower_char c)) = is_word c.
Proof.
  apply eqb_prop. revert c. apply every_ascii. vm_compute. reflexivity.
Qed.

Lemma str_eqb_eq (x y : str) : str_eqb x y = true <-> x = y.
Proof.
  revert y. induction x as [| c r IH]; intros [| d s]; simpl;
    try (split; (discriminate || reflexivity)).
  rewrite andb_true_iff, Ascii.eqb_eq, IH. split.
  - intros [-> ->]. reflexivity.
  - intros H. injection H as -> ->. now split.
Qed.

Lemma str_eqb_refl (x : str) : str_eqb x x = true.
Proof. now apply str_eqb_eq. Qed.

Lemma str_eqb_neq (x y : str) : x <> y -> str_eqb x y = false.
Proof.
  intros H. destruct (str_eqb x y) eqn:E; [ | reflexivity ].
  apply str_eqb_eq in E. contradiction.
Qed.

(** ** Trimming *)

Lemma dropwhile_idempotent (p : ascii -> bool) (s : str) :
  dropwhile p (dropwhile p s) = dropwhile p s.
Proof.
  induction s as [| c r IH]; simpl; [ reflexivity | ].
  destruct (p c) eqn:Hc; [ exact IH | ]. simpl. now rewrite Hc.
Qed.

Lemma dropwhile_app (p : ascii -> bool) (s t : str) :
  dropwhile p (s ++ t) =
  if forallb p s then dropwhile p t else dropwhile p s ++ t.
Proof.
  induction s as [| c r IH]; simpl; [ reflexivity | ].
  destruct (p c); simpl; [ exact IH | reflexivity ].
Qed.

Lemma rstrip_cons (c : ascii) (s : str) :
  rstrip (c :: s) = if forallb isspace (c :: s) then [] else c :: rstrip s.
Proof.
  unfold rstrip. simpl rev. rewrite dropwhile_app, forallb_rev. simpl.
  destruct (forallb isspace s) eqn:Hs.
  - rewrite andb_true_r.
    assert (dropwhile isspace (rev s) = []) as ->
      by (apply dropwhile_nil; now rewrite forallb_rev).
    destruct (isspace c); reflexivity.
  - rewrite andb_false_r, rev_app_distr. reflexivity.
Qed.

Lemma rstrip_blank (s : str) : forallb isspace s = true -> rstrip s = [].
Proof.
  intros H. unfold rstrip.
  assert (dropwhile isspace (rev s) = []) as ->
    by (apply dropwhile_nil; now rewrite forallb_rev).
  reflexivity.
Qed.

Lemma lstrip_rstrip (s : str) : lstrip (rstrip s) = rstrip (lstrip s).
Proof.
  induction s as [| c r IH]; [ reflexivity | ].
  rewrite rstrip_cons. unfold lstrip at 2. simpl.
  destruct (isspace c) eqn:Hc; simpl.
  - destruct (forallb isspace r) eqn:Hr.
    + assert (dropwhile isspace r = []) as -> by now apply dropwhile_nil.
      reflexivity.
    + unfold lstrip. simpl. rewrite Hc. exact IH.
  - unfold lstrip. simpl. rewrite Hc. rewrite rstrip_cons. simpl.
    now rewrite Hc.
Qed.

Lemma rstrip_idempotent (s : str) : rstrip (rstrip s) = rstrip s.
Proof.
  unfold rstrip. now rewrite rev_involutive, dropwhile_idempotent.
Qed.

Lemma strip_idempotent (s : str) : strip (strip s) = strip s.
Proof.
  unfold strip. rewrite lstrip_rstrip. unfold lstrip.
  now rewrite dropwhile_idempotent, rstrip_idempotent.
Qed.

Lemma dropwhile_map (p : ascii -> bool) (f : ascii -> ascii) (s : str) :
  (forall c, p (f c) = p c) ->
  dropwhile p (map f s) = map f (dropwhile p s).
Proof.
  intros H. induction s as [| c r IH]; simpl; [ reflexivity | ].
  rewrite H. destruct (p c); [ exact IH | reflexivity ].
Qed.

Lemma strip_lower (s : str) : strip (lower s) = lower (strip s).
Proof.
  unfold strip, rstrip, lstrip, lower.
  rewrite dropwhile_map by apply isspace_lower_char.
  rewrite <- map_rev, dropwhile_map by apply isspace_lower_char.
  now rewrite map_rev.
Qed.

Lemma lower_idempotent (s : str) : lower (lower s) = lower s.
Proof.
  unfold lower. rewrite map_map. apply map_ext.
  intros c. apply lower_char_idempotent.
Qed.

Lemma tidy_strip_lower (s : str) : tidy (strip (lower s)).
Proof.
  split.
  - now rewrite <- strip_lower, lower_idempotent.
  - apply strip_idempotent.
Qed.

(** ** Splitting *)

Lemma split_length (sep : ascii) (s : str) :
  List.length (split sep s) = S (count_char sep s).
Proof.
  unfold count_char. induction s as [| c r IH]; simpl; [ reflexivity | ].
  rewrite (Ascii.eqb_sym sep c).
  destruct (Ascii.eqb c sep); simpl; [ now rewrite IH | ].
  destruct (split sep r) as [| p ps]; [ discriminate | exact IH ].
Qed.

Lemma split_pair (sep : ascii) (s : str) :
  count_char sep s = 1%nat <-> exists x y, split sep s = [x; y].
Proof.
  pose proof (split_length sep s) as H. split.
  - intros E. rewrite E in H.
    destruct (split sep s) as [| x [| y [| z r]]]; try discriminate. eauto.
  - intros (x & y & E). rewrite E in H. simpl in H. lia.
Qed.

Lemma count_char_rev (c : ascii) (s : str) :
  count_char c (rev s) = count_char c s.
Proof.
  unfold count_char. induction s as [| x r IH]; [ reflexivity | ].
  simpl. rewrite filter_app, length_app, IH. simpl.
  destruct (Ascii.eqb c x); simpl; lia.
Qed.

Lemma count_char_dropwhile (c : ascii) (s : str) :
  isspace c = false ->
  count_char c (dropwhile isspace s) = count_char c s.
Proof.
  intros Hc. unfold count_char.
  induction s as [| x r IH]; [ reflexivity | ]. simpl.
  destruct (isspace x) eqn:Hx; [ | reflexivity ].
  rewrite IH. destruct (Ascii.eqb_spec c x) as [-> | _]; [ congruence | ].
  reflexivity.
Qed.

(** Trimming removes no character but whitespace. *)
Lemma count_char_strip (c : ascii) (s : str) :
  isspace c = false -> count_char c (strip s) = count_char c s.
Proof.
  intros Hc. unfold strip, rstrip, lstrip.
  now rewrite count_char_rev, count_char_dropwhile, count_char_rev,
    count_char_dropwhile.
Qed.

(** ** Loading the pronunciation mapping *)

Lemma load_line_ok (d : dict) (line : str) :
  count_char "=" (strip line) = 1%nat ->
  exists word pronunciation,
    split "=" (strip line) = [word; pronunciation]
    /\ load_line d line
       = Ok (dict_set (strip (lower word)) (strip (lower pronunciation)) d).
Proof.
  intros H. apply split_pair in H. destruct H as (x & y & E).
  exists x, y. split; [ exact E | ]. unfold load_line. now rewrite E.
Qed.

Lemma load_line_raises (d : dict) (line : str) :
  count_char "=" (strip line) <> 1%nat -> load_line d line = Raise ValueError.
Proof.
  intros H. unfold load_line.
  destruct (split "=" (strip line)) as [| x [| y [| z r]]] eqn:E;
    try reflexivity.
  exfalso. apply H. apply split_pair. eauto.
Qed.

Lemma count_one_dec (s : str) :
  {count_char "=" s = 1%nat} + {count_char "=" s <> 1%nat}.
Proof. apply Nat.eq_dec. Qed.

Lemma load_lines_raises (ls : list str) :
  forall d,
    load_lines d ls = Raise ValueError <->
    Exists (fun line => count_char "=" (strip line) <> 1%nat) ls.
Proof.
  induction ls as [| line rest IH]; intros d; simpl.
  - split; [ discriminate | intros H; inversion H ].
  - destruct (count_one_dec (strip line)) as [H1 | H1].
    + destruct (load_line_ok d line H1) as (x & y & _ & ->). simpl.
      rewrite IH. split; [ now right | ].
      intros H. inversion H; subst; [ contradiction | assumption ].
    + rewrite (load_line_raises d line H1). simpl.
      split; [ now left | reflexivity ].
Qed.

Lemma load_lines_total (ls : list str) :
  forall d,
    (exists d', load_lines d ls = Ok d') \/ load_lines d ls = Raise ValueError.
Proof.
  induction ls as [| line rest IH]; intros d; simpl; [ eauto | ].
  destruct (count_one_dec (strip line)) as [H1 | H1].
  - destruct (load_line_ok d line H1) as (x & y & _ & ->). simpl. apply IH.
  - rewrite (load_line_raises d line H1). now right.
Qed.

Lemma dict_set_in (k v : str) (d : dict) (e : str * str) :
  In e (dict_set k v d) -> e = (k, v) \/ In e d.
Proof.
  induction d as [| [k' v'] r IH]; simpl.
  - intros [<- | []]. now left.
  - destruct (str_eqb k k'); simpl.
    + intros [<- | H]; auto.
    + intros [<- | H]; auto. destruct (IH H); auto.
Qed.

Lemma dict_set_key (k v : str) (d : dict) : In k (map fst (dict_set k v d)).
Proof.
  induction d as [| [k' v'] r IH]; simpl; [ now left | ].
  destruct (str_eqb k k'); simpl; auto.
Qed.

Lemma dict_set_keeps (k v k' : str) (d : dict) :
  In k' (map fst d) -> In k' (map fst (dict_set k v d)).
Proof.
  induction d as [| [k0 v0] r IH]; simpl; [ tauto | ].
  destruct (str_eqb k k0) eqn:E; simpl.
  - apply str_eqb_eq in E. subst. tauto.
  - intros [H | H]; auto.
Qed.

Lemma load_lines_entries (ls : list str) :
  forall d d',
    load_lines d ls = Ok d' ->
    (forall e, In e d' -> In e d \/ exists line, In line ls /\ entry_of line e)
    /\ (forall k, In k (map fst d) -> In k (map fst d'))
    /\ (forall line, In line ls ->
                     exists e, entry_of line e /\ In (fst e) (map fst d')).
Proof.
  induction ls as [| line rest IH]; intros d d'; simpl.
  - intros H. injection H as <-. repeat split; auto. intros line [].
  - intros H. apply bind_ok in H. destruct H as (d1 & H1 & H).
    unfold load_line in H1.
    destruct (split "=" (strip line)) as [| x [| y [| z r]]] eqn:E;
      try discriminate.
    injection H1 as <-.
    destruct (IH _ _ H) as (Hin & Hkeep & Hlines). repeat split.
    + intros e He. destruct (Hin e He) as [He' | (l & Hl & Hl')].
      * apply dict_set_in in He'. destruct He' as [-> | He']; [ | now left ].
        right. exists line. split; [ now left | ]. exists x, y. now split.
      * right. exists l. split; [ now right | exact Hl' ].
    + intros k Hk. apply Hkeep. now apply dict_set_keeps.
    + intros l [<- | Hl].
      * exists (strip (lower x), strip (lower y)).
        split; [ exists x, y; now split | ].
        apply Hkeep. apply dict_set_key.
      * now apply Hlines.
Qed.

(** C8 (as the code has it). Loading fails, with a [ValueError], exactly
    when some line of the file, blank lines included, does not hold
    exactly one '='; the failure ends the run before anything is printed
    or written. A file whose every line holds exactly one '=' loads:
    every entry of the table comes from a line word=pronunciation,
    lowercased and trimmed on both sides, and every line has its key in
    the table. *)
Theorem mapping_file_loading :
  (forall text,
      load_mapping text = Raise ValueError <->
      Exists (fun line => count_char "=" line <> 1%nat) (file_lines text))
  /\ (forall text,
         Forall (fun line => count_char "=" line = 1%nat) (file_lines text) ->
         exists d, load_mapping text = Ok d)
  /\ (forall text d,
         load_mapping text = Ok d ->
         (forall k v,
             In (k, v) d ->
             tidy k /\ tidy v
             /\ exists line, In line (file_lines text) /\ entry_of line (k, v))
         /\ (forall line,
                In line (file_lines text) ->
                exists e, entry_of line e /\ In (fst e) (map fst d)))
  /\ (forall a w fs e,
         load_pronunciation_mapping a w = Raise e ->
         main a w fs = (Uncaught e, initial fs))
  /\ load_mapping (lit "FDAT=effdutt" ++ [CR; LF] ++ lit " Foo Bar = Baz ")
     = Ok [(lit "fdat", lit "effdutt"); (lit "foo bar", lit "baz")].
Proof.
  assert (forall text,
             load_mapping text = Raise ValueError <->
             Exists (fun line => count_char "=" line <> 1%nat)
                    (file_lines text)) as Hraise.
  { intros text. unfold load_mapping. rewrite load_lines_raises.
    split; intros H; apply Exists_exists in H; apply Exists_exists;
      destruct H as (line & Hin & Hbad); exists line;
      (split; [ exact Hin | ]);
      [ rewrite <- (count_char_strip "=" line) by reflexivity
      | rewrite (count_char_strip "=" line) by reflexivity ]; exact Hbad. }
  split; [ exact Hraise | split; [ | split; [ | split ] ] ].
  - intros text Hall.
    destruct (load_lines_total (file_lines text) []) as [H | H]; [ exact H | ].
    apply Hraise in H. apply Exists_exists in H.
    destruct H as (line & Hin & Hbad). rewrite Forall_forall in Hall.
    now specialize (Hall line Hin).
  - intros text d H.
    destruct (load_lines_entries _ _ _ H) as (Hin & _ & Hlines).
    split; [ | exact Hlines ].
    intros k v Hkv. destruct (Hin _ Hkv) as [[] | (line & Hl & He)].
    destruct He as (x & y & E & Hxy). injection Hxy as -> ->.
    split; [ apply tidy_strip_lower | split; [ apply tidy_strip_lower | ] ].
    exists line. split; [ exact Hl | ]. exists x, y. now split.
  - intros a w fs e H. unfold main, prepare. now rewrite H.
  - vm_compute. reflexivity.
Qed.

(** C8 as stated fails: a blank line between two well-formed lines makes
    the loading fail, although every non-blank line holds exactly one
    '='. *)
Lemma blank_line_fails_loading :
  let text := lit "a=b" ++ [LF; LF] ++ lit "c=d" ++ [LF] in
  Forall (fun line => forallb isspace line = true
                      \/ count_char "=" line = 1%nat) (file_lines text)
  /\ load_mapping text = Raise ValueError.
Proof.
  split; [ | reflexivity ].
  repeat (constructor; [ (left; reflexivity) || (right; reflexivity) | ]).
  constructor.
Qed.

(** ** Pronunciation substitution *)

Lemma parse_template_plain (s : str) :
  forall fuel,
    (List.length s < fuel)%nat ->
    forallb (fun c => negb (Ascii.eqb c "\")) s = true ->
    parse_template_fuel fuel s = Ok (map TChar s).
Proof.
  induction s as [| c r IH]; intros [| fuel] Hf Hs; simpl in *;
    try lia; try reflexivity.
  apply andb_true_iff in Hs. destruct Hs as [Hc Hr].
  rewrite Hc. rewrite (IH fuel); [ reflexivity | lia | exact Hr ].
Qed.

Lemma expand_plain (s m : str) : expand (map TChar s) m = s.
Proof.
  unfold expand. induction s as [| c r IH]; simpl; [ reflexivity | ].
  now rewrite IH.
Qed.

Lemma match_literals (word : str) (q : list re_item) :
  forall prev s,
    match_here (map Literal word ++ q) prev s =
    if starts_with_ci word s
    then option_map (app (firstn (List.length word) s))
           (match_here q (before (List.length word) prev s)
                       (skipn (List.length word) s))
    else None.
Proof.
  induction word as [| x word' IH]; intros prev s; simpl.
  - now destruct (match_here q prev s).
  - destruct s as [| y r]; [ reflexivity | ].
    destruct (same_letter x y); simpl; [ | reflexivity ].
    rewrite IH. destruct (starts_with_ci word' r); [ | reflexivity ].
    replace (before (List.length word') (Some y) r)
      with (nth_error (y :: r) (List.length word'))
      by (now destruct (List.length word')).
    now destruct (match_here q _ _).
Qed.

Lemma same_letter_word (x y : ascii) :
  same_letter x y = true -> is_word y = is_word x.
Proof.
  unfold same_letter. intros H. apply Ascii.eqb_eq in H.
  now rewrite <- (is_word_lower_char y), <- H, is_word_lower_char.
Qed.

Lemma starts_with_ci_length (word s : str) :
  starts_with_ci word s = true -> (List.length word <= List.length s)%nat.
Proof.
  revert s. induction word as [| x word' IH]; intros [| y r]; simpl;
    try lia; try discriminate.
  intros H. apply andb_true_iff in H. destruct H as [_ H].
  apply IH in H. lia.
Qed.

Lemma last_cons (x d : ascii) (l : str) : last (x :: l) d = last l x.
Proof.
  revert x d. induction l as [| y r IH]; intros x d; [ reflexivity | ].
  change (last (x :: y :: r) d) with (last (y :: r) d).
  now rewrite (IH y d), (IH y x).
Qed.

Lemma starts_with_ci_last (x : ascii) (word' : str) :
  forall y r,
    starts_with_ci (x :: word') (y :: r) = true ->
    exists z, nth_error (y :: r) (List.length word') = Some z
              /\ is_word z = is_word (last word' x).
Proof.
  revert x. induction word' as [| x' w IH]; intros x y r H; simpl in H.
  - apply andb_true_iff in H. destruct H as [H _].
    exists y. split; [ reflexivity | now apply same_letter_word ].
  - apply andb_true_iff in H. destruct H as [_ H].
    destruct r as [| y' r']; [ discriminate | ].
    destruct (IH x' y' r' H) as (z & Hz & Hw).
    exists z. split; [ exact Hz | ].
    now rewrite Hw, last_cons.
Qed.

Lemma hd_error_skipn (n : nat) (s : str) :
  hd_error (skipn n s) = nth_error s n.
Proof.
  revert s. induction n as [| n IH]; intros [| c r]; simpl; auto.
Qed.

Lemma match_word (x : ascii) (word' : str) (prev : option ascii) (s : str) :
  is_word x = true -> is_word (last word' x) = true ->
  match_here (word_pattern (x :: word')) prev s =
  if whole_word_at (x :: word') prev s
  then Some (firstn (S (List.length word')) s)
  else None.
Proof.
  intros Hx Hl. unfold word_pattern, whole_word_at.
  cbn [match_here].
  rewrite (match_literals (x :: word') [WordBoundary]).
  destruct (starts_with_ci (x :: word') s) eqn:Hs.
  - destruct s as [| y r]; [ discriminate | ].
    destruct (starts_with_ci_last x word' y r Hs) as (z & Hz & Hw).
    assert (is_word y = true) as Hy.
    { simpl in Hs. apply andb_true_iff in Hs. destruct Hs as [Hs _].
      now rewrite (same_letter_word x y Hs). }
    rewrite Hl in Hw.
    cbn [List.length before match_here hd_error].
    rewrite hd_error_skipn, Hz.
    assert (at_boundary prev (Some y) = negb (word_char prev)) as ->
      by (unfold at_boundary; cbn [word_char]; rewrite Hy; apply xorb_true_r).
    assert (forall next, at_boundary (Some z) next = negb (word_char next))
      as ->
      by (intros next; unfold at_boundary; cbn [word_char]; rewrite Hw;
          apply xorb_true_l).
    cbn [andb].
    destruct (word_char prev); cbn [negb andb]; [ reflexivity | ].
    destruct (word_char (nth_error (y :: r) (S (List.length word'))));
      cbn [negb option_map]; [ reflexivity | ].
    now rewrite app_nil_r.
  - cbn [andb]. now destruct (at_boundary prev (hd_error s)).
Qed.

Lemma sub_from_spec (x : ascii) (word' pron : str) :
  is_word x = true -> is_word (last word' x) = true ->
  forall s prev skip,
    sub_from (word_pattern (x :: word')) (map TChar pron) prev skip s =
    spec_replace_from (x :: word') pron prev skip s.
Proof.
  intros Hx Hl. induction s as [| c r IH]; intros prev skip.
  - cbn [sub_from spec_replace_from]. rewrite (match_word x word' prev [] Hx Hl).
    destruct skip; reflexivity.
  - cbn [sub_from spec_replace_from]. destruct skip as [| k]; [ | apply IH ].
    rewrite (match_word x word' prev (c :: r) Hx Hl).
    destruct (whole_word_at (x :: word') prev (c :: r)) eqn:Hw.
    + cbn [firstn]. rewrite expand_plain, IH. do 2 f_equal.
      unfold whole_word_at in Hw. apply andb_true_iff in Hw.
      destruct Hw as [Hw _]. apply andb_true_iff in Hw. destruct Hw as [Hw _].
      apply starts_with_ci_length in Hw. simpl in Hw.
      rewrite length_firstn. simpl. lia.
    + now rewrite IH.
Qed.

Lemma re_sub_spec (word pron text : str) :
  plain_entry (word, pron) = true ->
  re_sub (word_pattern word) pron text
  = Ok (spec_replace_whole_words word pron text).
Proof.
  unfold plain_entry. cbn [fst snd]. intros H.
  apply andb_true_iff in H. destruct H as [Hw Hp].
  destruct word as [| x word']; [ discriminate | ].
  apply andb_true_iff in Hw. destruct Hw as [Hx Hl].
  unfold re_sub, parse_template.
  rewrite parse_template_plain by (lia || assumption).
  cbn [bind]. now rewrite sub_from_spec.
Qed.

(** C4 (as the code has it). For a mapping whose words begin and end
    with a word character (a letter, a digit or an underscore) and whose
    pronunciations hold no backslash, the substitution loop replaces, one
    entry after the other in mapping order, every whole-word occurrence
    of the word, letter case apart, by its pronunciation and leaves the
    other occurrences as they are. *)
Theorem substitution_replaces_whole_words (d : dict) (text : str) :
  forallb plain_entry d = true ->
  apply_mapping d text = Ok (spec_substitute d text).
Proof.
  revert text. induction d as [| [word pron] rest IH]; intros text H.
  - reflexivity.
  - cbn [forallb] in H. apply andb_true_iff in H. destruct H as [He Hr].
    cbn [apply_mapping]. rewrite (re_sub_spec word pron text He).
    cbn [bind]. now rewrite IH.
Qed.

Lemma substitution_replaces_whole_words_witness :
  apply_mapping [(lit "fdat", lit "effdutt")] (lit "The FDAT value")
  = Ok (lit "The effdutt value")
  /\ apply_mapping [(lit "fdat", lit "effdutt")] (lit "FDATA")
     = Ok (lit "FDATA").
Proof.
  split.
  - rewrite (substitution_replaces_whole_words
               [(lit "fdat", lit "effdutt")] (lit "The FDAT value") eq_refl).
    reflexivity.
  - rewrite (substitution_replaces_whole_words
               [(lit "fdat", lit "effdutt")] (lit "FDATA") eq_refl).
    reflexivity.
Defined.

(** C4 as stated fails for a word that ends with a character that is not
    a word character: its occurrence between two spaces is a whole-word
    occurrence, and the loop leaves it. *)
Lemma word_ending_in_plus_is_not_replaced :
  spec_substitute [(lit "c++", lit "see plus plus")] (lit "I like c++ a lot")
  = lit "I like see plus plus a lot"
  /\ apply_mapping [(lit "c++", lit "see plus plus")] (lit "I like c++ a lot")
     = Ok (lit "I like c++ a lot").
Proof. split; reflexivity. Qed.

(** A pronunciation with a backslash is read as a replacement template:
    a group reference in it makes the substitution fail. *)
Lemma backslash_in_pronunciation_is_a_template :
  apply_mapping [(lit "fdat", lit "\1")] (lit "The FDAT value")
  = Raise ReError
  /\ apply_mapping [(lit "fdat", lit "eff\tdutt")] (lit "FDAT")
     = Ok (lit "eff" ++ [chr 9] ++ lit "dutt").
Proof. split; reflexivity. Qed.

(** ** Lists of characters *)

Lemma split_at_last (c : ascii) (x x' y y' : str) :
  ~ In c y -> ~ In c y' -> x ++ c :: y = x' ++ c :: y' -> x = x' /\ y = y'.
Proof.
  revert x'. induction x as [| a x IH]; intros [| a' x'] Hy Hy' H; simpl in H.
  - injection H as ->. now split.
  - injection H as -> ->. exfalso. apply Hy. apply in_or_app. right. now left.
  - injection H as -> <-. exfalso. apply Hy'. apply in_or_app. right. now left.
  - injection H as -> H. destruct (IH x' Hy Hy' H) as [-> ->]. now split.
Qed.

Lemma last_char (x y : str) (c c' : ascii) :
  x ++ [c] = y ++ [c'] -> c = c'.
Proof. intros H. now apply app_inj_tail in H. Qed.

(** ** Decimal notation *)

Lemma lit_inj (s t : string) : lit s = lit t -> s = t.
Proof.
  unfold lit. intros H.
  rewrite <- (string_of_list_ascii_of_string s),
          <- (string_of_list_ascii_of_string t).
  now rewrite H.
Qed.

Lemma to_int_proper (n : Z) :
  Z.to_int n <> Decimal.Pos Decimal.Nil /\ Z.to_int n <> Decimal.Neg Decimal.Nil.
Proof.
  destruct n as [| p | p]; simpl; split; try discriminate;
    intros H; injection H as H;
    now apply DecimalPos.Unsigned.to_uint_nonnil in H.
Qed.

Lemma str_of_int_inj (n m : Z) : str_of_int n = str_of_int m -> n = m.
Proof.
  unfold str_of_int. intros H. apply lit_inj in H.
  apply DecimalZ.to_int_inj.
  destruct (to_int_proper n) as [Hn Hn'], (to_int_proper m) as [Hm Hm'].
  apply (f_equal NilZero.int_of_string) in H.
  rewrite !NilZero.isi in H by assumption.
  now injection H.
Qed.

Lemma uint_numeric (d : Decimal.uint) :
  forallb numeric (lit (NilEmpty.string_of_uint d)) = true.
Proof. induction d; simpl; auto. Qed.

Lemma zero_uint_numeric (d : Decimal.uint) :
  forallb numeric (lit (NilZero.string_of_uint d)) = true.
Proof.
  destruct d; try reflexivity;
    exact (uint_numeric (Decimal.D0 d)) || exact (uint_numeric (Decimal.D1 d))
    || exact (uint_numeric (Decimal.D2 d)) || exact (uint_numeric (Decimal.D3 d))
    || exact (uint_numeric (Decimal.D4 d)) || exact (uint_numeric (Decimal.D5 d))
    || exact (uint_numeric (Decimal.D6 d)) || exact (uint_numeric (Decimal.D7 d))
    || exact (uint_numeric (Decimal.D8 d)) || exact (uint_numeric (Decimal.D9 d)).
Qed.

Lemma str_of_int_numeric (n : Z) : forallb numeric (str_of_int n) = true.
Proof.
  unfold str_of_int. destruct (Z.to_int n) as [d | d].
  - apply zero_uint_numeric.
  - exact (zero_uint_numeric d).
Qed.

Lemma numeric_not_in (c : ascii) (s : str) :
  numeric c = false -> forallb numeric s = true -> ~ In c s.
Proof.
  intros Hc Hs Hin. rewrite forallb_forall in Hs.
  specialize (Hs c Hin). congruence.
Qed.

(** ** Replacing ".wav" by ".m4a" *)

Lemma starts_with_wav_app (s t : str) (c : ascii) :
  s <> [] -> off_wav c = true ->
  starts_with wav (s ++ c :: t) = starts_with wav s.
Proof.
  intros Hs Hc. unfold off_wav in Hc. apply negb_true_iff in Hc.
  apply orb_false_iff in Hc. destruct Hc as [Hc Hv].
  apply orb_false_iff in Hc. destruct Hc as [Hw Ha].
  rewrite Ascii.eqb_sym in Hw, Ha, Hv.
  destruct s as [| x1 [| x2 [| x3 [| x4 s4]]]]; try contradiction;
    cbn [wav lit list_ascii_of_string starts_with app];
    rewrite ?Hw, ?Ha, ?Hv, ?andb_false_r; reflexivity.
Qed.

Lemma starts_with_length (p s : str) :
  starts_with p s = true -> (List.length p <= List.length s)%nat.
Proof.
  revert s. induction p as [| a p IH]; intros [| b s]; simpl;
    try lia; try discriminate.
  intros H. apply andb_true_iff in H. destruct H as [_ H].
  apply IH in H. lia.
Qed.

Lemma replace_from_here (old new : str) (c : ascii) (r : str) :
  replace_from old new O (c :: r) =
  if starts_with old (c :: r)
  then new ++ replace_from old new (Nat.pred (List.length old)) r
  else c :: replace_from old new O r.
Proof. reflexivity. Qed.

Lemma replace_from_skip (old new : str) (k : nat) (c : ascii) (r : str) :
  replace_from old new (S k) (c :: r) = replace_from old new k r.
Proof. reflexivity. Qed.

Lemma wav_length : List.length wav = 4%nat.
Proof. reflexivity. Qed.

Lemma m4a_length : List.length m4a = 4%nat.
Proof. reflexivity. Qed.

Lemma replace_from_app (s t : str) (c : ascii) :
  off_wav c = true ->
  forall skip,
    (skip <= List.length s)%nat ->
    replace_from wav m4a skip (s ++ c :: t) =
    replace_from wav m4a skip s ++ replace_from wav m4a O (c :: t).
Proof.
  intros Hc. set (tail := replace_from wav m4a O (c :: t)).
  induction s as [| x r IH]; intros skip Hk.
  - simpl in Hk. replace skip with O by lia. reflexivity.
  - change ((x :: r) ++ c :: t) with (x :: r ++ c :: t).
    destruct skip as [| k].
    + rewrite !replace_from_here.
      assert (starts_with wav (x :: r ++ c :: t) = starts_with wav (x :: r))
        as -> by (apply (starts_with_wav_app (x :: r) t c);
                  [ discriminate | exact Hc ]).
      destruct (starts_with wav (x :: r)) eqn:Hw.
      * apply starts_with_length in Hw. rewrite wav_length in *.
        cbn [List.length] in Hw.
        rewrite IH by (cbn [Nat.pred]; lia). apply app_assoc.
      * rewrite IH by lia. reflexivity.
    + rewrite !replace_from_skip. apply IH. cbn [List.length] in Hk. lia.
Qed.

Lemma replace_from_length (s : str) :
  forall skip,
    (skip <= List.length s)%nat ->
    List.length (replace_from wav m4a skip s) = (List.length s - skip)%nat.
Proof.
  induction s as [| x r IH]; intros skip Hk.
  - cbn [List.length] in *. replace skip with O by lia. reflexivity.
  - destruct skip as [| k].
    + rewrite replace_from_here.
      destruct (starts_with wav (x :: r)) eqn:Hw.
      * apply starts_with_length in Hw. rewrite wav_length in *.
        cbn [List.length] in *.
        rewrite length_app, m4a_length, IH by (cbn [Nat.pred]; lia).
        cbn [Nat.pred]. lia.
      * cbn [List.length]. rewrite IH by lia. lia.
    + rewrite replace_from_skip, IH by (cbn [List.length] in Hk; lia).
      cbn [List.length]. lia.
Qed.

Lemma replace_no_dot (s : str) :
  ~ In "."%char s -> replace_from wav m4a O (s ++ wav) = s ++ m4a.
Proof.
  induction s as [| x r IH]; intros H; [ reflexivity | ].
  change ((x :: r) ++ wav) with (x :: r ++ wav).
  rewrite replace_from_here.
  assert (starts_with wav (x :: r ++ wav) = false) as ->.
  { change wav with ("."%char :: lit "wav") at 1. cbn [starts_with].
    destruct (Ascii.eqb_spec "." x) as [<- | Hx]; [ | reflexivity ].
    exfalso. apply H. now left. }
  rewrite IH; [ reflexivity | ]. intros Hin. apply H. now right.
Qed.

(** ** The shape of the paths *)

Lemma join_prefix (d p : str) : join d p = dir_prefix d ++ p.
Proof.
  unfold join, dir_prefix. destruct d as [| c r]; [ reflexivity | ].
  destruct (bare_drive (c :: r) || is_sep (last r c)); [ reflexivity | ].
  now rewrite <- app_assoc.
Qed.

Lemma join_folder (d name p : str) (c : ascii) :
  (2 <= List.length name)%nat -> is_sep c = false ->
  join (d ++ name ++ [c]) p = d ++ name ++ c :: "\"%char :: p.
Proof.
  intros Hn Hc. unfold join.
  destruct (d ++ name ++ [c]) as [| x r] eqn:E.
  - apply (f_equal (@List.length ascii)) in E.
    rewrite !length_app in E. simpl in E. lia.
  - assert (bare_drive (x :: r) = false) as ->.
    { apply (f_equal (@List.length ascii)) in E.
      rewrite !length_app in E. simpl in E.
      destruct r as [| y [| z r']]; try reflexivity. simpl in E. lia. }
    assert (last r x = c) as ->.
    { rewrite <- (last_cons x x r), <- E, app_assoc. apply last_last. }
    rewrite Hc. cbn [orb]. rewrite <- E, <- !app_assoc. reflexivity.
Qed.

Lemma slide_image_file_shape (d : str) (n : Z) :
  slide_image_file d n =
  dir_prefix d ++ lit "slides\slide_" ++ str_of_int n ++ lit ".png".
Proof.
  unfold slide_image_file, slide_folder. rewrite (join_prefix d).
  apply (join_folder (dir_prefix d) (lit "slide") _ "s");
    [ simpl; lia | reflexivity ].
Qed.

Lemma audio_file_shape (d : str) (n : Z) :
  audio_file d n =
  dir_prefix d ++ lit "audio\audio_" ++ str_of_int n ++ wav.
Proof.
  unfold audio_file, audio_folder. rewrite (join_prefix d).
  apply (join_folder (dir_prefix d) (lit "audi") _ "o");
    [ simpl; lia | reflexivity ].
Qed.

Lemma video_file_shape (d fmt : str) (n : Z) :
  video_file d fmt n =
  dir_prefix d ++ lit "video\video_" ++ str_of_int n ++ "."%char :: fmt.
Proof.
  unfold video_file, video_folder. rewrite (join_prefix d).
  apply (join_folder (dir_prefix d) (lit "vide") _ "o");
    [ simpl; lia | reflexivity ].
Qed.

Lemma silence_file_shape (d : str) :
  silence_file d = dir_prefix d ++ lit "silence.wav".
Proof. apply join_prefix. Qed.

Lemma concat_file_shape (d : str) :
  concat_file d = dir_prefix d ++ lit "concat.txt".
Proof. apply join_prefix. Qed.

Lemma str_of_int_no_dot (n : Z) : ~ In "."%char (str_of_int n).
Proof. apply numeric_not_in; [ reflexivity | apply str_of_int_numeric ]. Qed.

Lemma str_of_int_no_underscore (n : Z) : ~ In "_"%char (str_of_int n).
Proof. apply numeric_not_in; [ reflexivity | apply str_of_int_numeric ]. Qed.

Lemma audio_file_padded_shape (d : str) (n : Z) :
  audio_file_padded d n =
  padded_folder d ++ lit "\audio_" ++ str_of_int n ++ m4a.
Proof.
  unfold audio_file_padded. rewrite audio_file_shape.
  change (replace (lit ".wav") (lit ".m4a")) with (replace_from wav m4a O).
  change (dir_prefix d ++ lit "audio\audio_" ++ str_of_int n ++ wav)
    with (dir_prefix d
          ++ lit "audio" ++ "\"%char :: (lit "audio_" ++ str_of_int n ++ wav)).
  rewrite app_assoc.
  rewrite replace_from_app by (reflexivity || lia).
  unfold padded_folder. f_equal.
  change ("\"%char :: lit "audio_" ++ str_of_int n ++ wav)
    with ((lit "\audio_" ++ str_of_int n) ++ wav).
  rewrite replace_no_dot; [ now rewrite <- app_assoc | ].
  intros Hin. apply in_app_or in Hin. destruct Hin as [Hin | Hin].
  - cbn in Hin. intuition discriminate.
  - now apply str_of_int_no_dot in Hin.
Qed.

Lemma padded_folder_length (d : str) :
  List.length (padded_folder d) = (List.length (dir_prefix d) + 5)%nat.
Proof.
  unfold padded_folder. rewrite replace_from_length by lia.
  rewrite length_app. cbn [lit list_ascii_of_string List.length]. lia.
Qed.

Lemma container_format_no_dot (output : str) :
  ~ In "."%char (container_format output).
Proof.
  unfold container_format, splitext.
  set (keep := fun c => negb (Ascii.eqb c "." || is_sep c)).
  assert (forall s, ~ In "."%char (takewhile keep s)) as Hk.
  { induction s as [| c r IH]; simpl; [ tauto | ].
    destruct (keep c) eqn:Hc; [ | tauto ].
    intros [E | Hin]; [ subst c; discriminate Hc | now apply IH ]. }
  destruct (skipn _ (rev output)) as [| c before]; [ simpl; tauto | ].
  destruct (Ascii.eqb c "."); [ | simpl; tauto ].
  destruct (existsb _ _); [ | simpl; tauto ].
  cbn [snd tl]. intros Hin. apply in_rev in Hin. now apply Hk in Hin.
Qed.

(** ** Distinct slides have distinct files *)

Ltac shapes H :=
  rewrite ?slide_image_file_shape, ?audio_file_shape, ?video_file_shape,
    ?audio_file_padded_shape, ?silence_file_shape, ?concat_file_shape in H.

(** Two paths under the same directory whose names differ early on. *)
Ltac by_name H :=
  shapes H; apply app_inv_head in H; cbn in H; discriminate H.

(** Two paths with different last characters. *)
Ltac by_last H :=
  rewrite ?app_assoc in H; apply last_char in H; discriminate H.

Section Distinct.

Variable d : str.
Variable fmt : str.
Hypothesis fmt_no_dot : ~ In "."%char fmt.

Lemma slide_image_file_inj (n m : Z) :
  slide_image_file d n = slide_image_file d m -> n = m.
Proof.
  intros H. shapes H. do 2 apply app_inv_head in H.
  apply app_inv_tail in H. now apply str_of_int_inj.
Qed.

Lemma audio_file_inj (n m : Z) : audio_file d n = audio_file d m -> n = m.
Proof.
  intros H. shapes H. do 2 apply app_inv_head in H.
  apply app_inv_tail in H. now apply str_of_int_inj.
Qed.

Lemma video_file_inj (n m : Z) :
  video_file d fmt n = video_file d fmt m -> n = m.
Proof.
  intros H. shapes H. do 2 apply app_inv_head in H.
  change ("."%char :: fmt) with (["."%char] ++ fmt) in H.
  rewrite !app_assoc in H. apply app_inv_tail in H.
  apply app_inv_tail in H. now apply str_of_int_inj.
Qed.

Lemma audio_file_padded_inj (n m : Z) :
  audio_file_padded d n = audio_file_padded d m -> n = m.
Proof.
  intros H. shapes H. do 2 apply app_inv_head in H.
  apply app_inv_tail in H. now apply str_of_int_inj.
Qed.

Lemma padded_not_image (n m : Z) :
  audio_file_padded d n <> slide_image_file d m.
Proof.
  intros H. shapes H.
  change m4a with (lit ".m4" ++ ["a"%char]) in H.
  change (lit ".png") with (lit ".pn" ++ ["g"%char]) in H.
  by_last H.
Qed.

Lemma padded_not_audio (n m : Z) : audio_file_padded d n <> audio_file d m.
Proof.
  intros H. shapes H.
  change m4a with (lit ".m4" ++ ["a"%char]) in H.
  change wav with (lit ".wa" ++ ["v"%char]) in H.
  by_last H.
Qed.

Lemma padded_not_silence (n : Z) : audio_file_padded d n <> silence_file d.
Proof.
  intros H. shapes H.
  change m4a with (lit ".m4" ++ ["a"%char]) in H.
  change (lit "silence.wav") with (lit "silence.wa" ++ ["v"%char]) in H.
  by_last H.
Qed.

Lemma padded_not_concat (n : Z) : audio_file_padded d n <> concat_file d.
Proof.
  intros H. shapes H.
  change m4a with (lit ".m4" ++ ["a"%char]) in H.
  change (lit "concat.txt") with (lit "concat.tx" ++ ["t"%char]) in H.
  by_last H.
Qed.

Lemma padded_not_video (n m : Z) :
  audio_file_padded d n <> video_file d fmt m.
Proof.
  intros H. shapes H.
  change m4a with ("."%char :: lit "m4a") in H.
  rewrite !app_assoc in H.
  apply split_at_last in H;
    [ | cbn; intuition discriminate | exact fmt_no_dot ].
  destruct H as [H _]. rewrite <- !app_assoc in H.
  change (lit "\audio_" ++ str_of_int n)
    with (lit "\audio" ++ "_"%char :: str_of_int n) in H.
  change (lit "video\video_" ++ str_of_int m)
    with (lit "video\video" ++ "_"%char :: str_of_int m) in H.
  rewrite !app_assoc in H.
  apply split_at_last in H; try apply str_of_int_no_underscore.
  destruct H as [H _].
  change (lit "\audio") with (lit "\aud" ++ ["i"%char] ++ ["o"%char]) in H.
  change (lit "video\video")
    with (lit "video\vid" ++ ["e"%char] ++ ["o"%char]) in H.
  rewrite !app_assoc in H. apply app_inj_tail in H. destruct H as [H _].
  apply last_char in H. discriminate H.
Qed.

(** The files of two different slides are different files. *)
Lemma artifacts_disjoint (n m : Z) (p : str) :
  n <> m ->
  In p (artifact_paths d fmt n) -> In p (artifact_paths d fmt m) -> False.
Proof.
  intros Hnm Hn Hm. unfold artifact_paths in Hn, Hm.
  cbn [In] in Hn, Hm.
  destruct Hn as [Hn | [Hn | [Hn | [Hn | []]]]];
    destruct Hm as [Hm | [Hm | [Hm | [Hm | []]]]];
    rewrite <- Hm in Hn; clear Hm.
  - now apply slide_image_file_inj in Hn.
  - by_name Hn.
  - symmetry in Hn. now apply padded_not_image in Hn.
  - by_name Hn.
  - by_name Hn.
  - now apply audio_file_inj in Hn.
  - symmetry in Hn. now apply padded_not_audio in Hn.
  - by_name Hn.
  - now apply padded_not_image in Hn.
  - now apply padded_not_audio in Hn.
  - now apply audio_file_padded_inj in Hn.
  - now apply padded_not_video in Hn.
  - by_name Hn.
  - by_name Hn.
  - symmetry in Hn. now apply padded_not_video in Hn.
  - now apply video_file_inj in Hn.
Qed.

Lemma artifact_not_silence (n : Z) (p : str) :
  In p (artifact_paths d fmt n) -> p <> silence_file d.
Proof.
  intros Hn Hp. unfold artifact_paths in Hn. cbn [In] in Hn.
  destruct Hn as [Hn | [Hn | [Hn | [Hn | []]]]]; rewrite Hp in Hn.
  - by_name Hn.
  - by_name Hn.
  - now apply padded_not_silence in Hn.
  - by_name Hn.
Qed.

Lemma artifact_not_concat (n : Z) (p : str) :
  In p (artifact_paths d fmt n) -> p <> concat_file d.
Proof.
  intros Hn Hp. unfold artifact_paths in Hn. cbn [In] in Hn.
  destruct Hn as [Hn | [Hn | [Hn | [Hn | []]]]]; rewrite Hp in Hn.
  - by_name Hn.
  - by_name Hn.
  - now apply padded_not_concat in Hn.
  - by_name Hn.
Qed.

Lemma concat_not_silence : concat_file d <> silence_file d.
Proof. intros H. by_name H. Qed.

(** Every file the run may write lies deeper than the directories. *)
Lemma touched_length (l : list Z) (p : str) :
  touched d fmt l p ->
  (List.length (dir_prefix d) + 11 <= List.length p)%nat.
Proof.
  intros [-> | (n & _ & Hn)].
  - rewrite silence_file_shape, length_app. cbn. lia.
  - unfold artifact_paths in Hn. cbn [In] in Hn.
    destruct Hn as [<- | [<- | [<- | [<- | []]]]].
    + rewrite slide_image_file_shape, !length_app. cbn. lia.
    + rewrite audio_file_shape, !length_app. cbn. lia.
    + rewrite audio_file_padded_shape, !length_app, padded_folder_length.
      cbn. lia.
    + rewrite video_file_shape, !length_app. cbn. lia.
Qed.

End Distinct.

(** ** What a run writes *)

Lemma changes_only_refl (S : str -> Prop) (fs : filesystem) :
  changes_only S fs fs.
Proof. intros p _. reflexivity. Qed.

Lemma changes_only_trans (S : str -> Prop) (fs1 fs2 fs3 : filesystem) :
  changes_only S fs1 fs2 -> changes_only S fs2 fs3 -> changes_only S fs1 fs3.
Proof. intros H12 H23 p Hp. now rewrite (H23 p Hp), (H12 p Hp). Qed.

Lemma changes_only_weaken (S S' : str -> Prop) (fs fs' : filesystem) :
  (forall p, S p -> S' p) -> changes_only S fs fs' -> changes_only S' fs fs'.
Proof. intros HS H p Hp. apply H. intros Hs. apply Hp. now apply HS. Qed.

Lemma changes_only_put (S : str -> Prop) (p : str) (x : node)
  (fs : filesystem) :
  S p -> changes_only S fs (fs_put p x fs).
Proof.
  intros Hp q Hq. unfold fs_put.
  rewrite str_eqb_neq; [ reflexivity | ]. intros ->. contradiction.
Qed.

Lemma changes_only_remove (S : str -> Prop) (p : str) (fs : filesystem) :
  S p -> changes_only S fs (fs_remove p fs).
Proof.
  intros Hp q Hq. unfold fs_remove.
  rewrite str_eqb_neq; [ reflexivity | ]. intros ->. contradiction.
Qed.

Lemma changes_only_output (S : str -> Prop) (p : str) (out : option data)
  (fs : filesystem) :
  S p -> changes_only S fs (fs_output p out fs).
Proof.
  intros Hp. destruct out; simpl;
    [ now apply changes_only_put | apply changes_only_refl ].
Qed.

Section Frame.

Variable a : arguments.
Variable w : world.
Variable mapping : dict.
Variable d : str.
Variable fmt : str.

Lemma encode_clip_frame (n : Z) (st : state) :
  changes_only (of_slide d fmt n) (files st)
    (files (state_of (encode_clip w d fmt n st))).
Proof.
  unfold encode_clip. cbn [state_of leave with_files say append_video files].
  eapply changes_only_trans; apply changes_only_output;
    unfold of_slide, artifact_paths; cbn [In]; auto.
Qed.

Lemma synthesize_frame (k : nat) (n : Z) (text : str) (st : state) :
  changes_only (of_slide d fmt n) (files st)
    (files (state_of (synthesize a w d fmt k n text st))).
Proof.
  assert (forall out st0,
             changes_only (of_slide d fmt n) (files st0)
               (files (leave (audio_file d n) out st0))) as Hleave.
  { intros out st0. cbn [leave with_files files].
    apply changes_only_output. unfold of_slide, artifact_paths.
    cbn [In]. auto. }
  unfold synthesize. destruct (api a).
  - destruct (int (voice a)) as [v | e]; [ | apply changes_only_refl ].
    destruct (speak_sapi w k n v text) as [[[] | e] out].
    + eapply changes_only_trans; [ | apply encode_clip_frame ].
      apply (Hleave out (say (MsgSynthesizing n) st)).
    + apply (Hleave out (say (MsgSynthesizing n) st)).
  - destruct (speak_azure w k n text) as [[| why details |] out].
    + eapply changes_only_trans; [ | apply encode_clip_frame ].
      apply (Hleave out (say (MsgSynthesizing n) st)).
    + destruct why, details; apply (Hleave out (say (MsgSynthesizing n) st)).
    + eapply changes_only_trans; [ | apply encode_clip_frame ].
      apply (Hleave out (say (MsgSynthesizing n) st)).
Qed.

Lemma export_image_frame (n : Z) (st : state) :
  changes_only (of_slide d fmt n) (files st)
    (files (state_of (export_image a w d n st))).
Proof.
  assert (of_slide d fmt n (slide_image_file d n)) as Hin
    by (unfold of_slide, artifact_paths; cbn [In]; auto).
  unfold export_image.
  destruct (files (say (MsgExporting n) st) (slide_image_file d n))
    as [[| content] |].
  - apply changes_only_refl.
  - destruct (export_slide w n (video_width a) (video_height a))
      as [[[] | e] out];
      cbn [state_of leave with_files say files];
      (eapply changes_only_trans;
       [ apply changes_only_remove | apply changes_only_output ]); exact Hin.
  - destruct (export_slide w n (video_width a) (video_height a))
      as [[[] | e] out];
      cbn [state_of leave with_files say files];
      apply changes_only_output; exact Hin.
Qed.

Lemma process_slide_frame (k : nat) (n : Z) (st : state) :
  changes_only (of_slide d fmt n) (files st)
    (files (state_of (process_slide a w mapping d fmt k n st))).
Proof.
  unfold process_slide.
  destruct (notes_text w n) as [t |]; [ | apply changes_only_refl ].
  destruct (no_note_text t); [ apply changes_only_refl | ].
  destruct (apply_mapping mapping (normalize_notes t)) as [text | e];
    [ | apply changes_only_refl ].
  match goal with
  | |- context [export_image a w d n ?s] =>
      pose proof (export_image_frame n s) as He;
      destruct (export_image a w d n s) as [st1 | st1 | e st1]
  end; try exact He.
  eapply changes_only_trans; [ exact He | apply synthesize_frame ].
Qed.

Lemma for_slides_frame (l : list Z) :
  forall k st,
    changes_only (fun p => exists n, In n l /\ of_slide d fmt n p) (files st)
      (files (state_of (for_slides a w mapping d fmt k l st))).
Proof.
  induction l as [| n rest IH]; intros k st.
  - apply changes_only_refl.
  - rewrite loop_cons.
    pose proof (process_slide_frame k n st) as Hb.
    assert (forall p, of_slide d fmt n p ->
                      exists m, In m (n :: rest) /\ of_slide d fmt m p) as Hhere
      by (intros p Hp; exists n; split; [ now left | exact Hp ]).
    destruct (process_slide a w mapping d fmt k n st) as [st1 | st1 | e st1];
      try (eapply changes_only_weaken; [ exact Hhere | exact Hb ]).
    eapply changes_only_trans.
    + eapply changes_only_weaken; [ exact Hhere | exact Hb ].
    + eapply changes_only_weaken; [ | apply IH ].
      intros p (m & Hm & Hp). exists m. split; [ now right | exact Hp ].
Qed.

End Frame.

Lemma prepare_update (a : arguments) (w : world) (fs : filesystem) (d : str) :
  update a = Some d ->
  match prepare a w fs with
  | (Ok (_, temp_dir, l, st), _) =>
      temp_dir = d
      /\ selected a w = l
      /\ changes_only (eq (silence_file d)) fs (files st)
  | (Raise _, st) => files st = fs
  end.
Proof.
  intros Hu. unfold prepare, selected, create_temp_directories. rewrite Hu.
  destruct (load_pronunciation_mapping a w); [ | reflexivity ].
  destruct (match api a with Azure => speech_config w | SAPI => Ok tt end);
    [ | reflexivity ].
  destruct (open_presentation w); [ | reflexivity ].
  destruct (slide_list (slides a) (slides_count w)); [ | reflexivity ].
  repeat split. cbn [leave with_files say files initial].
  now apply changes_only_output.
Qed.

Lemma main_update_frame (a : arguments) (w : world) (fs : filesystem)
  (d : str) :
  update a = Some d ->
  changes_only (touched d (container_format (output a)) (selected a w))
    fs (files (snd (main a w fs))).
Proof.
  intros Hu. unfold main. pose proof (prepare_update a w fs d Hu) as Hp.
  destruct (prepare a w fs) as [[[[[mapping temp_dir] l] st0] | e] st].
  - destruct Hp as (-> & -> & Hs).
    pose proof (for_slides_frame a w mapping d (container_format (output a))
                  l O st0) as Hl.
    assert (changes_only (touched d (container_format (output a)) l)
              fs (files (state_of
                           (for_slides a w mapping d
                              (container_format (output a)) O l st0)))) as H.
    { eapply changes_only_trans.
      - eapply changes_only_weaken; [ | exact Hs ]. intros p <-. now left.
      - eapply changes_only_weaken; [ | exact Hl ].
        intros p Hp. now right. }
    destruct (for_slides a w mapping d (container_format (output a)) O l st0)
      as [st1 | st1 | e st1]; rewrite ?finish_raises; exact H.
  - cbn [snd]. rewrite Hp. apply changes_only_refl.
Qed.

Lemma dir_prefix_length (d : str) :
  (List.length d <= List.length (dir_prefix d))%nat.
Proof.
  unfold dir_prefix. destruct d as [| c r]; [ simpl; lia | ].
  destruct (bare_drive (c :: r) || is_sep (last r c));
    rewrite ?length_app; simpl; lia.
Qed.

Lemma final_assembly_update (a : arguments) (w : world) (d : str)
  (st : state) :
  update a <> None ->
  changes_only (eq (output a)) (files st)
    (files (snd (final_assembly a w d st))).
Proof.
  intros Hu. unfold final_assembly.
  destruct (slide_videos st); [ apply changes_only_refl | ].
  destruct (update a); [ | contradiction ].
  cbn [snd say leave with_files files].
  now apply changes_only_output.
Qed.

Lemma final_assembly_fresh (a : arguments) (w : world) (d : str)
  (st : state) :
  update a = None -> slide_videos st <> [] -> output a <> concat_file d ->
  files (snd (final_assembly a w d st)) (concat_file d)
  = Some (File (manifest (slide_videos st))).
Proof.
  intros Hu Hv Ho. unfold final_assembly.
  destruct (slide_videos st) as [| v vs] eqn:E; [ contradiction | ].
  rewrite Hu. cbn [snd say leave with_files files].
  rewrite (changes_only_output (eq (output a)) (output a) _ _ eq_refl)
    by exact Ho.
  cbn [fs_output]. unfold fs_put. now rewrite str_eqb_refl.
Qed.

(** C7. In update mode the run creates no directory; it changes no file
    but the silence file and the image, audio, padded audio and clip of
    the selected slides, each at the path its index gives; so the
    manifest, the files of every slide that is not selected, the working
    directory and its three subdirectories are after the run what they
    were before it. This does not rest on the run stopping at line 154:
    the lines after it (157-174), from whatever state they start, write
    the output file and in update mode nothing else, so the manifest
    test of line 164 keeps the manifest; without [--update] the same
    lines write the manifest of the recorded clips. *)
Theorem update_mode_keeps_other_files (a : arguments) (w : world)
  (fs : filesystem) (d : str) :
  update a = Some d ->
  let fmt := container_format (output a) in
  let after := files (snd (main a w fs)) in
  let assembled :=
    files (snd (final_assembly a w d (snd (main a w fs)))) in
  (forall st, create_temp_directories a w st = (Ok d, st))
  /\ (forall p, ~ touched d fmt (selected a w) p -> after p = fs p)
  /\ after (concat_file d) = fs (concat_file d)
  /\ (forall m p,
         ~ In m (selected a w) -> In p (artifact_paths d fmt m) ->
         after p = fs p)
  /\ (forall p,
         In p [d; slide_folder d; audio_folder d; video_folder d] ->
         after p = fs p)
  /\ (forall st,
         finish a w d st =
         match args_quitppt a with
         | Raise e => (Uncaught e, st)
         | Ok _ => final_assembly a w d st
         end)
  /\ (forall st p,
         p <> output a ->
         files (snd (final_assembly a w d st)) p = files st p)
  /\ (forall p,
         ~ touched d fmt (selected a w) p -> p <> output a ->
         assembled p = fs p)
  /\ (output a <> concat_file d ->
      assembled (concat_file d) = fs (concat_file d))
  /\ (forall a' st,
         update a' = None -> slide_videos st <> [] ->
         output a' <> concat_file d ->
         files (snd (final_assembly a' w d st)) (concat_file d)
         = Some (File (manifest (slide_videos st)))).
Proof.
  intros Hu fmt after assembled.
  pose proof (main_update_frame a w fs d Hu) as Hframe.
  fold fmt in Hframe. fold after in Hframe.
  assert (~ In "."%char fmt) as Hdot by apply container_format_no_dot.
  assert (update a <> None) as Hsome by (rewrite Hu; discriminate).
  assert (after (concat_file d) = fs (concat_file d)) as Hmanifest.
  { apply Hframe. intros [H | (n & _ & Hn)].
    - now apply concat_not_silence in H.
    - now apply artifact_not_concat in Hn. }
  assert (forall st p, p <> output a ->
            files (snd (final_assembly a w d st)) p = files st p) as Hlast.
  { intros st p Hp. apply (final_assembly_update a w d st Hsome).
    intros Heq. now apply Hp. }
  repeat match goal with |- _ /\ _ => split end.
  - intros st. unfold create_temp_directories. now rewrite Hu.
  - exact Hframe.
  - exact Hmanifest.
  - intros m p Hm Hp. apply Hframe. intros [H | (n & Hn & Hnp)].
    + now apply (artifact_not_silence d fmt m p Hp).
    + apply (artifacts_disjoint d fmt Hdot n m p); try assumption.
      intros ->. contradiction.
  - intros p Hp. apply Hframe. intros Ht.
    apply touched_length in Ht.
    pose proof (dir_prefix_length d) as Hd.
    cbn [In] in Hp.
    destruct Hp as [<- | [<- | [<- | [<- | []]]]];
      unfold slide_folder, audio_folder, video_folder in Ht;
      rewrite ?join_prefix, ?length_app in Ht; cbn in Ht; lia.
  - reflexivity.
  - exact Hlast.
  - intros p Ht Hp. unfold assembled. rewrite (Hlast _ p Hp).
    now apply Hframe.
  - intros Ho. unfold assembled.
    rewrite (Hlast _ (concat_file d)) by (intros E; now apply Ho).
    exact Hmanifest.
  - intros a' st. apply final_assembly_fresh.
Qed.

Lemma update_mode_keeps_other_files_witness :
  let a := sample_arguments (Some (lit "3")) Azure (Some old_directory) in
  let w := sample_world [lit "one"; lit "two"; lit "three"; lit "four";
                         lit "five"] None [] in
  let run := snd (main a w previous_run) in
  let after := files run in
  let assembled := files (snd (final_assembly a w old_directory run)) in
  selected a w = [3]
  /\ slide_videos run = [video_file old_directory (lit "mp4") 3]
  /\ previous_run (video_file old_directory (lit "mp4") 3)
     = Some (File (lit "old"))
  /\ after (video_file old_directory (lit "mp4") 3)
     = Some (File (lit "ftyp"))
  /\ after (slide_image_file old_directory 3) = Some (File (lit "PNG"))
  /\ (forall m, In m [1; 2; 4; 5] ->
                forall p, In p (artifact_paths old_directory (lit "mp4") m) ->
                          after p = Some (File (lit "old"))
                          /\ assembled p = Some (File (lit "old")))
  /\ after (concat_file old_directory) = Some (File old_manifest)
  /\ assembled (concat_file old_directory) = Some (File old_manifest)
  /\ assembled (output a) = Some (File (lit "ftyp"))
  /\ (forall p, In p (directories old_directory) ->
                after p = Some Directory)
  /\ files (snd (final_assembly
                   (sample_arguments (Some (lit "3")) Azure None) w
                   old_directory run))
           (concat_file old_directory)
     = Some (File (manifest [video_file old_directory (lit "mp4") 3])).
Proof.
  intros a w run after assembled.
  destruct (update_mode_keeps_other_files a w previous_run old_directory
              eq_refl)
    as (_ & _ & Hc & Hm & Hd & _ & _ & Ha & Hca & Hfresh).
  fold run in Ha, Hca. fold after in Hc, Hm, Hd. fold assembled in Ha, Hca.
  split; [ reflexivity | ].
  split; [ vm_compute; reflexivity | ].
  split; [ vm_compute; reflexivity | ].
  split; [ vm_compute; reflexivity | ].
  split; [ vm_compute; reflexivity | ].
  split; [ | split; [ | split; [ | split; [ vm_compute; reflexivity | split ] ] ] ].
  - intros m Hin p Hp.
    assert (~ In m (selected a w)) as Hout
      by (cbn [In] in Hin; intros [<- | []]; intuition discriminate).
    assert (previous_run p = Some (File (lit "old"))) as Hold.
    { cbn [In] in Hin.
      destruct Hin as [<- | [<- | [<- | [<- | []]]]];
        cbn [In artifact_paths] in Hp;
        destruct Hp as [<- | [<- | [<- | [<- | []]]]];
        vm_compute; reflexivity. }
    split.
    + rewrite <- Hold. exact (Hm m p Hout Hp).
    + rewrite <- Hold. apply Ha.
      * intros [H | (n & Hn & Hnp)].
        -- now apply (artifact_not_silence old_directory (lit "mp4") m p Hp).
        -- assert (~ In "."%char (lit "mp4")) as Hdot
             by (vm_compute; intuition discriminate).
           apply (artifacts_disjoint old_directory (lit "mp4") Hdot n m p);
             try assumption.
           intros ->. contradiction.
      * cbn [In] in Hin.
        destruct Hin as [<- | [<- | [<- | [<- | []]]]];
          cbn [In artifact_paths] in Hp;
          destruct Hp as [<- | [<- | [<- | [<- | []]]]];
          vm_compute; discriminate.
  - etransitivity; [ exact Hc | reflexivity ].
  - etransitivity; [ apply Hca; vm_compute; discriminate | reflexivity ].
  - intros p Hp. etransitivity; [ exact (Hd p Hp) | ].
    cbn [In directories] in Hp.
    destruct Hp as [<- | [<- | [<- | [<- | []]]]]; vm_compute; reflexivity.
  - apply Hfresh; [ reflexivity | vm_compute; discriminate
                  | vm_compute; discriminate ].
Defined.

(** * Further properties of the script *)

(** ** The digit limit of the interpreter *)

Lemma digit_value_nonneg (c : ascii) (d : Z) :
  digit_value c = Some d -> 0 <= d.
Proof.
  unfold digit_value. destruct (in_range 48 57 c); [ | discriminate ].
  intros H. injection H as <-. lia.
Qed.

Lemma int_digits_nonneg (s : str) :
  forall acc prev n, 0 <= acc -> int_digits acc prev s = Some n -> 0 <= n.
Proof.
  induction s as [| c r IH]; intros acc prev n Hacc; cbn [int_digits].
  - destruct prev; [ | discriminate ]. intros H. injection H as <-. exact Hacc.
  - destruct (digit_value c) as [d |] eqn:Ed.
    + apply digit_value_nonneg in Ed. apply IH. lia.
    + destruct (Ascii.eqb c "_" && prev); [ now apply IH | discriminate ].
Qed.

Lemma digit_value_digit (c : ascii) (d : Z) :
  digit_value c = Some d -> in_range 48 57 c = true /\ d <= 9.
Proof.
  unfold digit_value. destruct (in_range 48 57 c) eqn:E; [ | discriminate ].
  intros H. injection H as <-. split; [ reflexivity | ].
  unfold in_range in E. apply andb_true_iff in E. destruct E as [_ E].
  apply Nat.leb_le in E. lia.
Qed.

Lemma count_digits_cons (c : ascii) (s : str) :
  count_digits (c :: s)
  = (if in_range 48 57 c then 1 else 0) + count_digits s.
Proof.
  unfold count_digits. cbn [filter].
  destruct (in_range 48 57 c); cbn [List.length]; lia.
Qed.

Lemma count_digits_nonneg (s : str) : 0 <= count_digits s.
Proof. unfold count_digits. lia. Qed.

Lemma int_digits_bound (s : str) :
  forall acc prev n,
    0 <= acc -> int_digits acc prev s = Some n ->
    n < (acc + 1) * 10 ^ count_digits s.
Proof.
  induction s as [| c r IH]; intros acc prev n Hacc; cbn [int_digits].
  - destruct prev; [ | discriminate ]. intros H. injection H as <-.
    change (count_digits []) with 0. lia.
  - rewrite count_digits_cons. pose proof (count_digits_nonneg r) as Hr.
    destruct (digit_value c) as [d |] eqn:Ed.
    + pose proof (digit_value_nonneg c d Ed) as Hd.
      apply digit_value_digit in Ed. destruct Ed as [-> Hd9].
      intros H. apply IH in H; [ | lia ].
      rewrite Z.pow_add_r by lia. change (10 ^ 1) with 10.
      assert (0 < 10 ^ count_digits r) as Hpos by (apply Z.pow_pos_nonneg; lia).
      nia.
    + destruct (Ascii.eqb c "_" && prev); [ | discriminate ].
      intros H. apply IH in H; [ | lia ].
      destruct (in_range 48 57 c); [ | exact H ].
      rewrite Z.pow_add_r by lia. change (10 ^ 1) with 10.
      assert (0 < 10 ^ count_digits r) as Hpos by (apply Z.pow_pos_nonneg; lia).
      nia.
Qed.

Lemma int_digits_printable (body : str) (n sign : Z) :
  int_digits 0 false body = Some n ->
  (int_max_str_digits <? count_digits body) = false ->
  sign = 1 \/ sign = -1 ->
  printable (sign * n).
Proof.
  intros H Hlimit Hsign. unfold printable.
  pose proof (int_digits_nonneg body 0 false n (Z.le_refl 0) H) as Hn.
  apply int_digits_bound in H; [ | lia ].
  apply Z.ltb_ge in Hlimit.
  assert (10 ^ count_digits body <= 10 ^ int_max_str_digits) as Hpow
    by (apply Z.pow_le_mono_r; [ lia | exact Hlimit ]).
  revert Hpow H. generalize (10 ^ count_digits body).
  generalize (10 ^ int_max_str_digits). intros L z Hz H.
  destruct Hsign as [-> | ->]; lia.
Qed.

Lemma int_printable (s : str) (n : Z) : int s = Ok n -> printable n.
Proof.
  unfold int.
  destruct (rev (dropwhile int_space (rev (dropwhile int_space s))))
    as [| c r].
  - discriminate.
  - destruct (Ascii.eqb c "-"); [ | destruct (Ascii.eqb c "+") ];
      match goal with
      | |- context [int_digits 0 false ?b] =>
          destruct (int_digits 0 false b) as [m |] eqn:E; [ | discriminate ];
          destruct (int_max_str_digits <? count_digits b) eqn:El;
          [ discriminate | ]
      end;
      intros H; injection H as H; rewrite <- H.
    + exact (int_digits_printable r m (-1) E El (or_intror eq_refl)).
    + exact (int_digits_printable r m 1 E El (or_introl eq_refl)).
    + exact (int_digits_printable (c :: r) m 1 E El (or_introl eq_refl)).
Qed.

(** ** More on the slide selector *)

Lemma dropwhile_incl (p : ascii -> bool) (s : str) (c : ascii) :
  In c (dropwhile p s) -> In c s.
Proof.
  induction s as [| x r IH]; simpl; [ tauto | ].
  destruct (p x); [ auto | tauto ].
Qed.

Lemma int_nonneg (s : str) (n : Z) :
  ~ In "-"%char s -> int s = Ok n -> 0 <= n.
Proof.
  intros Hs. unfold int.
  set (t := rev (dropwhile int_space (rev (dropwhile int_space s)))).
  assert (forall c, In c t -> In c s) as Hin.
  { intros c Hc. unfold t in Hc. apply in_rev in Hc.
    apply dropwhile_incl in Hc. apply in_rev in Hc.
    now apply dropwhile_incl in Hc. }
  destruct t as [| c r].
  - discriminate.
  - destruct (Ascii.eqb_spec c "-") as [-> | _].
    + exfalso. apply Hs, Hin. now left.
    + destruct (Ascii.eqb c "+").
      * destruct (int_digits 0 false r) as [m |] eqn:E; [ | discriminate ].
        destruct (int_max_str_digits <? count_digits r); [ discriminate | ].
        apply int_digits_nonneg in E; [ | lia ].
        intros H. injection H as <-. destruct m; lia.
      * destruct (int_digits 0 false (c :: r)) as [m |] eqn:E;
          [ | discriminate ].
        destruct (int_max_str_digits <? count_digits (c :: r));
          [ discriminate | ].
        apply int_digits_nonneg in E; [ | lia ].
        intros H. injection H as <-. destruct m; lia.
Qed.

Lemma split_pieces (sep : ascii) (s : str) :
  Forall (fun p => ~ In sep p) (split sep s).
Proof.
  induction s as [| c r IH]; simpl.
  - repeat constructor. tauto.
  - destruct (Ascii.eqb_spec c sep) as [-> | Hc].
    + constructor; [ simpl; tauto | exact IH ].
    + destruct (split sep r) as [| p ps]; [ repeat constructor; simpl | ].
      * intros [H | []]. now apply Hc.
      * inversion IH as [| ? ? Hp Hps]; subst.
        constructor; [ | exact Hps ].
        intros [H | H]; [ now apply Hc | now apply Hp ].
Qed.

Lemma contains_false (c : ascii) (s : str) :
  contains c s = false -> ~ In c s.
Proof.
  unfold contains. intros H Hin.
  assert (existsb (Ascii.eqb c) s = true) as E
    by (apply existsb_exists; exists c; split;
        [ exact Hin | apply Ascii.eqb_refl ]).
  congruence.
Qed.

Lemma token_selects_nonneg (i : str) (part : list Z) :
  token_selects i part -> Forall (fun k => 0 <= k) part.
Proof.
  intros [a b start stop Hc Hs Ha Hb [_ Hp] | n Hc Hn ->].
  - pose proof (split_pieces "-" i) as Hf. rewrite Hs in Hf.
    inversion Hf as [| ? ? Hfa _]; subst.
    apply (int_nonneg a start Hfa) in Ha.
    apply Forall_forall. intros k Hk. apply Hp in Hk. lia.
  - constructor; [ | constructor ].
    apply (int_nonneg i n); [ now apply contains_false | exact Hn ].
Qed.

(** X2. The selector never returns a negative index: a dash is always
    taken for the range sign, so every index it returns is 0 or above
    (it can be 0, which is not a slide, and it can be above the number of
    slides). *)
Theorem selected_indices_not_negative (s : str) (count : Z) (l : list Z) :
  slide_list (Some s) count = Ok l -> Forall (fun k => 0 <= k) l.
Proof.
  intros H. simpl in H. apply bind_ok in H. destruct H as (l0 & H0 & H).
  injection H as <-.
  apply select_tokens_selects in H0. destruct H0 as (parts & Hparts & ->).
  eapply Permutation_Forall; [ symmetry; apply sorted_perm | ].
  simpl. apply Forall_concat.
  clear - Hparts. induction Hparts as [| i part rest parts Hi _ IH];
    constructor; [ now apply (token_selects_nonneg i) | exact IH ].
Qed.

Lemma selected_indices_not_negative_witness :
  slide_list (Some (lit "7, 0, 2-3")) 5 = Ok [0; 2; 3; 7]
  /\ Forall (fun k => 0 <= k) [0; 2; 3; 7].
Proof.
  split; [ reflexivity | ].
  apply (selected_indices_not_negative (lit "7, 0, 2-3") 5). reflexivity.
Defined.

Lemma count_digits_dropwhile (s : str) :
  count_digits (dropwhile int_space s) = count_digits s.
Proof.
  induction s as [| c r IH]; [ reflexivity | ]. cbn [dropwhile].
  destruct (int_space c) eqn:E; [ | reflexivity ].
  rewrite IH, count_digits_cons.
  assert (negb (int_space c && in_range 48 57 c) = true) as Hn
    by (clear; revert c; apply every_ascii; vm_compute; reflexivity).
  rewrite E in Hn. now destruct (in_range 48 57 c).
Qed.

Lemma count_digits_rev (s : str) : count_digits (rev s) = count_digits s.
Proof.
  unfold count_digits. f_equal.
  induction s as [| c r IH]; [ reflexivity | ]. cbn [rev filter].
  rewrite filter_app, length_app, IH. cbn [filter].
  destruct (in_range 48 57 c); cbn [List.length]; lia.
Qed.

(** A string with more digits than the limit allows is not read,
    whatever else it holds. *)
Lemma int_refuses_long_numbers (s : str) :
  int_max_str_digits < count_digits s -> int s = Raise ValueError.
Proof.
  intros H. unfold int.
  assert (count_digits
            (rev (dropwhile int_space (rev (dropwhile int_space s))))
          = count_digits s) as Ht
    by now rewrite count_digits_rev, count_digits_dropwhile,
                   count_digits_rev, count_digits_dropwhile.
  destruct (rev (dropwhile int_space (rev (dropwhile int_space s))))
    as [| c r].
  - reflexivity.
  - assert (count_digits r = count_digits s
            \/ in_range 48 57 c = true) as Hr.
    { rewrite count_digits_cons in Ht.
      destruct (in_range 48 57 c); [ now right | now left ]. }
    assert ((int_max_str_digits <? count_digits (c :: r)) = true) as Hall
      by (apply Z.ltb_lt; lia).
    destruct (Ascii.eqb_spec c "-") as [-> | _];
      [ | destruct (Ascii.eqb_spec c "+") as [-> | _] ].
    + destruct Hr as [Hr | Hr]; [ | discriminate Hr ].
      destruct (int_digits 0 false r); [ | reflexivity ].
      assert ((int_max_str_digits <? count_digits r) = true) as ->
        by (apply Z.ltb_lt; lia).
      reflexivity.
    + destruct Hr as [Hr | Hr]; [ | discriminate Hr ].
      destruct (int_digits 0 false r); [ | reflexivity ].
      assert ((int_max_str_digits <? count_digits r) = true) as ->
        by (apply Z.ltb_lt; lia).
      reflexivity.
    + destruct (int_digits 0 false (c :: r)); [ | reflexivity ].
      now rewrite Hall.
Qed.

Lemma token_selects_printable (i : str) (part : list Z) :
  token_selects i part -> Forall printable part.
Proof.
  intros Ht. pose proof (token_selects_nonneg i part Ht) as Hpos.
  destruct Ht as [a b start stop Hc Hs Ha Hb [_ Hp] | n Hc Hn ->].
  - apply int_printable in Hb. unfold printable in *.
    apply Forall_forall. intros k Hk.
    pose proof (proj1 (Forall_forall _ _) Hpos k Hk) as Hk0.
    apply Hp in Hk. simpl in Hk0. lia.
  - constructor; [ now apply (int_printable i) | constructor ].
Qed.

(** X1. Every index the selector returns is one the interpreter can
    print: read from a selection string it has no more than 4300 digits,
    since [int] reads no longer number and a range ends where its second
    number does; taken from the presentation it is at most the number of
    slides. So writing a slide index into a file name never fails on the
    digit limit of [str]. *)
Theorem selected_indices_can_be_printed (sel : option str) (count : Z)
  (l : list Z) :
  printable count -> slide_list sel count = Ok l -> Forall printable l.
Proof.
  intros Hcount H. destruct sel as [s |].
  - simpl in H. apply bind_ok in H. destruct H as (l0 & H0 & H).
    injection H as <-.
    apply select_tokens_selects in H0. destruct H0 as (parts & Hparts & ->).
    eapply Permutation_Forall; [ symmetry; apply sorted_perm | ].
    simpl. apply Forall_concat.
    clear - Hparts. induction Hparts as [| i part rest parts Hi _ IH];
      constructor; [ now apply (token_selects_printable i) | exact IH ].
  - simpl in H. injection H as <-. unfold printable in *.
    apply Forall_forall. intros k Hk. apply range_in in Hk. lia.
Qed.

Lemma selected_indices_can_be_printed_witness :
  printable 5
  /\ slide_list (Some (lit "7, 0, 2-3")) 5 = Ok [0; 2; 3; 7]
  /\ Forall printable [0; 2; 3; 7]
  /\ int (repeat "1"%char (Z.to_nat int_max_str_digits + 1))
     = Raise ValueError.
Proof.
  assert (printable 5) as H5 by (vm_compute; reflexivity).
  split; [ exact H5 | split; [ reflexivity | split ] ].
  - apply (selected_indices_can_be_printed (Some (lit "7, 0, 2-3")) 5);
      [ exact H5 | reflexivity ].
  - vm_compute. reflexivity.
Defined.

Lemma int_raises_value_error (s : str) (e : exn) :
  int s = Raise e -> e = ValueError.
Proof.
  unfold int.
  destruct (rev (dropwhile int_space (rev (dropwhile int_space s))))
    as [| c r].
  - simpl. intros H. now injection H.
  - destruct (Ascii.eqb c "-"); [ | destruct (Ascii.eqb c "+") ];
      match goal with
      | |- context [int_digits 0 false ?b] =>
          destruct (int_digits 0 false b);
          [ destruct (int_max_str_digits <? count_digits b) | ]
      end; intros H; try discriminate; now injection H.
Qed.

Lemma select_token_raises_value_error (acc : list Z) (i : str) (e : exn) :
  select_token acc i = Raise e -> e = ValueError.
Proof.
  unfold select_token. destruct (contains "-" i).
  - destruct (split "-" i) as [| a [| b [| c r]]];
      try (intros H; now injection H).
    destruct (int a) as [x |] eqn:Ea; simpl.
    + destruct (int b) as [y |] eqn:Eb; simpl; [ discriminate | ].
      intros H. injection H as <-. now apply (int_raises_value_error b).
    + intros H. injection H as <-. now apply (int_raises_value_error a).
  - destruct (int i) as [x |] eqn:Ei; simpl; [ discriminate | ].
    intros H. injection H as <-. now apply (int_raises_value_error i).
Qed.

Lemma select_tokens_bad (tokens : list str) :
  Exists (fun i => forall acc, select_token acc i = Raise ValueError) tokens ->
  forall acc, select_tokens acc tokens = Raise ValueError.
Proof.
  induction 1 as [i rest Hi | i rest _ IH]; intros acc; simpl.
  - now rewrite Hi.
  - destruct (select_token acc i) as [acc' | e] eqn:E; simpl; [ apply IH | ].
    f_equal. now apply (select_token_raises_value_error acc i).
Qed.

Lemma int_empty : int [] = Raise ValueError.
Proof. reflexivity. Qed.

Lemma count_char_contains (c : ascii) (s : str) :
  (1 <= count_char c s)%nat -> contains c s = true.
Proof.
  unfold count_char, contains. induction s as [| x r IH]; simpl; [ lia | ].
  destruct (Ascii.eqb c x); simpl; [ reflexivity | exact IH ].
Qed.

Lemma select_token_unreadable (acc : list Z) (i : str) :
  unreadable_range i -> select_token acc i = Raise ValueError.
Proof.
  intros [Hh | Hc]; unfold select_token.
  - destruct i as [| c r]; [ discriminate | ]. injection Hh as ->.
    change (contains "-" ("-"%char :: r)) with true.
    change (split "-" ("-"%char :: r)) with ([] :: split "-" r).
    destruct (split "-" r) as [| b [| b' r']]; reflexivity.
  - rewrite count_char_contains by lia.
    pose proof (split_length "-" i) as Hl.
    destruct (split "-" i) as [| a [| b [| c r]]]; try reflexivity.
    simpl in Hl. lia.
Qed.

(** X3. A selection token that begins with a dash (a negative number,
    an open range such as "-3") or holds two dashes or more ("1-2-3",
    "1--3") makes the selector raise [ValueError], wherever it stands in
    the selection string. *)
Theorem unreadable_range_raises (s : str) (count : Z) :
  Exists unreadable_range (map strip (split "," s)) ->
  slide_list (Some s) count = Raise ValueError.
Proof.
  intros H. simpl. rewrite select_tokens_bad; [ reflexivity | ].
  eapply Exists_impl; [ | exact H ].
  intros i Hi acc. now apply select_token_unreadable.
Qed.

Lemma unreadable_range_raises_witness :
  slide_list (Some (lit "1, -3")) 5 = Raise ValueError
  /\ slide_list (Some (lit "1-2-3")) 5 = Raise ValueError.
Proof.
  split.
  - apply (unreadable_range_raises (lit "1, -3") 5).
    right. left. left. reflexivity.
  - apply (unreadable_range_raises (lit "1-2-3") 5).
    left. right. vm_compute. lia.
Defined.

(** ** More on the pronunciation table *)

Lemma dict_set_keys (k v x : str) (d : dict) :
  In x (map fst (dict_set k v d)) -> x = k \/ In x (map fst d).
Proof.
  induction d as [| [k' v'] r IH]; simpl.
  - intros [<- | []]. now left.
  - destruct (str_eqb k k'); simpl.
    + intros [<- | H]; auto.
    + intros [<- | H]; auto. destruct (IH H); auto.
Qed.

Lemma dict_set_nodup (k v : str) (d : dict) :
  NoDup (map fst d) -> NoDup (map fst (dict_set k v d)).
Proof.
  induction d as [| [k' v'] r IH]; simpl; intros H.
  - repeat constructor. tauto.
  - inversion H as [| ? ? Hk Hr]; subst.
    destruct (str_eqb k k') eqn:E; simpl.
    + apply str_eqb_eq in E. subst k'. now constructor.
    + constructor; [ | now apply IH ].
      intros Hin. apply dict_set_keys in Hin. destruct Hin as [-> | Hin].
      * now rewrite str_eqb_refl in E.
      * contradiction.
Qed.

Lemma load_lines_nodup (ls : list str) :
  forall d d',
    NoDup (map fst d) -> load_lines d ls = Ok d' -> NoDup (map fst d').
Proof.
  induction ls as [| line rest IH]; intros d d' Hd; simpl.
  - intros H. now injection H as <-.
  - intros H. apply bind_ok in H. destruct H as (d1 & H1 & H).
    unfold load_line in H1.
    destruct (split "=" (strip line)) as [| x [| y [| z r]]];
      try discriminate.
    injection H1 as <-. eapply IH; [ | exact H ]. now apply dict_set_nodup.
Qed.

Lemma lstrip_blank_app (l s : str) :
  forallb isspace l = true -> lstrip (l ++ s) = lstrip s.
Proof. intros H. unfold lstrip. now rewrite dropwhile_app, H. Qed.

Lemma rstrip_app_blank (s r : str) :
  forallb isspace r = true -> rstrip (s ++ r) = rstrip s.
Proof.
  intros H. unfold rstrip.
  now rewrite rev_app_distr, dropwhile_app, forallb_rev, H.
Qed.

Lemma strip_blank_around (l s r : str) :
  forallb isspace l = true -> forallb isspace r = true ->
  strip (l ++ s ++ r) = strip s.
Proof.
  intros Hl Hr. unfold strip.
  now rewrite lstrip_blank_app, <- lstrip_rstrip, rstrip_app_blank,
              lstrip_rstrip.
Qed.

Lemma forallb_isspace_lower (s : str) :
  forallb isspace (lower s) = forallb isspace s.
Proof.
  unfold lower. induction s as [| c r IH]; [ reflexivity | ].
  simpl. now rewrite isspace_lower_char, IH.
Qed.

Lemma same_letters_lower (x y : str) :
  Forall2 (fun c c' => same_letter c c' = true) x y -> lower x = lower y.
Proof.
  induction 1 as [| c c' x y Hc _ IH]; [ reflexivity | ].
  unfold lower in *. simpl. rewrite IH. f_equal.
  unfold same_letter in Hc. now apply Ascii.eqb_eq.
Qed.

Lemma same_word_key (x x' : str) :
  same_word x x' -> strip (lower x) = strip (lower x').
Proof.
  intros (l & core & r & l' & core' & r' & -> & -> & Hb & Hc).
  rewrite !forallb_app in Hb.
  apply andb_true_iff in Hb. destruct Hb as [Hl Hb].
  apply andb_true_iff in Hb. destruct Hb as [Hr Hb].
  apply andb_true_iff in Hb. destruct Hb as [Hl' Hr'].
  unfold lower. rewrite !map_app. fold (lower l) (lower core) (lower r).
  fold (lower l') (lower core') (lower r').
  rewrite !strip_blank_around by now rewrite forallb_isspace_lower.
  now rewrite (same_letters_lower core core' Hc).
Qed.

Lemma load_lines_has_word (ls : list str) (line : str) :
  forall d d',
    load_lines d ls = Ok d' ->
    (In line ls \/ In (line_word line) (map fst d)) ->
    In (line_word line) (map fst d').
Proof.
  induction ls as [| l0 rest IH]; intros d d'; simpl.
  - intros H [[] | Hin]. now injection H as <-.
  - intros H Hin. apply bind_ok in H. destruct H as (d1 & H1 & H).
    apply (IH d1 d' H). unfold load_line in H1.
    destruct (split "=" (strip l0)) as [| x [| y [| z r]]] eqn:E;
      try discriminate.
    injection H1 as <-.
    destruct Hin as [[-> | Hin] | Hin]; [ right | now left | right ].
    + assert (line_word line = strip (lower x)) as ->
        by (unfold line_word; now rewrite E).
      apply dict_set_key.
    + now apply dict_set_keeps.
Qed.

Lemma one_entry_per_key (d : dict) (k k' : str) :
  NoDup (map fst d) -> In k (map fst d) -> k' = k ->
  exists v, entries_for [k; k'] d = [(k, v)].
Proof.
  intros Hnd Hin ->. unfold entries_for.
  induction d as [| [k0 v0] r IH]; [ contradiction | ].
  simpl in Hnd, Hin. inversion Hnd as [| ? ? Hk Hr]; subst.
  cbn [filter existsb fst]. rewrite orb_false_r, orb_diag.
  destruct (str_eqb k0 k) eqn:E.
  - apply str_eqb_eq in E. subst k0. exists v0. f_equal.
    clear - Hk. induction r as [| [k1 v1] r IH]; [ reflexivity | ].
    cbn [filter existsb fst]. rewrite orb_false_r, orb_diag.
    destruct (str_eqb k1 k) eqn:E.
    + apply str_eqb_eq in E. subst k1. exfalso. apply Hk. now left.
    + apply IH. intros H. apply Hk. now right.
  - destruct Hin as [-> | Hin]; [ now rewrite str_eqb_refl in E | ].
    now apply IH.
Qed.

(** X4. The loaded table never holds a word twice: two lines of the file
    whose words are the same, letter case and surrounding whitespace
    apart, share one entry, the only one under their word. *)
Theorem loaded_words_are_distinct (text : str) (d : dict)
  (line line' : str) :
  load_mapping text = Ok d ->
  In line (file_lines text) -> In line' (file_lines text) ->
  same_word (written_word line) (written_word line') ->
  NoDup (map fst d)
  /\ exists v,
       entries_for [line_word line; line_word line'] d
       = [(line_word line, v)].
Proof.
  intros H Hl Hl' Hsame.
  assert (NoDup (map fst d)) as Hnd
    by (apply (load_lines_nodup (file_lines text) [] d);
        [ constructor | exact H ]).
  split; [ exact Hnd | ].
  apply one_entry_per_key; [ exact Hnd | | ].
  - apply (load_lines_has_word (file_lines text) line [] d H). now left.
  - symmetry. apply same_word_key. exact Hsame.
Qed.

Lemma loaded_words_are_distinct_witness :
  let text := lit "FDAT=effdutt" ++ [LF] ++ lit " fdat = eff-dat" ++ [LF]
              ++ lit "SQL=sequel" in
  file_lines text
  = [lit "FDAT=effdutt" ++ [LF]; lit " fdat = eff-dat" ++ [LF];
     lit "SQL=sequel"]
  /\ load_mapping text
     = Ok [(lit "fdat", lit "eff-dat"); (lit "sql", lit "sequel")]
  /\ exists v,
       entries_for [lit "fdat"; lit "fdat"]
         [(lit "fdat", lit "eff-dat"); (lit "sql", lit "sequel")]
       = [(lit "fdat", v)].
Proof.
  intros text. split; [ reflexivity | split; [ reflexivity | ] ].
  apply (loaded_words_are_distinct text
           [(lit "fdat", lit "eff-dat"); (lit "sql", lit "sequel")]
           (lit "FDAT=effdutt" ++ [LF]) (lit " fdat = eff-dat" ++ [LF])).
  - reflexivity.
  - now left.
  - right. now left.
  - exists [], (lit "FDAT"), [], [], (lit "fdat"), (lit " ").
    split; [ reflexivity | split; [ reflexivity | split ] ].
    + reflexivity.
    + repeat constructor.
Defined.

Lemma dict_set_has (k v : str) (d : dict) : In (k, v) (dict_set k v d).
Proof.
  induction d as [| [k' v'] r IH]; simpl; [ now left | ].
  destruct (str_eqb k k'); simpl; auto.
Qed.

Lemma dict_set_other (k v k' v' : str) (d : dict) :
  k' <> k -> In (k', v') d -> In (k', v') (dict_set k v d).
Proof.
  intros Hk. induction d as [| [k0 v0] r IH]; simpl; [ tauto | ].
  destruct (str_eqb k k0) eqn:E; simpl.
  - apply str_eqb_eq in E. subst k0.
    intros [H | H]; [ injection H as <- _; contradiction | now right ].
  - intros [H | H]; auto.
Qed.

Lemma load_lines_app (l1 l2 : list str) :
  forall d,
    load_lines d (l1 ++ l2) = (d' <- load_lines d l1 ;; load_lines d' l2).
Proof.
  induction l1 as [| line rest IH]; intros d; simpl; [ reflexivity | ].
  destruct (load_line d line); simpl; [ apply IH | reflexivity ].
Qed.

Lemma load_lines_keeps (ls : list str) (k v : str) :
  (forall line e, In line ls -> entry_of line e -> fst e <> k) ->
  forall d d',
    In (k, v) d -> load_lines d ls = Ok d' -> In (k, v) d'.
Proof.
  induction ls as [| line rest IH]; intros Hls d d' Hin; simpl.
  - intros H. now injection H as <-.
  - intros H. apply bind_ok in H. destruct H as (d1 & H1 & H).
    unfold load_line in H1.
    destruct (split "=" (strip line)) as [| x [| y [| z r]]] eqn:E;
      try discriminate.
    injection H1 as <-.
    eapply IH; [ | | exact H ].
    + intros l e Hl. apply Hls. now right.
    + apply dict_set_other; [ | exact Hin ].
      intros Heq.
      apply (Hls line (strip (lower x), strip (lower y)));
        [ now left | exists x, y; now split | now symmetry ].
Qed.

(** X5. When several lines of the mapping file give the same word, the
    pronunciation of the last of them is the one in the table. *)
Theorem last_line_of_a_word_wins (before after : list str) (line k v : str)
  (d : dict) :
  load_lines [] (before ++ line :: after) = Ok d ->
  entry_of line (k, v) ->
  (forall l e, In l after -> entry_of l e -> fst e <> k) ->
  In (k, v) d.
Proof.
  intros H He Hafter. rewrite load_lines_app in H.
  apply bind_ok in H. destruct H as (d1 & _ & H).
  simpl in H. apply bind_ok in H. destruct H as (d2 & H2 & H).
  destruct He as (x & y & E & Hxy). injection Hxy as -> ->.
  unfold load_line in H2. rewrite E in H2. injection H2 as <-.
  eapply load_lines_keeps; [ exact Hafter | | exact H ].
  apply dict_set_has.
Qed.

Lemma last_line_of_a_word_wins_witness :
  In (lit "fdat", lit "eff-dat")
     [(lit "fdat", lit "eff-dat"); (lit "sql", lit "sequel")].
Proof.
  apply (last_line_of_a_word_wins
           [lit "FDAT=effdutt"] [lit "SQL=sequel"] (lit "fdat = Eff-Dat")
           (lit "fdat") (lit "eff-dat")).
  - reflexivity.
  - exists (lit "fdat "), (lit " Eff-Dat"). split; reflexivity.
  - intros l e [<- | []] (x & y & E & ->). injection E as <- <-.
    discriminate.
Defined.

(** ** More on the notes text *)

Lemma newline_to_space_isspace (c : ascii) :
  isspace (newline_to_space c) = isspace c.
Proof.
  apply eqb_prop. revert c. apply every_ascii. vm_compute. reflexivity.
Qed.

Lemma newline_to_space_clean (c : ascii) :
  newline_to_space c <> LF /\ newline_to_space c <> CR.
Proof.
  assert (negb (Ascii.eqb (newline_to_space c) LF
                || Ascii.eqb (newline_to_space c) CR) = true) as H
    by (revert c; apply every_ascii; vm_compute; reflexivity).
  apply negb_true_iff, orb_false_iff in H. destruct H as [H1 H2].
  split; intros E; rewrite E, Ascii.eqb_refl in *; discriminate.
Qed.

Lemma strip_incl (s : str) (c : ascii) : In c (strip s) -> In c s.
Proof.
  unfold strip, rstrip, lstrip. intros H. apply in_rev in H.
  apply dropwhile_incl in H. apply in_rev in H.
  now apply dropwhile_incl in H.
Qed.

Lemma dropwhile_length (p : ascii -> bool) (s : str) :
  (List.length (dropwhile p s) <= List.length s)%nat.
Proof.
  induction s as [| c r IH]; simpl; [ lia | ].
  destruct (p c); simpl; lia.
Qed.

Lemma strip_length (s : str) : (List.length (strip s) <= List.length s)%nat.
Proof.
  unfold strip, rstrip, lstrip. rewrite length_rev.
  etransitivity; [ apply dropwhile_length | ]. rewrite length_rev.
  apply dropwhile_length.
Qed.

Lemma forallb_map_isspace (t : str) :
  forallb isspace (map newline_to_space t) = forallb isspace t.
Proof.
  induction t as [| c r IH]; simpl; [ reflexivity | ].
  now rewrite newline_to_space_isspace, IH.
Qed.

(** X6. The normalised notes hold no newline and no carriage return,
    have no blank at either end, are not longer than the raw notes, and
    are empty exactly when the raw notes are blank, the case in which the
    slide is skipped; normalising them again changes nothing. *)
Theorem normalized_notes_shape (t : str) :
  ~ In LF (normalize_notes t)
  /\ ~ In CR (normalize_notes t)
  /\ strip (normalize_notes t) = normalize_notes t
  /\ (List.length (normalize_notes t) <= List.length t)%nat
  /\ (normalize_notes t = [] <-> no_note_text t = true)
  /\ normalize_notes (normalize_notes t) = normalize_notes t.
Proof.
  rewrite !normalize_notes_map.
  assert (forall c, In c (strip (map newline_to_space t)) ->
                    c <> LF /\ c <> CR) as Hclean.
  { intros c Hc. apply strip_incl, in_map_iff in Hc.
    destruct Hc as (x & <- & _). apply newline_to_space_clean. }
  split; [ | split; [ | split; [ | split; [ | split ] ] ] ].
  - intros H. now destruct (Hclean _ H).
  - intros H. now destruct (Hclean _ H).
  - apply strip_idempotent.
  - etransitivity; [ apply strip_length | ]. now rewrite length_map.
  - rewrite strip_nil, forallb_map_isspace, no_note_text_blank. tauto.
  - rewrite (map_ext_in newline_to_space (fun c => c)).
    + rewrite map_id. apply strip_idempotent.
    + intros c Hc. destruct (Hclean c Hc) as [H1 H2].
      unfold newline_to_space.
      destruct (Ascii.eqb_spec c LF); [ contradiction | ].
      destruct (Ascii.eqb_spec c CR); [ contradiction | ]. reflexivity.
Qed.

(** ** More on the substitution *)

Lemma spec_replace_absent (word pron : str) :
  forall s prev,
    whole_word_in word prev s = false ->
    spec_replace_from word pron prev O s = s.
Proof.
  induction s as [| c r IH]; intros prev H; [ reflexivity | ].
  cbn [whole_word_in] in H. apply orb_false_iff in H. destruct H as [H1 H2].
  cbn [spec_replace_from]. rewrite H1. f_equal. now apply IH.
Qed.

(** X7. A text in which no word of the mapping stands as a whole word
    comes out of the substitution unchanged (for a mapping whose words
    begin and end with a word character and whose pronunciations hold no
    backslash). *)
Theorem substitution_keeps_text_without_words (d : dict) (text : str) :
  forallb plain_entry d = true ->
  forallb (fun e => negb (whole_word_in (fst e) None text)) d = true ->
  apply_mapping d text = Ok text.
Proof.
  induction d as [| [word pron] rest IH]; [ reflexivity | ].
  cbn [forallb fst]. intros Hp Hn.
  apply andb_true_iff in Hp. destruct Hp as [Hp Hps].
  apply andb_true_iff in Hn. destruct Hn as [Hn Hns].
  apply negb_true_iff in Hn.
  cbn [apply_mapping]. rewrite (re_sub_spec word pron text Hp).
  unfold spec_replace_whole_words. rewrite spec_replace_absent by exact Hn.
  cbn [bind]. now apply IH.
Qed.

Lemma substitution_keeps_text_without_words_witness :
  apply_mapping [(lit "fdat", lit "effdutt"); (lit "sql", lit "sequel")]
    (lit "FDATA and MySQL_8, nosql2")
  = Ok (lit "FDATA and MySQL_8, nosql2").
Proof.
  apply (substitution_keeps_text_without_words
           [(lit "fdat", lit "effdutt"); (lit "sql", lit "sequel")]
           (lit "FDATA and MySQL_8, nosql2")); reflexivity.
Defined.

(** ** More on the per-slide loop *)

Section Clips.

Variable a : arguments.
Variable w : world.
Variable mapping : dict.
Variable d : str.
Variable fmt : str.

Lemma synthesize_clips (k : nat) (n : Z) (text : str) (st : state) :
  match synthesize a w d fmt k n text st with
  | Continue st' => slide_videos st' = slide_videos st ++ [video_file d fmt n]
  | Break st' => slide_videos st' = slide_videos st /\ api a = Azure
  | Raised _ st' => slide_videos st' = slide_videos st
  end.
Proof.
  unfold synthesize. destruct (api a) eqn:Ha.
  - destruct (int (voice a)) as [v | e]; [ | reflexivity ].
    destruct (speak_sapi w k n v text) as [[[] | e] out]; reflexivity.
  - destruct (speak_azure w k n text) as [[| why details |] out];
      try reflexivity.
    split; [ now destruct why, details | reflexivity ].
Qed.

Lemma export_image_clips (n : Z) (st : state) :
  slide_videos (state_of (export_image a w d n st)) = slide_videos st.
Proof.
  unfold export_image.
  destruct (files (say (MsgExporting n) st) (slide_image_file d n))
    as [[| content] |]; try reflexivity;
    destruct (export_slide w n (video_width a) (video_height a))
      as [[[] | e] out]; reflexivity.
Qed.

Lemma process_slide_clips (k : nat) (n : Z) (st : state) :
  match process_slide a w mapping d fmt k n st with
  | Continue st' =>
      slide_videos st' =
      slide_videos st ++ (if blank_notes w n then [] else [video_file d fmt n])
  | Break st' => slide_videos st' = slide_videos st /\ api a = Azure
  | Raised _ st' => slide_videos st' = slide_videos st
  end.
Proof.
  unfold process_slide, blank_notes.
  destruct (notes_text w n) as [t |]; [ | reflexivity ].
  rewrite no_note_text_blank. destruct (forallb isspace t).
  - simpl. now rewrite app_nil_r.
  - destruct (apply_mapping mapping (normalize_notes t)) as [text | e];
      [ | reflexivity ].
    match goal with
    | |- context [export_image a w d n ?s] =>
        pose proof (export_image_clips n s) as He;
        destruct (export_image_total a w d n s) as [_ Hnb];
        destruct (export_image a w d n s) as [st1 | st1 | e st1];
        [ | now destruct (Hnb st1) | exact He ]
    end.
    simpl in He. pose proof (synthesize_clips k n text st1) as Hs.
    destruct (synthesize a w d fmt k n text st1) as [st2 | st2 | e st2];
      [ | destruct Hs as [Hs Ha]; split | ]; congruence.
Qed.

Lemma process_slide_stops (k : nat) (n : Z) (st : state) :
  (forall st', process_slide a w mapping d fmt k n st <> Continue st') ->
  blank_notes w n = false.
Proof.
  intros H. destruct (blank_notes w n) eqn:E; [ | reflexivity ].
  exfalso. eapply H. now apply body_blank.
Qed.

Lemma for_slides_clips (l : list Z) :
  forall k st,
    match for_slides a w mapping d fmt k l st with
    | Continue st' =>
        slide_videos st' =
        slide_videos st ++ map (video_file d fmt) (with_notes w l)
    | Break st' | Raised _ st' =>
        exists visited n rest st_n,
          l = visited ++ n :: rest
          /\ for_slides a w mapping d fmt k visited st = Continue st_n
          /\ process_slide a w mapping d fmt (k + List.length visited) n st_n
             = for_slides a w mapping d fmt k l st
          /\ blank_notes w n = false
          /\ slide_videos st' =
             slide_videos st ++ map (video_file d fmt) (with_notes w visited)
    end.
Proof.
  induction l as [| n rest IH]; intros k st.
  - simpl. now rewrite app_nil_r.
  - rewrite loop_cons. pose proof (process_slide_clips k n st) as Hb.
    pose proof (process_slide_stops k n st) as Hnotes.
    assert (forall st',
              slide_videos st' = slide_videos st ->
              (forall st1, process_slide a w mapping d fmt k n st
                           <> Continue st1) ->
              exists visited m rest' st_n,
                n :: rest = visited ++ m :: rest'
                /\ for_slides a w mapping d fmt k visited st = Continue st_n
                /\ process_slide a w mapping d fmt
                     (k + List.length visited) m st_n
                   = process_slide a w mapping d fmt k n st
                /\ blank_notes w m = false
                /\ slide_videos st' =
                   slide_videos st
                   ++ map (video_file d fmt) (with_notes w visited))
      as Hstop.
    { intros st' E Hne. exists [], n, rest, st.
      split; [ reflexivity | split; [ reflexivity | split; [ | split ] ] ].
      - simpl. now rewrite Nat.add_0_r.
      - now apply Hnotes.
      - simpl. now rewrite app_nil_r. }
    destruct (process_slide a w mapping d fmt k n st)
      as [st1 | st1 | e st1] eqn:Eb;
      [ | apply Hstop; [ apply Hb | discriminate ]
        | apply Hstop; [ exact Hb | discriminate ] ].
    clear Hstop Hnotes. specialize (IH (S k) st1).
    assert (map (video_file d fmt) (with_notes w (n :: rest)) =
            (if blank_notes w n then [] else [video_file d fmt n])
            ++ map (video_file d fmt) (with_notes w rest)) as Hcons
      by (unfold with_notes; simpl; now destruct (blank_notes w n)).
    assert (forall visited m rest' st_n st2,
              rest = visited ++ m :: rest' ->
              for_slides a w mapping d fmt (S k) visited st1 = Continue st_n ->
              slide_videos st2 =
              slide_videos st1
              ++ map (video_file d fmt) (with_notes w visited) ->
              n :: rest = (n :: visited) ++ m :: rest'
              /\ for_slides a w mapping d fmt k (n :: visited) st
                 = Continue st_n
              /\ slide_videos st2 =
                 slide_videos st
                 ++ map (video_file d fmt) (with_notes w (n :: visited)))
      as Hlater.
    { intros visited m rest' st_n st2 -> Hv E.
      split; [ reflexivity | split ].
      - now rewrite loop_cons, Eb.
      - rewrite E, Hb, <- app_assoc. f_equal.
        unfold with_notes. simpl. now destruct (blank_notes w n). }
    destruct (for_slides a w mapping d fmt (S k) rest st1)
      as [st2 | st2 | e st2].
    + rewrite IH, Hb, Hcons. now rewrite app_assoc.
    + destruct IH as (visited & m & rest' & st_n & Hl & Hv & Hm & Hbl & E).
      destruct (Hlater visited m rest' st_n st2 Hl Hv E) as (H1 & H2 & H3).
      exists (n :: visited), m, rest', st_n.
      repeat split; try assumption.
      cbn [List.length]. now rewrite Nat.add_succ_r.
    + destruct IH as (visited & m & rest' & st_n & Hl & Hv & Hm & Hbl & E).
      destruct (Hlater visited m rest' st_n st2 Hl Hv E) as (H1 & H2 & H3).
      exists (n :: visited), m, rest', st_n.
      repeat split; try assumption.
      cbn [List.length]. now rewrite Nat.add_succ_r.
Qed.

End Clips.

(** X8. The clips the loop records are the clip files of the slides with
    notes, in the order of the slide list: of all of them when the loop
    runs to its end; when a cancelled synthesis or an exception ends it,
    of those before the slide at which it stopped. That slide is the
    first on which the loop body does not run to its end: over the
    slides before it the loop runs through, and the body, started on it
    from the state they leave, ends the way the loop ends and in the
    loop's last state; it is not a slide with blank notes. *)
Theorem recorded_clips_follow_the_slides (a : arguments) (w : world)
  (mapping : dict) (d fmt : str) (l : list Z) (k : nat) (st : state) :
  match for_slides a w mapping d fmt k l st with
  | Continue st' =>
      slide_videos st' =
      slide_videos st ++ map (video_file d fmt) (with_notes w l)
  | Break st' | Raised _ st' =>
      exists visited n rest st_n,
        l = visited ++ n :: rest
        /\ for_slides a w mapping d fmt k visited st = Continue st_n
        /\ process_slide a w mapping d fmt (k + List.length visited) n st_n
           = for_slides a w mapping d fmt k l st
        /\ blank_notes w n = false
        /\ slide_videos st' =
           slide_videos st ++ map (video_file d fmt) (with_notes w visited)
  end.
Proof. apply for_slides_clips. Qed.

Section Blank.

Variable a : arguments.
Variable w : world.
Variable mapping : dict.
Variable d : str.
Variable fmt : str.

Lemma process_slide_blank_frame (k : nat) (n : Z) (st : state) :
  changes_only (fun p => blank_notes w n = false /\ of_slide d fmt n p)
    (files st) (files (state_of (process_slide a w mapping d fmt k n st))).
Proof.
  destruct (blank_notes w n) eqn:Hb.
  - rewrite body_blank by exact Hb. apply changes_only_refl.
  - eapply changes_only_weaken; [ | apply process_slide_frame ].
    intros p Hp. now split.
Qed.

Lemma for_slides_blank_frame (l : list Z) :
  forall k st,
    changes_only
      (fun p => exists n, In n (with_notes w l) /\ of_slide d fmt n p)
      (files st) (files (state_of (for_slides a w mapping d fmt k l st))).
Proof.
  induction l as [| n rest IH]; intros k st.
  - apply changes_only_refl.
  - rewrite loop_cons.
    pose proof (process_slide_blank_frame k n st) as Hb.
    assert (forall p, blank_notes w n = false /\ of_slide d fmt n p ->
                      exists m, In m (with_notes w (n :: rest))
                                /\ of_slide d fmt m p) as Hhere.
    { intros p [Hn Hp]. exists n. split; [ | exact Hp ].
      unfold with_notes. simpl. rewrite Hn. now left. }
    destruct (process_slide a w mapping d fmt k n st) as [st1 | st1 | e st1];
      try (eapply changes_only_weaken; [ exact Hhere | exact Hb ]).
    eapply changes_only_trans.
    + eapply changes_only_weaken; [ exact Hhere | exact Hb ].
    + eapply changes_only_weaken; [ | apply IH ].
      intros p (m & Hm & Hp). exists m. split; [ | exact Hp ].
      unfold with_notes in *. simpl. destruct (blank_notes w n); simpl; auto.
Qed.

End Blank.

(** X9. Whatever the mode and however the loop ends, the only files it
    creates, replaces or removes are files of selected slides that have
    notes: a slide without notes gets no image, no audio and no clip, and
    what an earlier run left at its paths stays. *)
Theorem only_slides_with_notes_get_files (a : arguments) (w : world)
  (mapping : dict) (d fmt : str) (l : list Z) (k : nat) (st : state)
  (p : str) :
  (forall n, In n l -> blank_notes w n = false ->
             ~ In p (artifact_paths d fmt n)) ->
  files (state_of (for_slides a w mapping d fmt k l st)) p = files st p.
Proof.
  intros H. apply (for_slides_blank_frame a w mapping d fmt l k st).
  intros (n & Hn & Hp). unfold with_notes in Hn.
  apply filter_In in Hn. destruct Hn as [Hn Hb].
  apply negb_true_iff in Hb. now apply (H n).
Qed.

Lemma only_slides_with_notes_get_files_witness :
  let a := sample_arguments None Azure (Some (lit "C:\tmp\old")) in
  let w := sample_world [lit "one"; lit "  "] None [] in
  files (state_of (for_slides a w [] (lit "C:\tmp\old") (lit "mp4") 0 [1; 2]
                     (initial earlier_run)))
        (video_file (lit "C:\tmp\old") (lit "mp4") 2)
  = Some (File (lit "old")).
Proof.
  intros a w.
  rewrite (only_slides_with_notes_get_files a w [] (lit "C:\tmp\old")
             (lit "mp4") [1; 2] 0 (initial earlier_run)).
  - reflexivity.
  - intros n [<- | [<- | []]] Hb; [ | discriminate Hb ].
    intros Hp.
    apply (artifacts_disjoint (lit "C:\tmp\old") (lit "mp4")
             (container_format_no_dot (lit "talk.mp4")) 1 2
             (video_file (lit "C:\tmp\old") (lit "mp4") 2));
      [ discriminate | exact Hp | ].
    unfold artifact_paths. cbn [In]. auto.
Defined.

(** X10. Exporting the image of a slide never leaves an older image in
    place: unless a directory stands at the image path (the removal then
    fails), the file at that path after the export step is what the
    export wrote, and there is none when it wrote nothing, whether the
    export call succeeded or raised. *)
Theorem export_replaces_the_image (a : arguments) (w : world) (d : str)
  (n : Z) (st : state) :
  files st (slide_image_file d n) <> Some Directory ->
  files (state_of (export_image a w d n st)) (slide_image_file d n)
  = option_map File (snd (export_slide w n (video_width a) (video_height a))).
Proof.
  intros Hd. unfold export_image. cbn [say files].
  destruct (files st (slide_image_file d n)) as [[| content] |] eqn:E;
    [ contradiction | | ];
    destruct (export_slide w n (video_width a) (video_height a))
      as [[[] | e] [out |]];
    cbn [state_of leave with_files files fs_output snd option_map];
    unfold fs_put, fs_remove; rewrite ?str_eqb_refl; try reflexivity;
    exact E.
Qed.

Lemma export_replaces_the_image_witness :
  let a := sample_arguments None Azure (Some (lit "C:\tmp\old")) in
  let w := sample_world [lit "one"] None [] in
  let image := slide_image_file (lit "C:\tmp\old") 1 in
  files (state_of (export_image a w (lit "C:\tmp\old") 1
                     (initial (fs_put image (File (lit "stale")) no_files))))
        image
  = Some (File (lit "PNG")).
Proof.
  intros a w image. subst image.
  rewrite (export_replaces_the_image a w (lit "C:\tmp\old") 1
             (initial (fs_put (slide_image_file (lit "C:\tmp\old") 1)
                              (File (lit "stale")) no_files))).
  - reflexivity.
  - discriminate.
Defined.

Section Sapi.

Variable a : arguments.
Variable w : world.
Variable mapping : dict.
Variable d : str.
Variable fmt : str.
Hypothesis sapi : api a = SAPI.

Lemma sapi_never_breaks (l : list Z) :
  forall k st st', for_slides a w mapping d fmt k l st <> Break st'.
Proof.
  induction l as [| n rest IH]; intros k st st'; [ discriminate | ].
  rewrite loop_cons. pose proof (process_slide_clips a w mapping d fmt k n st) as H.
  destruct (process_slide a w mapping d fmt k n st) as [st1 | st1 | e st1].
  - apply IH.
  - destruct H as [_ H]. congruence.
  - discriminate.
Qed.

Variable e : exn.
Hypothesis bad_voice : int (voice a) = Raise e.

Lemma sapi_bad_voice_slide (k : nat) (n : Z) (st : state) :
  match process_slide a w mapping d fmt k n st with
  | Continue st' => blank_notes w n = true /\ slide_videos st' = slide_videos st
  | Break _ => False
  | Raised _ st' => slide_videos st' = slide_videos st
  end.
Proof.
  unfold process_slide, blank_notes.
  destruct (notes_text w n) as [t |]; [ | reflexivity ].
  rewrite no_note_text_blank. destruct (forallb isspace t).
  - now split.
  - destruct (apply_mapping mapping (normalize_notes t)) as [text | e'];
      [ | reflexivity ].
    match goal with
    | |- context [export_image a w d n ?s] =>
        pose proof (export_image_clips a w d n s) as He;
        destruct (export_image_total a w d n s) as [_ Hnb];
        destruct (export_image a w d n s) as [st1 | st1 | e1 st1];
        [ | now destruct (Hnb st1) | exact He ]
    end.
    unfold synthesize. rewrite sapi, bad_voice. exact He.
Qed.

Lemma sapi_bad_voice_loop (l : list Z) :
  forall k st,
    match for_slides a w mapping d fmt k l st with
    | Continue st' => with_notes w l = [] /\ slide_videos st' = slide_videos st
    | Break _ => False
    | Raised _ st' => slide_videos st' = slide_videos st
    end.
Proof.
  induction l as [| n rest IH]; intros k st; [ now split | ].
  rewrite loop_cons. pose proof (sapi_bad_voice_slide k n st) as H.
  destruct (process_slide a w mapping d fmt k n st) as [st1 | st1 | e1 st1];
    [ | exact H | exact H ].
  destruct H as [Hb Hv]. specialize (IH (S k) st1).
  destruct (for_slides a w mapping d fmt (S k) rest st1)
    as [st2 | st2 | e2 st2]; [ | exact IH | congruence ].
  destruct IH as [Hr Hv']. split; [ | congruence ].
  unfold with_notes in *. simpl. now rewrite Hb.
Qed.

End Sapi.

(** X11. With the SAPI engine the voice is read as an integer for every
    slide with notes. When the voice is not an integer (the default
    voice name is not), no clip is ever recorded:
    the loop is never left by [break], it raises at the first slide with
    notes it gets to, and it only runs to its end when no selected slide
    has notes. *)
Theorem sapi_needs_an_integer_voice (a : arguments) (w : world)
  (mapping : dict) (d fmt : str) (e : exn) (l : list Z) (k : nat)
  (st : state) :
  api a = SAPI ->
  int (voice a) = Raise e ->
  match for_slides a w mapping d fmt k l st with
  | Continue st' => with_notes w l = [] /\ slide_videos st' = slide_videos st
  | Break _ => False
  | Raised _ st' => slide_videos st' = slide_videos st
  end.
Proof. intros Ha He. now apply (sapi_bad_voice_loop a w mapping d fmt Ha e). Qed.

Lemma sapi_needs_an_integer_voice_witness :
  let a := sample_arguments None SAPI None in
  let w := sample_world [lit "  "; lit "two"; lit "three"] None [] in
  exists st',
    for_slides a w [] (lit "C:\tmp\tmp1") (lit "mp4") 0 [1; 2; 3]
               (initial no_files) = Raised ValueError st'
    /\ slide_videos st' = [].
Proof.
  intros a w.
  pose proof (sapi_needs_an_integer_voice a w [] (lit "C:\tmp\tmp1")
                (lit "mp4") ValueError [1; 2; 3] 0 (initial no_files)
                eq_refl eq_refl) as H.
  destruct (for_slides a w [] (lit "C:\tmp\tmp1") (lit "mp4") 0 [1; 2; 3]
              (initial no_files)) as [st' | st' | e st'] eqn:E.
  - discriminate E.
  - discriminate E.
  - exists st'. split; [ | exact H ].
    vm_compute in E. injection E as <- _. reflexivity.
Defined.

(** ** The working directory of a fresh run *)

Lemma fs_put_same (p : str) (x : node) (fs : filesystem) :
  fs_put p x fs p = Some x.
Proof. unfold fs_put. now rewrite str_eqb_refl. Qed.

Lemma fs_put_other (p q : str) (x : node) (fs : filesystem) :
  q <> p -> fs_put p x fs q = fs q.
Proof. intros H. unfold fs_put. now rewrite str_eqb_neq. Qed.

Lemma folders_distinct (d : str) : NoDup (directories d).
Proof.
  pose proof (dir_prefix_length d) as Hd.
  assert (forall name, name <> [] -> d <> dir_prefix d ++ name) as Hlen.
  { intros name Hn E. apply (f_equal (@List.length ascii)) in E.
    rewrite length_app in E. destruct name; [ contradiction | ].
    simpl in E. lia. }
  unfold directories, slide_folder, audio_folder, video_folder.
  rewrite !join_prefix.
  apply NoDup_cons; [ | apply NoDup_cons; [ | apply NoDup_cons;
    [ | apply NoDup_cons; [ | apply NoDup_nil ] ] ] ];
    cbn [In]; intros H; repeat destruct H as [H | H]; try contradiction;
    try (symmetry in H; apply Hlen in H; [ exact H | discriminate ]);
    apply app_inv_head in H; discriminate H.
Qed.

Lemma mkdir_free (p : str) (st : state) :
  files st p = None ->
  mkdir p st = (Ok tt, with_files (fs_put p Directory (files st)) st).
Proof. intros H. unfold mkdir. now rewrite H. Qed.

Lemma mkdir_taken (p : str) (st : state) :
  files st p <> None -> mkdir p st = (Raise OSError, st).
Proof.
  intros H. unfold mkdir. destruct (files st p); [ reflexivity | ].
  now destruct H.
Qed.

(** X12. A fresh run (no --update) makes the directory [mkdtemp] names
    and the three folders in it, and touches nothing else, when none of
    the three folder paths is taken; when one of them is taken it raises
    [OSError]. *)
Theorem fresh_run_makes_the_directories (a : arguments) (w : world)
  (st : state) :
  update a = None ->
  let d := mkdtemp w in
  (Forall (fun p => files st p = None)
          [slide_folder d; audio_folder d; video_folder d] ->
   exists st',
     create_temp_directories a w st = (Ok d, st')
     /\ (forall p, In p (directories d) -> files st' p = Some Directory)
     /\ (forall p, ~ In p (directories d) -> files st' p = files st p)
     /\ printed st' = printed st
     /\ slide_videos st' = slide_videos st
     /\ total_chars st' = total_chars st)
  /\ (Exists (fun p => files st p <> None)
             [slide_folder d; audio_folder d; video_folder d] ->
      exists st', create_temp_directories a w st = (Raise OSError, st')).
Proof.
  intros Hu d. pose proof (folders_distinct d) as Hnd.
  unfold directories in Hnd.
  inversion Hnd as [| ? ? H0 Hnd1]; subst.
  inversion Hnd1 as [| ? ? H1 Hnd2]; subst.
  inversion Hnd2 as [| ? ? H2 _]; subst. cbn [In] in H0, H1, H2.
  assert (slide_folder d <> d /\ audio_folder d <> d /\ video_folder d <> d
          /\ audio_folder d <> slide_folder d
          /\ video_folder d <> slide_folder d
          /\ video_folder d <> audio_folder d)
    as (Hs & Ha & Hv & Has & Hvs & Hva)
    by (repeat split; intros E; rewrite E in *; tauto).
  unfold create_temp_directories. rewrite Hu. fold d.
  set (st0 := with_files (fs_put d Directory (files st)) st).
  assert (files st0 (slide_folder d) = files st (slide_folder d)) as E0
    by (apply fs_put_other; exact Hs).
  set (st1 := with_files (fs_put (slide_folder d) Directory (files st0)) st0).
  assert (files st1 (audio_folder d) = files st (audio_folder d)) as E1
    by (unfold st1, st0; cbn [with_files files];
        now rewrite !fs_put_other by assumption).
  set (st2 := with_files (fs_put (audio_folder d) Directory (files st1)) st1).
  assert (files st2 (video_folder d) = files st (video_folder d)) as E2
    by (unfold st2, st1, st0; cbn [with_files files];
        now rewrite !fs_put_other by assumption).
  split.
  - intros Hfree.
    inversion Hfree as [| ? ? Fs Hfree1]; subst.
    inversion Hfree1 as [| ? ? Fa Hfree2]; subst.
    inversion Hfree2 as [| ? ? Fv _]; subst.
    cbn [mkdirs].
    rewrite (mkdir_free (slide_folder d) st0) by congruence. fold st1.
    rewrite (mkdir_free (audio_folder d) st1) by congruence. fold st2.
    rewrite (mkdir_free (video_folder d) st2) by congruence.
    eexists. split; [ reflexivity | ].
    unfold st2, st1, st0.
    cbn [with_files files printed slide_videos total_chars].
    split; [ | split; [ | repeat split ] ].
    + intros p Hp. unfold directories in Hp. cbn [In] in Hp.
      destruct Hp as [<- | [<- | [<- | [<- | []]]]].
      * rewrite !fs_put_other by (apply not_eq_sym; assumption).
        apply fs_put_same.
      * rewrite !fs_put_other by (apply not_eq_sym; assumption).
        apply fs_put_same.
      * rewrite fs_put_other by (apply not_eq_sym; assumption).
        apply fs_put_same.
      * apply fs_put_same.
    + intros p Hp. unfold directories in Hp. cbn [In] in Hp.
      rewrite !fs_put_other; [ reflexivity | .. ]; intros ->; tauto.
  - intros Htaken. cbn [mkdirs].
    destruct (files st (slide_folder d)) as [x |] eqn:Fs.
    { rewrite (mkdir_taken (slide_folder d) st0) by congruence. eauto. }
    rewrite (mkdir_free (slide_folder d) st0) by congruence. fold st1.
    destruct (files st (audio_folder d)) as [x |] eqn:Fa.
    { rewrite (mkdir_taken (audio_folder d) st1) by congruence. eauto. }
    rewrite (mkdir_free (audio_folder d) st1) by congruence. fold st2.
    destruct (files st (video_folder d)) as [x |] eqn:Fv.
    { rewrite (mkdir_taken (video_folder d) st2) by congruence. eauto. }
    exfalso. inversion Htaken as [? ? H | ? ? Ht1]; subst; [ congruence | ].
    inversion Ht1 as [? ? H | ? ? Ht2]; subst; [ congruence | ].
    inversion Ht2 as [? ? H | ? ? Ht3]; subst; [ congruence | ].
    inversion Ht3.
Qed.

Lemma fresh_run_makes_the_directories_witness :
  let a := sample_arguments None Azure None in
  let w := sample_world [lit "one"] None [] in
  exists st',
    create_temp_directories a w (initial no_files)
    = (Ok (lit "C:\tmp\tmp1"), st')
    /\ files st' (lit "C:\tmp\tmp1\audio") = Some Directory.
Proof.
  intros a w.
  destruct (fresh_run_makes_the_directories a w (initial no_files) eq_refl)
    as [H _].
  destruct H as (st' & Hc & Hd & _).
  - repeat constructor.
  - exists st'. split; [ exact Hc | ].
    apply Hd. right. right. left. reflexivity.
Defined.

Lemma concat_perm (l l' : list (list Z)) :
  Permutation l l' -> Permutation (List.concat l) (List.concat l').
Proof.
  induction 1 as [| x l l' _ IH | x y l | l1 l2 l3 _ IH1 _ IH2]; simpl.
  - constructor.
  - now apply Permutation_app_head.
  - rewrite !app_assoc. apply Permutation_app_tail, Permutation_app_comm.
  - now transitivity (List.concat l2).
Qed.

(** X13. The order of the tokens in the selection string does not
    matter: two selection strings with the same tokens select the same
    slides, in the same ascending order (and one fails when the other
    does). *)
Theorem token_order_is_irrelevant (s s' : str) (count count' : Z) :
  Permutation (map strip (split "," s)) (map strip (split "," s')) ->
  (forall l, slide_list (Some s) count = Ok l ->
             slide_list (Some s') count' = Ok l)
  /\ (forall e, slide_list (Some s) count = Raise e ->
                slide_list (Some s') count' = Raise e).
Proof.
  intros Hp.
  assert (forall t t' l,
             Permutation t t' ->
             (l0 <- select_tokens [] t ;; Ok (sorted l0)) = Ok l ->
             (l0 <- select_tokens [] t' ;; Ok (sorted l0)) = Ok l) as Hok.
  { intros t t' l Ht H. apply bind_ok in H. destruct H as (l0 & H0 & H).
    injection H as <-. apply select_tokens_selects in H0.
    destruct H0 as (parts & Hparts & ->).
    destruct (Permutation_Forall2 Ht Hparts) as (parts' & Hpp & Hparts').
    rewrite (selects_select_tokens _ _ Hparts' []). simpl. f_equal.
    apply ascending_unique; try apply sorted_ascending.
    rewrite !sorted_perm. symmetry. now apply concat_perm. }
  split; [ intros l; now apply Hok | ].
  intros e H. simpl in *.
  destruct (select_tokens [] (map strip (split "," s'))) as [l' | e'] eqn:E'.
  - assert ((l0 <- select_tokens [] (map strip (split "," s')) ;;
             Ok (sorted l0)) = Ok (sorted l')) as H' by now rewrite E'.
    apply (Hok _ _ _ (Permutation_sym Hp)) in H'. congruence.
  - simpl. f_equal.
    destruct (select_tokens [] (map strip (split "," s))) as [l0 | e0] eqn:E;
      [ discriminate | ].
    simpl in H. injection H as <-.
    assert (forall t acc x, select_tokens acc t = Raise x -> x = ValueError)
      as Hv.
    { induction t as [| i rest IH]; intros acc x; simpl; [ discriminate | ].
      destruct (select_token acc i) as [acc' |] eqn:Ei; simpl.
      - apply IH.
      - intros Hx. injection Hx as <-.
        now apply (select_token_raises_value_error acc i). }
    rewrite (Hv _ _ _ E), (Hv _ _ _ E'). reflexivity.
Qed.

Lemma token_order_is_irrelevant_witness :
  slide_list (Some (lit "9, 4-6,2")) 9 = Ok [2; 4; 5; 6; 9].
Proof.
  destruct (token_order_is_irrelevant (lit "2,4-6,9") (lit "9, 4-6,2") 9 9)
    as [H _].
  - vm_compute. apply Permutation_rev.
  - apply H. reflexivity.
Defined.

(** ** More on the paths *)

Lemma replace_from_absent (s : str) :
  occurs wav s = false -> replace_from wav m4a O s = s.
Proof.
  induction s as [| c r IH]; [ reflexivity | ].
  cbn [occurs]. intros H. apply orb_false_iff in H. destruct H as [H1 H2].
  rewrite replace_from_here, H1. f_equal. now apply IH.
Qed.

(** X14. The padded audio file of a slide has a path as long as that of
    the raw audio file and is never the raw audio file itself. It is
    "audio_<n>.m4a" in the audio folder when ".wav" does not occur in
    the path of that folder; otherwise the replacement also rewrites the
    folder part of the path. *)
Theorem padded_audio_path (d : str) (n : Z) :
  List.length (audio_file_padded d n) = List.length (audio_file d n)
  /\ audio_file_padded d n <> audio_file d n
  /\ (occurs wav (audio_folder d) = false ->
      audio_file_padded d n
      = join (audio_folder d) (lit "audio_" ++ str_of_int n ++ lit ".m4a")).
Proof.
  split; [ | split ].
  - rewrite audio_file_padded_shape, audio_file_shape, !length_app,
      padded_folder_length.
    rewrite wav_length, m4a_length. cbn. lia.
  - apply padded_not_audio.
  - intros H. rewrite audio_file_padded_shape. unfold padded_folder.
    assert (audio_folder d = dir_prefix d ++ lit "audio") as Ef
      by apply join_prefix.
    rewrite Ef in *. rewrite (replace_from_absent _ H).
    assert (forall x, join (dir_prefix d ++ lit "audio") x
                      = dir_prefix d ++ lit "audi"
                        ++ "o"%char :: "\"%char :: x) as ->
      by (intros x; apply (join_folder (dir_prefix d) (lit "audi") x "o");
          [ simpl; lia | reflexivity ]).
    now rewrite <- app_assoc.
Qed.

Lemma takewhile_stop (p : ascii -> bool) (s r : str) (c : ascii) :
  forallb p s = true -> p c = false -> takewhile p (s ++ c :: r) = s.
Proof.
  intros Hs Hc. induction s as [| x s' IH]; simpl.
  - now rewrite Hc.
  - simpl in Hs. apply andb_true_iff in Hs. destruct Hs as [Hx Hs'].
    rewrite Hx. f_equal. now apply IH.
Qed.

Lemma takewhile_all (p : ascii -> bool) (s : str) :
  forallb p (takewhile p s) = true.
Proof.
  induction s as [| c r IH]; simpl; [ reflexivity | ].
  destruct (p c) eqn:Hc; simpl; [ now rewrite Hc | reflexivity ].
Qed.

(** X15. The container format taken from the output name never holds a
    dot or a path separator. For an output name "<stem>.<ext>", where
    the extension holds neither and the file name in front of the dot is
    not made of dots only, it is the extension. *)
Theorem container_format_is_the_extension :
  (forall output, forallb in_extension (container_format output) = true)
  /\ (forall stem ext,
         forallb in_extension ext = true ->
         names_a_file stem = true ->
         container_format (stem ++ "."%char :: ext) = ext).
Proof.
  split.
  - intros output. unfold container_format, splitext.
    change (fun c => negb (Ascii.eqb c "." || is_sep c)) with in_extension.
    destruct (skipn _ (rev output)) as [| c before]; [ reflexivity | ].
    destruct (Ascii.eqb c "."); [ | reflexivity ].
    destruct (existsb _ _); [ | reflexivity ].
    cbn [snd tl]. rewrite forallb_rev. apply takewhile_all.
  - intros stem ext Hext Hstem. unfold container_format, splitext.
    change (fun c => negb (Ascii.eqb c "." || is_sep c)) with in_extension.
    rewrite rev_app_distr. cbn [rev]. rewrite <- app_assoc. cbn [app].
    rewrite (takewhile_stop in_extension (rev ext) (rev stem) ".")
      by (now rewrite ?forallb_rev).
    rewrite skipn_app, skipn_all, Nat.sub_diag. cbn [app skipn].
    rewrite Ascii.eqb_refl. unfold names_a_file in Hstem. rewrite Hstem.
    cbn [snd tl]. apply rev_involutive.
Qed.

(** X16. The four files of a slide are four different files, none of
    them the silence file or the manifest, and the files of two
    different slides are all different: no two slides share a file,
    whatever the working directory and the output name. So the padding
    call of a slide (line 141) writes a file that is none of those it
    reads, and the clip (line 148) is written over neither the padded
    audio nor the exported image. *)
Theorem slides_never_share_a_file (d output : str) :
  let fmt := container_format output in
  (forall n, NoDup (artifact_paths d fmt n))
  /\ (forall n m p,
         n <> m -> In p (artifact_paths d fmt n) ->
         ~ In p (artifact_paths d fmt m))
  /\ (forall n,
         ~ In (silence_file d) (artifact_paths d fmt n)
         /\ ~ In (concat_file d) (artifact_paths d fmt n))
  /\ (forall n, ~ In (audio_file_padded d n) (pad_inputs d n))
  /\ (forall n,
         ~ In (video_file d fmt n)
              [slide_image_file d n; audio_file_padded d n]).
Proof.
  intros fmt.
  assert (~ In "."%char fmt) as Hdot by apply container_format_no_dot.
  assert (forall n, NoDup (artifact_paths d fmt n)) as Hnodup.
  { intros n. unfold artifact_paths.
    apply NoDup_cons; [ | apply NoDup_cons; [ | apply NoDup_cons;
      [ | apply NoDup_cons; [ | apply NoDup_nil ] ] ] ];
      cbn [In]; intros H; repeat destruct H as [H | H]; try contradiction.
    + by_name H.
    + now apply (padded_not_image d n n).
    + by_name H.
    + now apply (padded_not_audio d n n).
    + by_name H.
    + symmetry in H. now apply (padded_not_video d fmt Hdot n n). }
  split; [ exact Hnodup | split; [ | split; [ | split ] ] ].
  - intros n m p Hnm Hn Hm. now apply (artifacts_disjoint d fmt Hdot n m p).
  - intros n. split; intros H.
    + now apply (artifact_not_silence d fmt n (silence_file d) H).
    + now apply (artifact_not_concat d fmt n (concat_file d) H).
  - intros n. unfold pad_inputs. cbn [In].
    intros [H | [H | [H | []]]]; symmetry in H.
    + now apply (padded_not_silence d n).
    + now apply (padded_not_audio d n n).
    + now apply (padded_not_silence d n).
  - intros n. cbn [In]. intros [H | [H | []]].
    + by_name H.
    + now apply (padded_not_video d fmt Hdot n n).
Qed.

(** ** Replacement templates *)

Lemma parse_template_open_escape (s : str) :
  forall fuel,
    (List.length s < fuel)%nat ->
    forallb (fun c => negb (Ascii.eqb c "\")) s = true ->
    parse_template_fuel fuel (s ++ ["\"%char]) = Raise ReError.
Proof.
  induction s as [| c r IH]; intros [| fuel] Hf Hs; simpl in *; try lia.
  - reflexivity.
  - apply andb_true_iff in Hs. destruct Hs as [Hc Hr].
    rewrite Hc. rewrite (IH fuel); [ reflexivity | lia | exact Hr ].
Qed.

Lemma parse_template_raises_re_error (fuel : nat) :
  forall s e, parse_template_fuel fuel s = Raise e -> e = ReError.
Proof.
  induction fuel as [| fuel IH]; intros s e H; cbn [parse_template_fuel] in H;
    [ discriminate | ].
  repeat
    match type of H with
    | bind (parse_template_fuel fuel ?r) _ = Raise _ =>
        let E := fresh "E" in
        destruct (parse_template_fuel fuel r) eqn:E; cbn [bind] in H;
        [ discriminate H | injection H as <-; now apply (IH r) ]
    | Raise _ = Raise _ => injection H as <-; reflexivity
    | Ok _ = Raise _ => discriminate H
    | context [match ?x with _ => _ end] => destruct x
    | context [if ?x then _ else _] => destruct x
    end.
Qed.

Lemma re_sub_raises_re_error (p : list re_item) (repl text : str) (e : exn) :
  re_sub p repl text = Raise e -> e = ReError.
Proof.
  unfold re_sub, parse_template.
  destruct (parse_template_fuel _ repl) as [t | e'] eqn:E; cbn [bind];
    [ discriminate | ].
  intros H. injection H as <-.
  now apply parse_template_raises_re_error in E.
Qed.

(** X17. A pronunciation that ends with a backslash (and holds no other)
    is not a valid replacement template: the substitution raises on
    every text, also on one in which its word does not occur, so every
    slide with notes fails, whatever the other entries of the table. *)
Theorem open_escape_fails_every_text (d1 d2 : dict) (word s text : str) :
  forallb (fun c => negb (Ascii.eqb c "\")) s = true ->
  apply_mapping (d1 ++ (word, s ++ ["\"%char]) :: d2) text = Raise ReError.
Proof.
  intros Hs. revert text.
  induction d1 as [| [w1 p1] rest IH]; intros text.
  - cbn [app apply_mapping]. unfold re_sub, parse_template.
    rewrite parse_template_open_escape; [ reflexivity | | exact Hs ].
    rewrite length_app. simpl. lia.
  - cbn [app apply_mapping].
    destruct (re_sub (word_pattern w1) p1 text) as [t | e] eqn:E;
      cbn [bind]; [ apply IH | ].
    f_equal. now apply re_sub_raises_re_error in E.
Qed.

Lemma open_escape_fails_every_text_witness :
  apply_mapping [(lit "sql", lit "sequel"); (lit "fdat", lit "eff\")]
    (lit "nothing to replace")
  = Raise ReError.
Proof.
  apply (open_escape_fails_every_text [(lit "sql", lit "sequel")] []
           (lit "fdat") (lit "eff") (lit "nothing to replace"));
    reflexivity.
Defined.

(** ** The order of the pronunciation table *)

Lemma dict_set_order (k v : str) (d : dict) :
  map fst (dict_set k v d) =
  if existsb (str_eqb k) (map fst d) then map fst d else map fst d ++ [k].
Proof.
  induction d as [| [k' v'] r IH]; simpl; [ reflexivity | ].
  destruct (str_eqb k k') eqn:E; simpl.
  - apply str_eqb_eq in E. now subst k'.
  - rewrite IH. now destruct (existsb (str_eqb k) (map fst r)).
Qed.

Lemma load_lines_order (ls : list str) :
  forall d d',
    load_lines d ls = Ok d' ->
    map fst d' =
    fold_left (fun seen k => if existsb (str_eqb k) seen then seen
                             else seen ++ [k])
              (map line_word ls) (map fst d).
Proof.
  induction ls as [| line rest IH]; intros d d'; simpl.
  - intros H. now injection H as <-.
  - intros H. apply bind_ok in H. destruct H as (d1 & H1 & H).
    unfold load_line in H1.
    destruct (split "=" (strip line)) as [| x [| y [| z r]]] eqn:E;
      try discriminate.
    injection H1 as <-.
    assert (line_word line = strip (lower x)) as ->
      by (unfold line_word; now rewrite E).
    rewrite (IH _ _ H), dict_set_order. reflexivity.
Qed.

(** X18. The entries of the loaded table stand in the order in which
    their words first appear in the file: a later line for a word that
    is already there changes its pronunciation, not its place. This is
    the order in which the substitutions are applied. *)
Theorem table_keeps_first_appearance_order (text : str) (d : dict) :
  load_mapping text = Ok d ->
  map fst d = first_seen (map line_word (file_lines text)).
Proof. intros H. now apply (load_lines_order _ [] d). Qed.

Lemma table_keeps_first_appearance_order_witness :
  map fst [(lit "b", lit "three"); (lit "a", lit "two")] = [lit "b"; lit "a"].
Proof.
  rewrite (table_keeps_first_appearance_order
             (lit "B=one" ++ [LF] ++ lit "a=two" ++ [LF] ++ lit "b=three")
             [(lit "b", lit "three"); (lit "a", lit "two")] eq_refl).
  reflexivity.
Defined.

(** ** Joining selections *)

Lemma split_join (sep : ascii) (s s' : str) :
  split sep (s ++ sep :: s') = split sep s ++ split sep s'.
Proof.
  induction s as [| c r IH]; simpl.
  - now rewrite Ascii.eqb_refl.
  - destruct (Ascii.eqb c sep); [ now rewrite IH | ].
    rewrite IH. destruct (split sep r) as [| p ps] eqn:E; [ | reflexivity ].
    pose proof (split_length sep r) as Hl. rewrite E in Hl. discriminate Hl.
Qed.

(** X19. Selections add up: the selection string made of two selection
    strings joined by a comma selects the slides of both, a slide as
    many times as the two name it, in ascending order. *)
Theorem joined_selections_add_up (s s' : str) (count : Z) (l l' : list Z) :
  slide_list (Some s) count = Ok l ->
  slide_list (Some s') count = Ok l' ->
  exists l'',
    slide_list (Some (s ++ ","%char :: s')) count = Ok l''
    /\ Permutation l'' (l ++ l')
    /\ StronglySorted Z.le l''.
Proof.
  intros H H'. simpl in H, H'.
  apply bind_ok in H. destruct H as (l0 & H0 & H). injection H as <-.
  apply bind_ok in H'. destruct H' as (l0' & H0' & H'). injection H' as <-.
  apply select_tokens_selects in H0. destruct H0 as (parts & Hp & ->).
  apply select_tokens_selects in H0'. destruct H0' as (parts' & Hp' & ->).
  exists (sorted (List.concat (parts ++ parts'))). split; [ | split ].
  - simpl. rewrite split_join, map_app.
    rewrite (selects_select_tokens _ _ (Forall2_app Hp Hp') []).
    reflexivity.
  - rewrite !sorted_perm, concat_app. simpl. reflexivity.
  - apply sorted_ascending.
Qed.

Lemma joined_selections_add_up_witness :
  exists l'',
    slide_list (Some (lit "1-3" ++ ","%char :: lit "2,3")) 9 = Ok l''
    /\ Permutation l'' ([1; 2; 3] ++ [2; 3])
    /\ StronglySorted Z.le l''.
Proof.
  apply (joined_selections_add_up (lit "1-3") (lit "2,3") 9); reflexivity.
Defined.
